(** * Parsito word embeddings (src/parsito/embedding/embedding.cpp)

    A shallow embedding of [embedding::lookup_word],
    [embedding::unknown_word], [embedding::weight],
    [embedding::update_weights] and [embedding::load], and the properties of
    the lookup chain, the lazily materialised composed rows and the loader.

    Conventions.
    - [std::string] is a byte string: Rocq's [string].
    - [std::unordered_map<string,int>] is [gmap string Z]; [emplace] inserts
      only when the key is absent.
    - [std::vector] is [list]; an access out of range, undefined in C++, is
      totalised the stdpp way (a read gives the default, a write does
      nothing).  The theorems that depend on such accesses carry the
      invariant [inv] under which none is out of range.
    - [int] ids are [Z].  The products [id * dimension] and
      [id * dimension + j] are computed by the source in [unsigned]
      arithmetic and wrap modulo 2^32: see [uint32], [offset] and [idx].
      Container sizes converted to [int] are assumed to fit.
    - [float] is an abstract scalar type with the operations the source
      uses (class [Scalar]); no law is assumed unless a theorem says so.
      Exact rationals and IEEE 754 binary32 are two instances.
    - unilib (UTF-8 decoding, Unicode categories and lowercasing) is not
      part of the embedding source: it is the interface [Unilib]. *)

From Stdlib Require Import ZArith QArith Lia Floats.SpecFloat.
From stdpp Require Import base option list sorting strings gmap fin_maps.

Local Open Scope Z_scope.

(** ** External capabilities *)

(** The arithmetic of [float] used by the source: the constants [0.f] and
    [1.f], [+ - * /], the conversion [float(size_t)] and the test
    [!x] (true when [x] compares equal to zero). *)
Class Scalar (F : Type) := {
  f0 : F;
  f1 : F;
  fadd : F → F → F;
  fsub : F → F → F;
  fmul : F → F → F;
  fdiv : F → F → F;
  of_size : nat → F;
  is_zero : F → bool
}.

#[global] Instance scalar_inhabited `{Scalar F} : Inhabited F := populate f0.

(** The part of unilib the source calls.  A code point ([char32_t]) and a
    category mask ([unicode::category_t], one bit per general category) are
    integers.
    - [utf8_decode s], for a non-empty [s], is [utf8::decode(str, len)]: the
      first code point and the bytes left after it;
    - [utf8_encode c] is what [utf8::append(buffer, c)] appends;
    - [utf8_first s] is [utf8::first(s)];
    - [unicode_Lut], [unicode_L] and [unicode_N] are the masks
      [unicode::Lut] (uppercase or titlecase letter), [unicode::L] (letter)
      and [unicode::N] (number). *)
Class Unilib := {
  utf8_decode : string → Z * string;
  utf8_encode : Z → string;
  utf8_first : string → Z;
  category : Z → Z;
  lowercase : Z → Z;
  unicode_Lut : Z;
  unicode_L : Z;
  unicode_N : Z
}.

(** ** Machine arithmetic *)

Definition uint32 (z : Z) : Z := z mod 2 ^ 32.

(** [numeric_limits<int>::max()] *)
Definition int_max : Z := 2 ^ 31 - 1.

(** ** The embedding object *)

Record embedding (F : Type) := Embedding {
  dimension : nat;
  updatable_index : Z;
  unknown_index : Z;
  dictionary : gmap string Z;
  subform : bool;
  weights : list F;
  subforms : list (list Z);
  previous_weights : list (list F);
  active_subforms : list Z;
  decomposed_forms : gmap string Z
}.

Arguments Embedding {F}.
Arguments dimension {F}.
Arguments updatable_index {F}.
Arguments unknown_index {F}.
Arguments dictionary {F}.
Arguments subform {F}.
Arguments weights {F}.
Arguments subforms {F}.
Arguments previous_weights {F}.
Arguments active_subforms {F}.
Arguments decomposed_forms {F}.

(** Field updates. *)
Definition set_weights {F} (e : embedding F) (w : list F) : embedding F :=
  Embedding (dimension e) (updatable_index e) (unknown_index e) (dictionary e)
    (subform e) w (subforms e) (previous_weights e) (active_subforms e)
    (decomposed_forms e).

Definition set_active_subforms {F} (e : embedding F) (a : list Z) : embedding F :=
  Embedding (dimension e) (updatable_index e) (unknown_index e) (dictionary e)
    (subform e) (weights e) (subforms e) (previous_weights e) a
    (decomposed_forms e).

Definition set_decomposed_forms {F} (e : embedding F) (m : gmap string Z) : embedding F :=
  Embedding (dimension e) (updatable_index e) (unknown_index e) (dictionary e)
    (subform e) (weights e) (subforms e) (previous_weights e) (active_subforms e) m.

(** [m.emplace(k, v)]: no effect when [k] is already a key. *)
Definition emplace (k : string) (v : Z) (m : gmap string Z) : gmap string Z :=
  match m !! k with
  | Some _ => m
  | None => <[k := v]> m
  end.

(** [std::unique] followed by [erase]: of each run of equal neighbours the
    first element is kept. *)
Fixpoint unique (l : list Z) : list Z :=
  match l with
  | [] => []
  | x :: l' =>
      match l' with
      | [] => [x]
      | y :: _ => if decide (x = y) then unique l' else x :: unique l'
      end
  end.

(** [std::sort] on a vector of [int]. *)
Definition sort (l : list Z) : list Z := merge_sort Z.le l.

(** ** lookup_word *)

Section Lookup.
Context {F : Type} `{Scalar F} `{Unilib}.

Definition string_empty (s : string) : bool :=
  match s with EmptyString => true | _ => false end.

(** [buffer.assign(form.str, substr.str - form.str)]: [substr] is what is
    left of [form] after some decoding steps, so the pointer difference is
    the difference of the two remaining lengths. *)
Definition assign (form substr : string) : string :=
  String.substring 0 (String.length form - String.length substr) form.

(** Lines 37-45: the loop over [len = 0 .. 3], stopping early when
    [substr] is exhausted.  [k] is the number of iterations left. *)
Fixpoint subforms_at (dict : gmap string Z) (k : nat) (len : nat)
    (form substr : string) (back : list Z) : list Z :=
  match k with
  | O => back
  | S k' =>
      if string_empty substr then back
      else
        let substr' := snd (utf8_decode substr) in
        let back' :=
          if Nat.eqb len 0 then back
          else match dict !! assign form substr' with
               | Some id => back ++ [id]
               | None => back
               end in
        subforms_at dict k' (S len) form substr' back'
  end.

(** Lines 35-46: the loop over the start positions of [word_bow_eow].
    Every step decodes one code point, so the length of the string bounds
    the number of iterations ([subforms_from_fuel]). *)
Fixpoint subforms_from (dict : gmap string Z) (fuel : nat) (form : string)
    (back : list Z) : list Z :=
  match fuel with
  | O => back
  | S fuel' =>
      if string_empty form then back
      else subforms_from dict fuel' (snd (utf8_decode form))
             (subforms_at dict 4 0 form form back)
  end.

Definition word_bow_eow (word : string) : string :=
  String.append "<" (String.append word ">").

Definition subforms_of (dict : gmap string Z) (word : string) : list Z :=
  subforms_from dict (String.length (word_bow_eow word)) (word_bow_eow word) [].

(** [utf8::decoder(word)]: the code points of [word] in order. *)
Fixpoint decoder_from (fuel : nat) (s : string) : list Z :=
  match fuel with
  | O => []
  | S fuel' =>
      if string_empty s then []
      else fst (utf8_decode s) :: decoder_from fuel' (snd (utf8_decode s))
  end.

Definition decoder (s : string) : list Z := decoder_from (String.length s) s.

(** Lines 78-83: the categories of the first code point and the union of
    the categories of the others; the state is [(first, first_category,
    other_categories)]. *)
Definition scan_categories (chars : list Z) : bool * Z * Z :=
  fold_left
    (fun '(first, first_category, other_categories) chr =>
       if first : bool
       then (false, Z.lor first_category (category chr), other_categories)
       else (false, first_category, Z.lor other_categories (category chr)))
    chars (true, 0, 0).

Definition first_category (word : string) : Z := snd (fst (scan_categories (decoder word))).
Definition other_categories (word : string) : Z := snd (scan_categories (decoder word)).

(** Lines 87-92: every code point but the first lowercased; the state is
    [(first, buffer)]. *)
Definition lowercase_but_first (word : string) : string :=
  snd (fold_left
         (fun '(first, buffer) chr =>
            (false, String.append buffer
                      (utf8_encode (if first : bool then chr else lowercase chr))))
         (decoder word) (true, EmptyString)).

(** Line 99: [utf8::map(unicode::lowercase, word, buffer)]. *)
Definition lowercase_all (word : string) : string :=
  fold_left (fun buffer chr => String.append buffer (utf8_encode (lowercase chr)))
    (decoder word) EmptyString.

(** The UTF-8 text of a sequence of code points. *)
Definition utf8_string (chars : list Z) : string :=
  fold_right (fun chr s => String.append (utf8_encode chr) s) EmptyString chars.

(** A mask test [a & b] used as a condition. *)
Definition has (a b : Z) : bool := negb (Z.land a b =? 0).

(** Lines 57-66: the collected ids sorted and deduplicated become the
    subform list of the new id [subforms.size() - 1]; a cache slot of
    [dimension + 1] zeros and a zero row are appended, and the word is
    memoised.  [back] is [subforms.back()], already pushed at line 34, so
    the new id is the number of lists before the push. *)
Definition compose (e : embedding F) (word : string) (back : list Z)
    : Z * embedding F :=
  let back' := unique (sort back) in
  let id := Z.of_nat (length (subforms e)) in
  (id,
   Embedding (dimension e) (updatable_index e) (unknown_index e)
     (dictionary e) (subform e)
     (weights e ++ replicate (dimension e) f0)
     (subforms e ++ [back'])
     (previous_weights e ++ [replicate (dimension e + 1) f0])
     (active_subforms e)
     (emplace word id (decomposed_forms e))).

(** The subform branch, lines 25-70.  The function is [const] in the
    source but writes the [mutable] members, so the object is returned
    with the id.  A memoised word returns its entry, negative (line 28) or
    not (line 69). *)
Definition lookup_subform (e : embedding F) (word : string) : Z * embedding F :=
  match decomposed_forms e !! word with
  | Some id => (id, e)
  | None =>
      let back := subforms_of (dictionary e) word in
      if decide (back = []) then
        if unknown_index e <? 0 then
          (unknown_index e,
           set_decomposed_forms e
             (emplace word (unknown_index e) (decomposed_forms e)))
        else compose e word (back ++ [unknown_index e])
      else compose e word back
  end.

(** The heuristic chain, lines 72-115. *)
Definition lookup_heuristic (e : embedding F) (word : string) : Z :=
  match dictionary e !! word with
  | Some id => id
  | None =>
      let first_category := first_category word in
      let other_categories := other_categories word in
      let step4 :=
        let step5 := unknown_index e in
        if has first_category unicode_N && negb (has other_categories unicode_L)
        then match dictionary e !! utf8_encode (utf8_first word) with
             | Some id => id
             | None => step5
             end
        else step5 in
      let step3 :=
        if has first_category unicode_Lut || has other_categories unicode_Lut
        then match dictionary e !! lowercase_all word with
             | Some id => id
             | None => step4
             end
        else step4 in
      if has first_category unicode_Lut && has other_categories unicode_Lut
      then match dictionary e !! lowercase_but_first word with
           | Some id => id
           | None => step3
           end
      else step3
  end.

(** [embedding::lookup_word], without its scratch argument [buffer]. *)
Definition lookup_word (e : embedding F) (word : string) : Z * embedding F :=
  if subform e then lookup_subform e word
  else (lookup_heuristic e word, e).
End Lookup.

(** ** weight and update_weights *)

Section Weights.
Context {F : Type} `{Scalar F}.

(** [id * dimension], an [unsigned] product. *)
Definition offset (dim : nat) (id : Z) : Z := uint32 (id * Z.of_nat dim).

(** [id * dimension + j], the [unsigned] index of [weights[...]]. *)
Definition idx (dim : nat) (id : Z) (j : nat) : nat :=
  Z.to_nat (uint32 (id * Z.of_nat dim + Z.of_nat j)).

(** [for (unsigned j = 0; j < dimension; j++) body]. *)
Definition for_j (dim : nat) (body : nat → list F → list F) (w : list F) : list F :=
  fold_left (fun w j => body j w) (seq 0 dim) w.

(** [fill_n(first + pos, n, x)]. *)
Definition fill_n (w : list F) (pos n : nat) (x : F) : list F :=
  fold_left (fun w k => <[(pos + k)%nat := x]> w) (seq 0 n) w.

(** [copy_n(src + pos, n, dst.begin())]. *)
Definition copy_n (src : list F) (pos n : nat) (dst : list F) : list F :=
  fold_left (fun dst k => <[k := src !!! (pos + k)%nat]> dst) (seq 0 n) dst.

(** Lines 132-134. *)
Definition add_subforms (dim : nat) (id : Z) (subs : list Z) (w : list F) : list F :=
  fold_left
    (fun w subform =>
       for_j dim (fun j w =>
         <[idx dim id j := fadd (w !!! idx dim id j) (w !!! idx dim subform j)]> w) w)
    subs w.

(** Lines 131-142: the row of [id] becomes the scaled sum of the rows of
    its subforms, the cache slot takes a copy and is marked, and [id]
    joins the active ids. *)
Definition materialize (e : embedding F) (id : Z) : embedding F :=
  let dim := dimension e in
  let subs := subforms e !!! Z.to_nat id in
  let pos := Z.to_nat (offset dim id) in
  let w1 := fill_n (weights e) pos dim f0 in
  let w2 := add_subforms dim id subs w1 in
  let normalize := fdiv f1 (of_size (length subs)) in
  let w3 := for_j dim (fun j w => <[idx dim id j := fmul (w !!! idx dim id j) normalize]> w) w2 in
  let pw1 := copy_n w3 pos dim (previous_weights e !!! Z.to_nat id) in
  let pw2 := <[dim := f1]> pw1 in
  Embedding dim (updatable_index e) (unknown_index e) (dictionary e) (subform e)
    w3 (subforms e) (<[Z.to_nat id := pw2]> (previous_weights e))
    (active_subforms e ++ [id]) (decomposed_forms e).

(** [previous_weights[id]] is not empty and its flag is zero. *)
Definition stale (e : embedding F) (id : Z) : bool :=
  let pw := previous_weights e !!! Z.to_nat id in
  negb (bool_decide (length pw = 0%nat)) && is_zero (pw !!! dimension e).

(** [embedding::weight]: [None] is [nullptr], [Some pos] is the pointer
    [weights.data() + pos]; the object is returned because the function
    writes its [mutable] members. *)
Definition weight (e : embedding F) (id : Z) : option nat * embedding F :=
  if (id <? 0) || (Z.of_nat (length (weights e)) <=? offset (dimension e) id)
  then (None, e)
  else
    (Some (Z.to_nat (offset (dimension e) id)),
     if subform e then
       if stale e id then materialize e id else e
     else e).

(** The [dimension] floats a returned pointer gives access to. *)
Definition row_at (e : embedding F) (pos : nat) : list F :=
  take (dimension e) (drop pos (weights e)).

(** The row of an id, [weights[id * dimension .. id * dimension + dimension)]. *)
Definition row (e : embedding F) (id : nat) : list F :=
  row_at e (id * dimension e).

(** Lines 156-158. *)
Definition add_to_subforms (dim : nat) (id : Z) (subs : list Z) (w : list F) : list F :=
  fold_left
    (fun w subform =>
       for_j dim (fun j w =>
         <[idx dim subform j := fadd (w !!! idx dim subform j) (w !!! idx dim id j)]> w) w)
    subs w.

(** Lines 152-160, the body of the loop over the active ids. *)
Definition update_one (e : embedding F) (id : Z) : embedding F :=
  let dim := dimension e in
  let subs := subforms e !!! Z.to_nat id in
  let pw := previous_weights e !!! Z.to_nat id in
  let normalize := fdiv f1 (of_size (length subs)) in
  let w1 :=
    for_j dim (fun j w =>
      <[idx dim id j := fmul (fsub (w !!! idx dim id j) (pw !!! j)) normalize]> w)
      (weights e) in
  let w2 := add_to_subforms dim id subs w1 in
  Embedding dim (updatable_index e) (unknown_index e) (dictionary e) (subform e)
    w2 (subforms e) (<[Z.to_nat id := <[dim := f0]> pw]> (previous_weights e))
    (active_subforms e) (decomposed_forms e).

(** [embedding::update_weights]. *)
Definition update_weights (e : embedding F) : embedding F :=
  if subform e then
    set_active_subforms (fold_left update_one (active_subforms e) e) []
  else e.
End Weights.

(** ** load *)

(** Modelled from the spec: the binary decoder ([binary_decoder], section 6
    of the specification) is not part of the embedding source.  The stream
    is a sequence of typed fields: a 4-byte integer, a 1-byte integer, a
    length-prefixed string, a float.  A read takes the next field when it
    has the requested type and fails otherwise (a decode failure). *)
Inductive field (F : Type) :=
  | Field4B (v : N)
  | Field1B (v : N)
  | FieldStr (s : string)
  | FieldFloat (x : F).

Arguments Field4B {F}.
Arguments Field1B {F}.
Arguments FieldStr {F}.
Arguments FieldFloat {F}.

Section Load.
Context {F : Type}.

Abbreviation binary_decoder := (list (field F)).

Definition next_4B (data : binary_decoder) : option (N * binary_decoder) :=
  match data with Field4B v :: data' => Some (v, data') | _ => None end.

Definition next_1B (data : binary_decoder) : option (N * binary_decoder) :=
  match data with Field1B v :: data' => Some (v, data') | _ => None end.

Definition next_str (data : binary_decoder) : option (string * binary_decoder) :=
  match data with FieldStr s :: data' => Some (s, data') | _ => None end.

(** [data.next<float>(n)] *)
Fixpoint next_floats (n : nat) (data : binary_decoder) : option (list F * binary_decoder) :=
  match n with
  | O => Some ([], data)
  | S n' =>
      match data with
      | FieldFloat x :: data' =>
          match next_floats n' data' with
          | Some (xs, data'') => Some (x :: xs, data'')
          | None => None
          end
      | _ => None
      end
  end.

(** Lines 175-178: [count] words are read; each is emplaced with the
    current size of the dictionary as its id. *)
Fixpoint load_dictionary (count : nat) (dictionary : gmap string Z)
    (data : binary_decoder) : option (gmap string Z * binary_decoder) :=
  match count with
  | O => Some (dictionary, data)
  | S count' =>
      match next_str data with
      | Some (word, data') =>
          load_dictionary count'
            (emplace word (Z.of_nat (size dictionary)) dictionary) data'
      | None => None
      end
  end.

(** [v.resize(n)] on a vector of vectors: the first [n] elements are kept
    and empty ones are added up to [n]. *)
Definition resize {A} (n : nat) (v : list (list A)) : list (list A) :=
  take n v ++ replicate (n - length v) [].

(** [embedding::load], on the object [e].  [None]: [load] does not return.
    Either a read fails (the decoder throws), or every read succeeds and
    the dimension is zero: then line 187 divides by zero, which is
    undefined, and the program is killed. *)
Definition load (e : embedding F) (data : binary_decoder)
    : option (embedding F * binary_decoder) :=
  match next_4B data with None => None | Some (dim, data) =>
  let dimension := N.to_nat dim in
  let updatable_index := int_max in
  match next_4B data with None => None | Some (count, data) =>
  match load_dictionary (N.to_nat count) ∅ data with None => None | Some (dictionary, data) =>
  match next_1B data with None => None | Some (unknown, data) =>
  let unknown_index := if (unknown =? 0)%N then -1 else Z.of_nat (size dictionary) in
  match next_1B data with None => None | Some (sub, data) =>
  let subform := negb (sub =? 0)%N in
  let floats :=
    (dimension * (size dictionary + (if (0 <=? unknown_index)%Z then 1 else 0)))%nat in
  match next_floats floats data with None => None | Some (weights, data) =>
  if Nat.eqb dimension 0 then None else
  let rows := (length weights / dimension)%nat in
  Some (Embedding dimension updatable_index unknown_index dictionary subform
          weights (resize rows (subforms e)) (resize rows (previous_weights e))
          (active_subforms e) (decomposed_forms e),
        data)
  end end end end end end.

(** A default-constructed object: the containers are empty; the scalar
    members are not initialised by the constructor and are all written by
    [load] before they are read. *)
Definition embedding_new : embedding F :=
  Embedding 0 0 0 ∅ false [] [] [] [] ∅.
End Load.

(** ** Instances used by the examples *)

(** Exact rational arithmetic as scalars. *)
#[global] Instance Q_scalar : Scalar Q := {
  f0 := 0%Q;
  f1 := 1%Q;
  fadd := Qplus;
  fsub := Qminus;
  fmul := Qmult;
  fdiv := Qdiv;
  of_size n := inject_Z (Z.of_nat n);
  is_zero q := (Qnum q =? 0)
}.

(** IEEE 754 binary32, the [float] of the source, from the Standard
    Library's specification of floating-point arithmetic (rounding to
    nearest, ties to even). *)
Module Binary32.
Definition prec : Z := 24.
Definition emax : Z := 128.

Definition of_Z (z : Z) : spec_float := binary_normalize prec emax z 0 false.

Definition scalar : Scalar spec_float := {|
  f0 := S754_zero false;
  f1 := of_Z 1;
  fadd := SFadd prec emax;
  fsub := SFsub prec emax;
  fmul := SFmul prec emax;
  fdiv := SFdiv prec emax;
  of_size n := of_Z (Z.of_nat n);
  is_zero x := SFeqb x (S754_zero false)
|}.
End Binary32.

(** Modelled from the spec: unilib is an external collaborator (sections 1
    and 9 of the specification); this instance is its restriction to ASCII
    text.  A code point is one byte; the uppercase letters are the
    category Lu, the lowercase ones Ll, the digits Nd, with the masks
    [Lut = Lu | Lt], [L = Lu | Ll | Lt | Lm | Lo] and [N = Nd | Nl | No]. *)
Module AsciiText.
Definition Lu : Z := 2.
Definition Ll : Z := 4.
Definition Nd : Z := 512.

Definition category (c : Z) : Z :=
  if (65 <=? c) && (c <=? 90) then Lu
  else if (97 <=? c) && (c <=? 122) then Ll
  else if (48 <=? c) && (c <=? 57) then Nd
  else 0.

Definition lowercase (c : Z) : Z :=
  if (65 <=? c) && (c <=? 90) then c + 32 else c.

Definition decode (s : string) : Z * string :=
  match s with
  | EmptyString => (0, EmptyString)
  | String a s' => (Z.of_nat (Ascii.nat_of_ascii a), s')
  end.

Definition encode (c : Z) : string :=
  String (Ascii.ascii_of_nat (Z.to_nat c)) EmptyString.
End AsciiText.

#[global] Instance ascii_unilib : Unilib := {
  utf8_decode := AsciiText.decode;
  utf8_encode := AsciiText.encode;
  utf8_first s := fst (AsciiText.decode s);
  category := AsciiText.category;
  lowercase := AsciiText.lowercase;
  unicode_Lut := 10;
  unicode_L := 62;
  unicode_N := 3584
}.

(** ** Runs of the object *)

(** What a client does with a loaded object: look words up, fetch rows,
    flush, and (the optimiser) overwrite floats through the pointers that
    the non-const [weight] hands out. *)
Inductive op (F : Type) :=
  | OpLookup (word : string)
  | OpWeight (id : Z)
  | OpUpdate
  | OpStore (pos : nat) (x : F).

Arguments OpLookup {F}.
Arguments OpWeight {F}.
Arguments OpUpdate {F}.
Arguments OpStore {F}.

Section Runs.
Context {F : Type} `{Scalar F} `{Unilib}.

Definition step (e : embedding F) (o : op F) : embedding F :=
  match o with
  | OpLookup word => snd (lookup_word e word)
  | OpWeight id => snd (weight e id)
  | OpUpdate => update_weights e
  | OpStore pos x => set_weights e (<[pos := x]> (weights e))
  end.

Definition run (ops : list (op F)) (e : embedding F) : embedding F :=
  fold_left step ops e.

(** The result of loading a stream into a new object, with a dimension
    for which line 187 is defined. *)
Definition loaded (e : embedding F) : Prop :=
  ∃ data data', load embedding_new data = Some (e, data') ∧ dimension e ≠ 0%nat.

Definition reachable (e : embedding F) : Prop :=
  ∃ e0 ops, loaded e0 ∧ e = run ops e0.

(** The number of rows read by [load]. *)
Definition rows_loaded (e : embedding F) : nat :=
  (size (dictionary e) + (if (0 <=? unknown_index e)%Z then 1 else 0))%nat.

(** The current number of rows, [weights.size() / dimension]. *)
Definition rows (e : embedding F) : nat :=
  (length (weights e) / dimension e)%nat.

(** A composed id: a row added by [lookup_word]. *)
Definition composed (e : embedding F) (id : nat) : Prop :=
  (rows_loaded e ≤ id < length (subforms e))%nat.
End Runs.

(** ** Notions used by the statements *)

Section Notions.
Context {F : Type} `{Scalar F} `{Unilib}.

(** A word that is a key of the dictionary resolves to its dictionary
    id. *)
Definition verbatim_hit_wins (e : embedding F) : Prop :=
  ∀ word id, dictionary e !! word = Some id → fst (lookup_word e word) = id.

(** The contract of [utf8::decode]: it consumes at least one byte. *)
Definition decode_shrinks : Prop :=
  ∀ s, string_empty s = false →
       (String.length (snd (utf8_decode s)) < String.length s)%nat.

(** The dictionary that reading [words] in order builds. *)
Definition dictionary_of (words : list string) : gmap string Z :=
  fold_left (fun m word => emplace word (Z.of_nat (size m)) m) words ∅.

(** The number of distinct words. *)
Definition distinct (words : list string) : nat :=
  size (list_to_set words : gset string).

(** The object that [load] builds from the fields it reads. *)
Definition loaded_from (dim : N) (words : list string) (unknown sub : N)
    (ws : list F) : embedding F :=
  let dict := dictionary_of words in
  let rows := (length ws / N.to_nat dim)%nat in
  Embedding (N.to_nat dim) int_max
    (if (unknown =? 0)%N then -1 else Z.of_nat (size dict))
    dict (negb (sub =? 0)%N) ws (replicate rows []) (replicate rows []) [] ∅.

(** The shape of a stream that [load] accepts. *)
Definition stream (dim count : N) (words : list string) (unknown sub : N)
    (ws : list F) (rest : list (field F)) : list (field F) :=
  Field4B dim :: Field4B count :: (FieldStr <$> words)
    ++ Field1B unknown :: Field1B sub :: (FieldFloat <$> ws) ++ rest.

(** The reading of the stream in which the count field [count] gives the
    number of rows and the position of a word is its id. *)
Definition load_rows_by_count : Prop :=
  ∀ dim count words unknown sub ws rest e rest',
    length words = N.to_nat count →
    load embedding_new (stream dim count words unknown sub ws rest) = Some (e, rest') →
    length (weights e)
    = (N.to_nat dim * (N.to_nat count + (if (unknown =? 0)%N then 0 else 1)))%nat
    ∧ ∀ i word, words !! i = Some word → dictionary e !! word = Some (Z.of_nat i).

(** The invariant of a loaded object.  The loaded rows come first and
    have neither subforms nor a cache slot; every later id is composed:
    its subform list is not empty, strictly ascending and made of loaded
    ids, and its cache slot has [dimension + 1] cells.  The three vectors
    have one entry per row.  The active ids and the memoised ids are
    composed ids, or the negative unknown index for a memoised word. *)
Record inv (e : embedding F) : Prop := {
  inv_dimension : dimension e ≠ 0%nat;
  inv_unknown :
    unknown_index e = -1 ∨ unknown_index e = Z.of_nat (size (dictionary e));
  inv_dictionary :
    map_Forall (fun _ id => 0 ≤ id < Z.of_nat (size (dictionary e))) (dictionary e);
  inv_rows : (rows_loaded e ≤ length (subforms e))%nat;
  inv_weights : length (weights e) = (length (subforms e) * dimension e)%nat;
  inv_previous : length (previous_weights e) = length (subforms e);
  inv_plain : ∀ id, (id < rows_loaded e)%nat →
    subforms e !! id = Some [] ∧ previous_weights e !! id = Some [];
  inv_composed : ∀ id, composed e id →
    ∃ l p, subforms e !! id = Some l ∧ previous_weights e !! id = Some p
           ∧ l ≠ [] ∧ StronglySorted Z.lt l
           ∧ Forall (fun c => 0 ≤ c < Z.of_nat (rows_loaded e)) l
           ∧ length p = (dimension e + 1)%nat;
  inv_active :
    Forall (fun id => 0 ≤ id ∧ composed e (Z.to_nat id)) (active_subforms e);
  inv_memo :
    map_Forall (fun _ id => id = unknown_index e ∧ id < 0
                            ∨ 0 ≤ id ∧ composed e (Z.to_nat id))
      (decomposed_forms e)
}.


(** The active ids are pairwise distinct and their slots are fresh. *)
Definition active_fresh (e : embedding F) : Prop :=
  NoDup (active_subforms e)
  ∧ Forall (fun id => stale e id = false) (active_subforms e).

(** The indices of all cells fit the [unsigned] index arithmetic. *)
Definition no_overflow (e : embedding F) : Prop :=
  Z.of_nat (length (weights e)) ≤ 2 ^ 32.

(** Following the specification: the element-wise sum and the
    element-wise arithmetic mean of rows of width [dim]. *)
Definition sum_rows (dim : nat) (rs : list (list F)) : list F :=
  fold_left (zip_with fadd) rs (replicate dim f0).

Definition mean_rows (dim : nat) (rs : list (list F)) : list F :=
  (fun s => fdiv s (of_size (length rs))) <$> sum_rows dim rs.

(** Following the specification: the change of a row from its snapshot,
    divided by the number of subforms. *)
Definition delta (e : embedding F) (id : nat) : list F :=
  (fun d => fdiv d (of_size (length (subforms e !!! id))))
    <$> zip_with fsub (row e id) (take (dimension e) (previous_weights e !!! id)).

(** The change of cell [j] of the row of [id] from its snapshot, times
    the reciprocal of the number of subforms: what line 154 stores. *)
Definition delta_cell (e : embedding F) (id : Z) (j : nat) : F :=
  fmul (fsub (weights e !!! (Z.to_nat id * dimension e + j)%nat)
             ((previous_weights e !!! Z.to_nat id) !!! j))
       (fdiv f1 (of_size (length (subforms e !!! Z.to_nat id)))).

(** Lines 136-138 and 152-154: every cell times the reciprocal
    [1.f / float(n)]. *)
Definition normalized (n : nat) (r : list F) : list F :=
  (fun s => fmul s (fdiv f1 (of_size n))) <$> r.

(** The mean and the delta as the source computes them. *)
Definition mean_computed (dim : nat) (rs : list (list F)) : list F :=
  normalized (length rs) (sum_rows dim rs).

Definition delta_computed (e : embedding F) (id : nat) : list F :=
  normalized (length (subforms e !!! id))
    (zip_with fsub (row e id) (take (dimension e) (previous_weights e !!! id))).

(** The loaded row [c] after every active id that has [c] among its
    subforms has added its delta [d id] to it, in the order of the active
    ids. *)
Definition redistributed (d : nat → list F) (e : embedding F) (c : nat) : list F :=
  fold_left
    (fun acc id =>
       if decide (Z.of_nat c ∈ subforms e !!! Z.to_nat id)
       then zip_with fadd acc (d (Z.to_nat id)) else acc)
    (active_subforms e) (row e c).

(** Multiplying by the reciprocal is dividing: a law of exact arithmetic,
    under which the computed mean and delta are the specified ones; in
    [float] arithmetic the two sides can differ by a rounding. *)
Definition exact_division : Prop :=
  ∀ x n : F, fmul x (fdiv f1 n) = fdiv x n.
End Notions.

(** ** Further notions *)

Section NgramNotions.
Context `{Unilib}.

(** The bytes of the first code point of [s]: what [utf8::decode] consumes. *)
Definition first_chunk (s : string) : string := assign s (snd (utf8_decode s)).

(** The byte sequences of the code points of [s], in order. *)
Fixpoint chunks_from (fuel : nat) (s : string) : list string :=
  match fuel with
  | O => []
  | S fuel' =>
      if string_empty s then []
      else first_chunk s :: chunks_from fuel' (snd (utf8_decode s))
  end.

Definition chunks (s : string) : list string := chunks_from (String.length s) s.

Definition join (cs : list string) : string :=
  fold_right String.append EmptyString cs.

(** Following the specification: the n-grams of 2, 3 and 4 code points
    that start at the head of [cs], as far as [cs] has that many code
    points. *)
Definition ngrams_at (cs : list string) : list string :=
  (fun n => join (take n cs)) <$> seq 2 (Nat.min 3 (length cs - 1)).

(** Following the specification: the n-grams of 2 to 4 code points at
    every start position, by start position and then by length. *)
Fixpoint ngrams (cs : list string) : list string :=
  match cs with
  | [] => []
  | c :: cs' => ngrams_at (c :: cs') ++ ngrams cs'
  end.

(** The contract of [utf8::decode]: what is left is what follows the
    bytes consumed, and at least one byte is consumed. *)
Definition decode_splits : Prop :=
  ∀ s, string_empty s = false →
       ∃ a p, s = String.append (String a p) (snd (utf8_decode s)).
(** [s] is cut into the code points [cs] by repeated decoding. *)
Inductive chunked : string → list string → Prop :=
  | chunked_nil : chunked EmptyString []
  | chunked_cons s c cs :
      string_empty s = false → string_empty c = false →
      s = String.append c (snd (utf8_decode s)) →
      chunked (snd (utf8_decode s)) cs → chunked s (c :: cs).

End NgramNotions.

Section CacheNotions.
Context {F : Type} `{Scalar F}.

(** Every composed id whose cache slot is marked is among the active
    ids. *)
Definition fresh_active (e : embedding F) : Prop :=
  ∀ n, composed e n → stale e (Z.of_nat n) = false →
       Z.of_nat n ∈ active_subforms e.
End CacheNotions.

(** A store through a pointer, as opposed to a call of a member
    function. *)
Definition is_store {F} (o : op F) : bool :=
  match o with OpStore _ _ => true | _ => false end.

(** [embedding::unknown_word], lines 118-120. *)
Definition unknown_word {F} (e : embedding F) : Z := unknown_index e.

Section QuotientNotions.
Context {F : Type} `{Scalar F} `{Unilib}.

(** The reading of [weight] in which a materialised row is the quotient
    of the sum of the rows of its subforms by their number. *)
Definition weight_gives_mean : Prop :=
  ∀ (e : embedding F) (id : Z),
    inv e → no_overflow e → subform e = true → 0 ≤ id → stale e id = true →
    row (snd (weight e id)) (Z.to_nat id)
    = mean_rows (dimension e)
        ((fun c => row e (Z.to_nat c)) <$> subforms e !!! Z.to_nat id).

(** The reading of [update_weights] in which the delta added to the rows
    of the subforms is the quotient of the change by their number. *)
Definition update_adds_quotient : Prop :=
  ∀ (e : embedding F),
    inv e → no_overflow e → subform e = true → NoDup (active_subforms e) →
    ∀ c, (c < rows_loaded e)%nat →
      row (update_weights e) c = redistributed (delta e) e c.
End QuotientNotions.

(** ** Concrete streams and objects *)

Module Examples.
Definition load_new (data : list (field Q)) : embedding Q :=
  match load embedding_new data with
  | Some (e, _) => e
  | None => embedding_new
  end.

(** Dimension 2, the words "cat" and "dog", no unknown row, subform mode,
    rows [1 0] and [0 1]. *)
Definition cat_dog_stream : list (field Q) :=
  [Field4B 2%N; Field4B 2%N; FieldStr "cat"; FieldStr "dog";
   Field1B 0%N; Field1B 1%N;
   FieldFloat 1%Q; FieldFloat 0%Q; FieldFloat 0%Q; FieldFloat 1%Q].

Definition cat_dog : embedding Q := load_new cat_dog_stream.

(** The same with an unknown row [3 5]. *)
Definition cat_dog_unknown_stream : list (field Q) :=
  [Field4B 2%N; Field4B 2%N; FieldStr "cat"; FieldStr "dog";
   Field1B 1%N; Field1B 1%N;
   FieldFloat 1%Q; FieldFloat 0%Q; FieldFloat 0%Q; FieldFloat 1%Q;
   FieldFloat 3%Q; FieldFloat 5%Q].

Definition cat_dog_unknown : embedding Q := load_new cat_dog_unknown_stream.

(** Dimension 1, the words "the", "A1" and "Ab", an unknown row, no
    subforms. *)
Definition the_stream : list (field Q) :=
  [Field4B 1%N; Field4B 3%N; FieldStr "the"; FieldStr "A1"; FieldStr "Ab";
   Field1B 1%N; Field1B 0%N;
   FieldFloat 1%Q; FieldFloat 5%Q; FieldFloat 7%Q; FieldFloat 9%Q].

Definition the : embedding Q := load_new the_stream.

(** Dimension 1 and the word "a" twice. *)
Definition twice_stream : list (field Q) :=
  [Field4B 1%N; Field4B 2%N; FieldStr "a"; FieldStr "a";
   Field1B 0%N; Field1B 0%N; FieldFloat 1%Q; FieldFloat 5%Q].

(** Dimension 4 and the single word "a", no subforms. *)
Definition wide_stream : list (field Q) :=
  [Field4B 4%N; Field4B 1%N; FieldStr "a"; Field1B 0%N; Field1B 0%N;
   FieldFloat 1%Q; FieldFloat 2%Q; FieldFloat 3%Q; FieldFloat 4%Q].

Definition wide : embedding Q := load_new wide_stream.

(** [cat_dog_stream] in binary32, and "cats" looked up in the object
    loaded from it: the composed id 2 with the subform 0 ("cat"). *)
Definition cat_dog_binary32 : embedding spec_float :=
  match
    load embedding_new
      [Field4B 2%N; Field4B 2%N; FieldStr "cat"; FieldStr "dog";
       Field1B 0%N; Field1B 1%N;
       FieldFloat (Binary32.of_Z 1); FieldFloat (Binary32.of_Z 0);
       FieldFloat (Binary32.of_Z 0); FieldFloat (Binary32.of_Z 1)]
  with
  | Some (e, _) => e
  | None => embedding_new
  end.

Definition with_cats_binary32 : embedding spec_float :=
  snd (@lookup_word _ Binary32.scalar _ cat_dog_binary32 "cats").

(** "cats" looked up in [cat_dog_unknown]: the composed id 3, with the
    subform 0 ("cat"), not yet materialised. *)
Definition with_cats : embedding Q := run [OpLookup "cats"] cat_dog_unknown.

(** "cats" and "xyz" (the composed ids 3 and 4) looked up and fetched,
    and two cells of their rows changed by the optimiser. *)
Definition trained : embedding Q :=
  run [OpLookup "cats"; OpLookup "xyz"; OpWeight 3; OpWeight 4;
       OpStore 6 2%Q; OpStore 9 (1 # 2)%Q] cat_dog_unknown.

(** Dimension 1, the words "2" and "the", an unknown row, no subforms. *)
Definition numbers_stream : list (field Q) :=
  [Field4B 1%N; Field4B 2%N; FieldStr "2"; FieldStr "the";
   Field1B 1%N; Field1B 0%N; FieldFloat 1%Q; FieldFloat 5%Q; FieldFloat 9%Q].

Definition numbers : embedding Q := load_new numbers_stream.

(** [cat_dog_stream] loaded into the used object [with_cats]. *)
Definition reloaded : embedding Q :=
  match load with_cats cat_dog_stream with
  | Some (e, _) => e
  | None => embedding_new
  end.

(** In binary32: dimension 2, the words "ca", "at" and "t>" with the rows
    [1 0], [2 0] and [2 9], no unknown row, subform mode. *)
Definition thirds_stream : list (field spec_float) :=
  [Field4B 2%N; Field4B 3%N; FieldStr "ca"; FieldStr "at"; FieldStr "t>";
   Field1B 0%N; Field1B 1%N;
   FieldFloat (Binary32.of_Z 1); FieldFloat (Binary32.of_Z 0);
   FieldFloat (Binary32.of_Z 2); FieldFloat (Binary32.of_Z 0);
   FieldFloat (Binary32.of_Z 2); FieldFloat (Binary32.of_Z 9)].

Definition thirds : embedding spec_float :=
  match load embedding_new thirds_stream with
  | Some (e, _) => e
  | None => embedding_new
  end.

(** "cat" looked up in [thirds]: the composed id 3 with the subforms 0, 1
    and 2. *)
Definition thirds_cat : embedding spec_float :=
  @run _ Binary32.scalar _ [OpLookup "cat"] thirds.

(** Then fetched. *)
Definition thirds_fetched : embedding spec_float :=
  @run _ Binary32.scalar _ [OpLookup "cat"; OpWeight 3] thirds.

(** Then the second cell of the row, which holds 3, set to 8 by the
    optimiser. *)
Definition thirds_trained : embedding spec_float :=
  @run _ Binary32.scalar _
    [OpLookup "cat"; OpWeight 3; OpStore 7 (Binary32.of_Z 8)] thirds.
End Examples.

(** * Properties *)

(** ** The lookup chain *)

Section LookupFacts.
Context {F : Type} `{Scalar F} `{Unilib}.

Lemma emplace_lookup_same (k : string) (v : Z) (m : gmap string Z) :
  m !! k = None → emplace k v m !! k = Some v.
Proof. intros Hk. unfold emplace. rewrite Hk. apply lookup_insert_eq. Qed.

Lemma emplace_lookup_keeps (k k' : string) (v v' : Z) (m : gmap string Z) :
  m !! k' = Some v' → emplace k v m !! k' = Some v'.
Proof.
  intros Hk'. unfold emplace. destruct (m !! k) eqn:Hk; [done|].
  rewrite lookup_insert_ne; [done|]. intros ->. congruence.
Qed.

(** A lookup in subform mode leaves the word memoised with the id it
    returned. *)
Lemma lookup_subform_memoises (e : embedding F) (word : string) :
  decomposed_forms (snd (lookup_subform e word)) !! word
  = Some (fst (lookup_subform e word)).
Proof.
  unfold lookup_subform.
  destruct (decomposed_forms e !! word) eqn:Hmemo; [done|].
  repeat case_decide; repeat case_match; simpl;
    by apply emplace_lookup_same.
Qed.



Lemma step_keeps_subform (e : embedding F) (o : op F) :
  subform (step e o) = subform e.
Proof.
  destruct o as [word'|id'| |pos x]; simpl.
  - unfold lookup_word. destruct (subform e) eqn:Hs; [|done].
    unfold lookup_subform. repeat case_match; done.
  - unfold weight. repeat case_match; simpl; done.
  - unfold update_weights. destruct (subform e) eqn:Hs; [|done]. simpl.
    rewrite <- Hs. generalize (active_subforms e). intros l. clear Hs. revert e.
    induction l as [|a l IH]; intros e; [done|]. simpl. by rewrite IH.
  - done.
Qed.



Lemma unique_sort_singleton (x : Z) : unique (sort [x]) = [x].
Proof. reflexivity. Qed.


(** *** The heuristics *)

Lemma append_nil_r (s : string) : String.append s EmptyString = s.
Proof.
  induction s as [|a s IH]; [done|].
  change (String a (String.append s EmptyString) = String a s). by rewrite IH.
Qed.

Lemma append_assoc (s1 s2 s3 : string) :
  String.append (String.append s1 s2) s3 = String.append s1 (String.append s2 s3).
Proof.
  induction s1 as [|a s1 IH]; [done|].
  change (String a (String.append (String.append s1 s2) s3)
          = String a (String.append s1 (String.append s2 s3))).
  by rewrite IH.
Qed.

Lemma has_lor (a b m : Z) : has (Z.lor a b) m = has a m || has b m.
Proof.
  unfold has. rewrite Z.land_lor_distr_l.
  destruct (Z.land a m =? 0) eqn:Ha, (Z.land b m =? 0) eqn:Hb;
    rewrite ?Z.eqb_eq, ?Z.eqb_neq in *; simpl.
  - rewrite Ha, Hb. done.
  - rewrite Ha. simpl. apply negb_true_iff, Z.eqb_neq. done.
  - apply negb_true_iff, Z.eqb_neq. intros [? ?]%Z.lor_eq_0_iff. done.
  - apply negb_true_iff, Z.eqb_neq. intros [? ?]%Z.lor_eq_0_iff. done.
Qed.

Lemma has_zero (m : Z) : has 0 m = false.
Proof. done. Qed.

Lemma scan_categories_rest (cs : list Z) (a b : Z) :
  fold_left
    (fun '(first, first_category, other_categories) chr =>
       if first : bool
       then (false, Z.lor first_category (category chr), other_categories)
       else (false, first_category, Z.lor other_categories (category chr)))
    cs (false, a, b)
  = (false, a, fold_left (fun o chr => Z.lor o (category chr)) cs b).
Proof. revert b. induction cs as [|c cs IH]; intros b; [done|]. simpl. apply IH. Qed.

Lemma scan_categories_cons (c : Z) (cs : list Z) :
  scan_categories (c :: cs)
  = (false, category c, fold_left (fun o chr => Z.lor o (category chr)) cs 0).
Proof. unfold scan_categories. simpl. apply scan_categories_rest. Qed.

Lemma has_others (cs : list Z) (b m : Z) :
  has (fold_left (fun o chr => Z.lor o (category chr)) cs b) m
  = has b m || existsb (fun chr => has (category chr) m) cs.
Proof.
  revert b. induction cs as [|c cs IH]; intros b; simpl.
  - by rewrite orb_false_r.
  - rewrite IH, has_lor. by rewrite orb_assoc.
Qed.

Lemma lowercase_rest (f : Z → Z) (cs : list Z) (buffer : string) :
  fold_left (fun '(first, buffer) chr =>
               (false, String.append buffer
                         (utf8_encode (if first : bool then chr else f chr))))
    cs (false, buffer)
  = (false, String.append buffer (utf8_string (f <$> cs))).
Proof.
  unfold utf8_string.
  revert buffer. induction cs as [|c cs IH]; intros buffer; simpl.
  - by rewrite append_nil_r.
  - rewrite IH. by rewrite append_assoc.
Qed.

Lemma lowercase_but_first_cons (word : string) (c : Z) (cs : list Z) :
  decoder word = c :: cs →
  lowercase_but_first word = utf8_string (c :: (lowercase <$> cs)).
Proof.
  intros Hdec. unfold lowercase_but_first. rewrite Hdec. simpl.
  rewrite lowercase_rest. done.
Qed.

Lemma lowercase_all_rest (cs : list Z) (buffer : string) :
  fold_left (fun buffer chr => String.append buffer (utf8_encode (lowercase chr)))
    cs buffer
  = String.append buffer (utf8_string (lowercase <$> cs)).
Proof.
  unfold utf8_string.
  revert buffer. induction cs as [|c cs IH]; intros buffer; simpl.
  - by rewrite append_nil_r.
  - rewrite IH. by rewrite append_assoc.
Qed.

Lemma lowercase_all_string (word : string) :
  lowercase_all word = utf8_string (lowercase <$> decoder word).
Proof. unfold lowercase_all. by rewrite lowercase_all_rest. Qed.

(** C6: without subforms, for a word that is not a key of the dictionary
    and whose first code point is an uppercase or titlecase letter.
    (1) When a later code point is one too, the next form tried is the
    word with every code point but the first lowercased: its id is
    returned when it is a key, and otherwise the fully lowercased word is
    tried.  (2) When no later code point is one (as in "The"), the form
    tried is the fully lowercased word, and its id is returned when it is
    a key. *)
Theorem lookup_word_lowercased (e : embedding F) (word : string) (c : Z) (cs : list Z) :
  subform e = false →
  dictionary e !! word = None →
  decoder word = c :: cs →
  has (category c) unicode_Lut = true →
  ((∃ c', c' ∈ cs ∧ has (category c') unicode_Lut = true) →
     (∀ id, dictionary e !! utf8_string (c :: (lowercase <$> cs)) = Some id →
            lookup_word e word = (id, e))
     ∧ (dictionary e !! utf8_string (c :: (lowercase <$> cs)) = None →
        ∀ id, dictionary e !! utf8_string (lowercase <$> (c :: cs)) = Some id →
              lookup_word e word = (id, e)))
  ∧ ((∀ c', c' ∈ cs → has (category c') unicode_Lut = false) →
     ∀ id, dictionary e !! utf8_string (lowercase <$> (c :: cs)) = Some id →
           lookup_word e word = (id, e)).
Proof.
  intros Hsub Hdict Hdec Hfirst.
  assert (Hfc : first_category word = category c).
  { unfold first_category. rewrite Hdec, scan_categories_cons. done. }
  assert (Hoc : has (other_categories word) unicode_Lut
                = existsb (fun chr => has (category chr) unicode_Lut) cs).
  { unfold other_categories. rewrite Hdec, scan_categories_cons. simpl.
    rewrite has_others. done. }
  pose proof (lowercase_but_first_cons word c cs Hdec) as Hlbf.
  pose proof (lowercase_all_string word) as Hla. rewrite Hdec in Hla.
  unfold lookup_word, lookup_heuristic. rewrite Hsub, Hdict.
  rewrite Hfc, Hfirst, Hoc, Hlbf, Hla. simpl orb. simpl andb.
  split.
  - intros (c' & Hin & Hc').
    assert (Hex : existsb (fun chr => has (category chr) unicode_Lut) cs = true).
    { apply existsb_exists. exists c'. split; [by apply list_elem_of_In|done]. }
    rewrite Hex. split.
    + intros id Hid. by rewrite Hid.
    + intros Hnone id Hid. by rewrite Hnone, Hid.
  - intros Hno id Hid.
    assert (Hex : existsb (fun chr => has (category chr) unicode_Lut) cs = false).
    { apply not_true_is_false. intros (c' & Hin & Hc')%existsb_exists.
      apply list_elem_of_In in Hin. rewrite (Hno c' Hin) in Hc'. done. }
    rewrite Hex. by rewrite Hid.
Qed.
End LookupFacts.

(** ** The invariant *)

Section Invariant.
Context {F : Type} `{Scalar F} `{Unilib}.

Lemma unique_nonempty (l : list Z) : l ≠ [] → unique l ≠ [].
Proof.
  induction l as [|x l IH]; [done|]. intros _. simpl.
  destruct l as [|y l]; [done|]. case_decide; [|done]. by apply IH.
Qed.

Lemma unique_Forall (P : Z → Prop) (l : list Z) : Forall P l → Forall P (unique l).
Proof.
  induction l as [|x l IH]; [done|]. intros [Hx Hl]%Forall_cons. simpl.
  destruct l as [|y l]; [by constructor|].
  case_decide; [by apply IH|]. constructor; [done|by apply IH].
Qed.

Lemma unique_sorted (l : list Z) : StronglySorted Z.le l → StronglySorted Z.lt (unique l).
Proof.
  induction l as [|x l IH]; [constructor|].
  intros Hs. apply StronglySorted_inv in Hs as [Hl Hx]. simpl.
  destruct l as [|y l]; [repeat constructor|].
  case_decide as Hxy; [by apply IH|].
  constructor; [by apply IH|].
  apply unique_Forall.
  apply StronglySorted_inv in Hl as [_ Hy].
  apply Forall_cons in Hx as [Hxy' _].
  constructor; [lia|]. eapply Forall_impl; [exact Hy|]. simpl. intros z Hz. lia.
Qed.

Lemma sort_sorted (l : list Z) : StronglySorted Z.le (sort l).
Proof. apply StronglySorted_merge_sort; apply _. Qed.

Lemma sort_Forall (P : Z → Prop) (l : list Z) : Forall P l → Forall P (sort l).
Proof. intros Hl. unfold sort. by rewrite merge_sort_Permutation. Qed.

Lemma sort_nonempty (l : list Z) : l ≠ [] → sort l ≠ [].
Proof.
  intros Hl Hs. apply Hl. apply Permutation_nil_r.
  rewrite <- Hs. unfold sort. by rewrite merge_sort_Permutation.
Qed.

(** The ids collected by the n-gram loops are values of the dictionary. *)
Lemma subforms_at_values (dict : gmap string Z) (P : Z → Prop) k len form substr back :
  map_Forall (fun _ id => P id) dict → Forall P back →
  Forall P (subforms_at dict k len form substr back).
Proof.
  intros Hdict. revert len substr back.
  induction k as [|k IH]; intros len substr back Hback; cbn [subforms_at]; [done|].
  destruct (string_empty substr); [done|].
  apply IH. destruct (Nat.eqb len 0); [done|].
  destruct (dict !! _) eqn:Hd; [|done].
  apply Forall_app. split; [done|]. constructor; [|done]. by eapply Hdict.
Qed.

Lemma subforms_from_values (dict : gmap string Z) (P : Z → Prop) fuel form back :
  map_Forall (fun _ id => P id) dict → Forall P back →
  Forall P (subforms_from dict fuel form back).
Proof.
  intros Hdict. revert form back.
  induction fuel as [|fuel IH]; intros form back Hback; cbn [subforms_from]; [done|].
  destruct (string_empty form); [done|].
  apply IH. by apply subforms_at_values.
Qed.

Lemma subforms_of_values (dict : gmap string Z) (P : Z → Prop) word :
  map_Forall (fun _ id => P id) dict → Forall P (subforms_of dict word).
Proof. intros Hdict. by apply subforms_from_values. Qed.

(** *** The loader establishes the invariant *)

Lemma emplace_bounded (k : string) (m : gmap string Z) :
  map_Forall (fun _ id => 0 ≤ id < Z.of_nat (size m)) m →
  map_Forall (fun _ id => 0 ≤ id < Z.of_nat (size (emplace k (Z.of_nat (size m)) m)))
    (emplace k (Z.of_nat (size m)) m).
Proof.
  intros Hm. unfold emplace. destruct (m !! k) eqn:Hk; [done|].
  rewrite map_size_insert_None by done.
  apply map_Forall_insert_2; [lia|].
  eapply map_Forall_impl; [exact Hm|]. simpl. intros _ id ?. lia.
Qed.

Lemma load_dictionary_bounded (n : nat) (m m' : gmap string Z)
    (data data' : list (field F)) :
  load_dictionary n m data = Some (m', data') →
  map_Forall (fun _ id => 0 ≤ id < Z.of_nat (size m)) m →
  map_Forall (fun _ id => 0 ≤ id < Z.of_nat (size m')) m'.
Proof.
  revert m data. induction n as [|n IH]; intros m data Hload Hm; simpl in Hload.
  - by simplify_eq.
  - destruct (next_str data) as [[word data1]|]; [|done].
    eapply IH; [exact Hload|]. by apply emplace_bounded.
Qed.

Lemma next_floats_length (n : nat) (data data' : list (field F)) (ws : list F) :
  next_floats n data = Some (ws, data') → length ws = n.
Proof.
  revert data ws. induction n as [|n IH]; intros data ws Hn; simpl in Hn.
  - by simplify_eq.
  - destruct data as [|[| | |x] data]; try done.
    destruct (next_floats n data) as [[xs data1]|] eqn:Hxs; [|done].
    simplify_eq. simpl. f_equal. by eapply IH.
Qed.

Lemma resize_nil {A} (n : nat) : resize n (@nil (list A)) = replicate n [].
Proof. unfold resize. rewrite take_nil. simpl. by rewrite Nat.sub_0_r. Qed.

Lemma loaded_inv (e : embedding F) : loaded e → inv e.
Proof.
  intros (data & data' & Hload & Hdim). unfold load in Hload.
  destruct (next_4B data) as [[dim data1]|]; [|done].
  destruct (next_4B data1) as [[count data2]|]; [|done].
  destruct (load_dictionary _ _ data2) as [[dict data3]|] eqn:Hdict; [|done].
  destruct (next_1B data3) as [[unknown data4]|]; [|done].
  destruct (next_1B data4) as [[sub data5]|]; [|done].
  destruct (next_floats _ data5) as [[ws data6]|] eqn:Hws; [|done].
  destruct (Nat.eqb _ 0) eqn:Hnz; [done|].
  apply next_floats_length in Hws.
  apply load_dictionary_bounded in Hdict; [|done].
  simplify_eq. simpl in *.
  set (base := (size dict + _)%nat) in *.
  assert (Hrows : (length ws / N.to_nat dim)%nat = base).
  { rewrite Hws, Nat.mul_comm. by apply Nat.div_mul. }
  rewrite Hrows, !resize_nil.
  split; simpl; unfold composed, rows_loaded; simpl; fold base;
    rewrite ?length_replicate.
  - done.
  - destruct (unknown =? 0)%N; auto.
  - done.
  - done.
  - lia.
  - done.
  - intros id Hid. by rewrite !lookup_replicate_2.
  - intros id Hid. lia.
  - done.
  - done.
Qed.

(** *** lookup_word keeps it *)

Lemma compose_inv (e : embedding F) (word : string) (back : list Z) :
  inv e → back ≠ [] →
  Forall (fun c => 0 ≤ c < Z.of_nat (rows_loaded e)) back →
  inv (snd (compose e word back)).
Proof.
  intros [Hdim Hunk Hdict Hrows Hw Hp Hplain Hcomp Hact Hmemo] Hne Hback.
  assert (Hmono : ∀ id, composed e id → composed (snd (compose e word back)) id).
  { unfold composed, rows_loaded. simpl. intros id. rewrite length_app. simpl. lia. }
  split; simpl; unfold composed, rows_loaded in *; simpl in *;
    rewrite ?length_app, ?length_replicate; simpl.
  - done.
  - done.
  - done.
  - lia.
  - lia.
  - lia.
  - intros id Hid. destruct (Hplain id Hid) as [Hs Hpw].
    rewrite !lookup_app_l by (eapply lookup_lt_Some; eauto). done.
  - intros id Hid.
    destruct (decide (id < length (subforms e))%nat) as [Hlt|Hge].
    + destruct (Hcomp id) as (l & p & Hl & Hpl & ?); [lia|].
      exists l, p. rewrite !lookup_app_l by lia. done.
    + assert (id = length (subforms e)) as -> by lia.
      eexists _, _. split; [apply list_lookup_middle; done|].
      split; [apply list_lookup_middle; lia|].
      split; [by apply unique_nonempty, sort_nonempty|].
      split; [apply unique_sorted, sort_sorted|].
      split; [by apply unique_Forall, sort_Forall|].
      rewrite length_replicate. done.
  - eapply Forall_impl; [exact Hact|]. simpl. intros id [? ?]. lia.
  - unfold emplace. destruct (decomposed_forms e !! word) eqn:Hw'.
    + eapply map_Forall_impl; [exact Hmemo|]. simpl. intros _ id [?|[? ?]]; [by left|].
      right. lia.
    + apply map_Forall_insert_2.
      * right. rewrite Nat2Z.id. lia.
      * eapply map_Forall_impl; [exact Hmemo|]. simpl. intros _ id [?|[? ?]]; [by left|].
        right. lia.
Qed.

Lemma lookup_word_inv (e : embedding F) (word : string) :
  inv e → inv (snd (lookup_word e word)).
Proof.
  intros He. unfold lookup_word. destruct (subform e); [|done].
  unfold lookup_subform.
  destruct (decomposed_forms e !! word) eqn:Hmemo; [done|].
  assert (Hvalues : Forall (fun c => 0 ≤ c < Z.of_nat (rows_loaded e))
                      (subforms_of (dictionary e) word)).
  { apply subforms_of_values. eapply map_Forall_impl; [apply (inv_dictionary e He)|].
    simpl. unfold rows_loaded. intros _ id ?. lia. }
  case_decide as Hback.
  - destruct (unknown_index e <? 0) eqn:Hneg.
    + apply Z.ltb_lt in Hneg. destruct He. split; try done. simpl.
      unfold emplace. rewrite Hmemo. apply map_Forall_insert_2; [by left|done].
    + apply Z.ltb_ge in Hneg. apply compose_inv; [done|by destruct (subforms_of _ _)|].
      apply Forall_app. split; [done|]. constructor; [|done].
      unfold rows_loaded. destruct (inv_unknown e He) as [Hu|Hu]; [lia|].
      rewrite (proj2 (Z.leb_le _ _) Hneg). lia.
  - by apply compose_inv.
Qed.

(** *** weight and update_weights keep it *)

Lemma fold_left_length {A B} (f : list A → B → list A) (l : list B) (w : list A) :
  (∀ w x, length (f w x) = length w) → length (fold_left f l w) = length w.
Proof.
  intros Hf. revert w. induction l as [|x l IH]; intros w; [done|].
  simpl. by rewrite IH.
Qed.

Lemma for_j_length (dim : nat) (body : nat → list F → list F) (w : list F) :
  (∀ j w, length (body j w) = length w) → length (for_j dim body w) = length w.
Proof. intros Hb. unfold for_j. apply fold_left_length. intros; apply Hb. Qed.

Lemma fill_n_length (w : list F) (pos n : nat) (x : F) :
  length (fill_n w pos n x) = length w.
Proof. unfold fill_n. apply fold_left_length. intros. apply length_insert. Qed.

Lemma copy_n_length (src dst : list F) (pos n : nat) :
  length (copy_n src pos n dst) = length dst.
Proof. unfold copy_n. apply fold_left_length. intros. apply length_insert. Qed.

Lemma add_subforms_length (dim : nat) (id : Z) (subs : list Z) (w : list F) :
  length (add_subforms dim id subs w) = length w.
Proof.
  unfold add_subforms. apply fold_left_length. intros.
  apply for_j_length. intros. apply length_insert.
Qed.

Lemma materialize_weights_length (e : embedding F) (id : Z) :
  length (weights (materialize e id)) = length (weights e).
Proof.
  unfold materialize. simpl. rewrite for_j_length by (intros; apply length_insert).
  by rewrite add_subforms_length, fill_n_length.
Qed.

Lemma update_one_weights_length (e : embedding F) (id : Z) :
  length (weights (update_one e id)) = length (weights e).
Proof.
  unfold update_one, add_to_subforms. simpl. rewrite fold_left_length.
  - apply for_j_length. intros. apply length_insert.
  - intros. apply for_j_length. intros. apply length_insert.
Qed.

(** A stale slot belongs to a composed id. *)
Lemma stale_composed (e : embedding F) (id : Z) :
  inv e → 0 ≤ id → stale e id = true → composed e (Z.to_nat id).
Proof.
  intros He Hid Hstale. unfold stale in Hstale.
  apply andb_true_iff in Hstale as [Hne _].
  apply negb_true_iff, bool_decide_eq_false in Hne.
  unfold composed.
  destruct (decide (Z.to_nat id < rows_loaded e)%nat) as [Hlt|Hge].
  { destruct (inv_plain e He _ Hlt) as [_ Hp].
    rewrite (list_lookup_total_correct _ _ _ Hp) in Hne. done. }
  destruct (decide (Z.to_nat id < length (subforms e))%nat) as [Hlt'|Hge']; [lia|].
  rewrite list_lookup_total_alt, lookup_ge_None_2 in Hne; [done|].
  rewrite (inv_previous e He). lia.
Qed.

(** Replacing a cache slot by one of the same length keeps the invariant. *)
Lemma set_slot_inv (e : embedding F) (w : list F) (n : nat) (p : list F)
    (a : list Z) :
  inv e →
  length w = length (weights e) →
  length p = length (previous_weights e !!! n) →
  Forall (fun id => 0 ≤ id ∧ composed e (Z.to_nat id)) a →
  inv (Embedding (dimension e) (updatable_index e) (unknown_index e)
         (dictionary e) (subform e) w (subforms e)
         (<[n := p]> (previous_weights e)) a (decomposed_forms e)).
Proof.
  intros [Hdim Hunk Hdict Hrows Hw Hp Hplain Hcomp Hact Hmemo] Hlw Hlp Ha.
  split; simpl; unfold composed, rows_loaded in *; simpl in *;
    rewrite ?length_insert; try done.
  - lia.
  - intros id Hid. destruct (Hplain id Hid) as [Hs Hpw]. split; [done|].
    destruct (decide (n = id)) as [->|Hne].
    + rewrite (list_lookup_total_correct _ _ _ Hpw) in Hlp.
      rewrite list_lookup_insert_eq by (eapply lookup_lt_Some; eauto).
      by destruct p.
    + by rewrite list_lookup_insert_ne.
  - intros id Hid. destruct (Hcomp id Hid) as (l & q & Hl & Hq & Hne & Hs & Hf & Hlen).
    destruct (decide (n = id)) as [->|Hn].
    + exists l, p. rewrite (list_lookup_total_correct _ _ _ Hq) in Hlp.
      rewrite list_lookup_insert_eq by (eapply lookup_lt_Some; eauto).
      repeat split; try done; lia.
    + exists l, q. by rewrite list_lookup_insert_ne.
Qed.

Lemma weight_inv (e : embedding F) (id : Z) : inv e → inv (snd (weight e id)).
Proof.
  intros He. unfold weight.
  destruct (_ || _) eqn:Hguard; [done|]. simpl.
  apply orb_false_iff in Hguard as [Hneg _]. apply Z.ltb_ge in Hneg.
  destruct (subform e); [|done].
  destruct (stale e id) eqn:Hstale; [|done].
  pose proof (stale_composed e id He Hneg Hstale) as Hcomp.
  unfold materialize.
  apply (set_slot_inv e); [done| | |].
  - apply (materialize_weights_length e id).
  - by rewrite length_insert, copy_n_length.
  - apply Forall_app. split; [apply (inv_active e He)|]. by constructor.
Qed.

Lemma update_one_inv (e : embedding F) (id : Z) : inv e → inv (update_one e id).
Proof.
  intros He. unfold update_one.
  apply (set_slot_inv e); [done| | |].
  - apply (update_one_weights_length e id).
  - by rewrite length_insert.
  - apply (inv_active e He).
Qed.

Lemma update_weights_inv (e : embedding F) : inv e → inv (update_weights e).
Proof.
  intros He. unfold update_weights. destruct (subform e); [|done].
  assert (Hfold : inv (fold_left update_one (active_subforms e) e)).
  { generalize (active_subforms e). intros l. revert e He.
    induction l as [|id l IH]; intros e He; [done|]. simpl.
    by apply IH, update_one_inv. }
  destruct Hfold. split; done.
Qed.

Lemma step_inv (e : embedding F) (o : op F) : inv e → inv (step e o).
Proof.
  intros He. destruct o as [word|id| |pos x]; simpl.
  - by apply lookup_word_inv.
  - by apply weight_inv.
  - by apply update_weights_inv.
  - destruct He. split; try done. simpl. by rewrite length_insert.
Qed.

Lemma run_inv (ops : list (op F)) (e : embedding F) : inv e → inv (run ops e).
Proof.
  revert e. induction ops as [|o ops IH]; intros e He; [done|].
  simpl. by apply IH, step_inv.
Qed.

Lemma reachable_inv (e : embedding F) : reachable e → inv e.
Proof. intros (e0 & ops & Hload & ->). by apply run_inv, loaded_inv. Qed.

(** *** Subform lists *)

Lemma step_subforms_prefix (e : embedding F) (o : op F) :
  subforms e `prefix_of` subforms (step e o).
Proof.
  destruct o as [word|id| |pos x]; simpl.
  - unfold lookup_word. destruct (subform e); [|done].
    unfold lookup_subform. destruct (decomposed_forms e !! word); [done|].
    repeat case_decide; repeat case_match; simpl; try done;
      by apply prefix_app_r.
  - unfold weight. repeat case_match; done.
  - unfold update_weights. destruct (subform e); [|done]. simpl.
    generalize (active_subforms e). intros l.
    assert (Hgen : ∀ e1, subforms (fold_left update_one l e1) = subforms e1).
    { induction l as [|a l IH]; intros e1; [done|]. simpl. by rewrite IH. }
    by rewrite Hgen.
  - done.
Qed.



Lemma sorted_lt_NoDup (l : list Z) : StronglySorted Z.lt l → NoDup l.
Proof.
  induction 1 as [|x l Hs IH Hx]; constructor; [|done].
  intros Hin. eapply Forall_forall in Hx; [|exact Hin]. lia.
Qed.


(** What [load] fixed stays fixed. *)
Lemma step_keeps_dictionary (e : embedding F) (o : op F) :
  dictionary (step e o) = dictionary e
  ∧ unknown_index (step e o) = unknown_index e
  ∧ dimension (step e o) = dimension e.
Proof.
  destruct o as [word|id| |pos x]; simpl.
  - unfold lookup_word. destruct (subform e); [|done].
    unfold lookup_subform. repeat case_match; done.
  - unfold weight. repeat case_match; done.
  - unfold update_weights. destruct (subform e); [|done]. simpl.
    generalize (active_subforms e). intros l. revert e.
    induction l as [|a l IH]; intros e; [done|]. simpl.
    destruct (IH (update_one e a)) as (-> & -> & ->). done.
  - done.
Qed.

Lemma step_rows_loaded (e : embedding F) (o : op F) :
  rows_loaded (step e o) = rows_loaded e.
Proof.
  unfold rows_loaded.
  destruct (step_keeps_dictionary e o) as (-> & -> & _). done.
Qed.

Lemma run_rows_loaded (ops : list (op F)) (e : embedding F) :
  rows_loaded (run ops e) = rows_loaded e.
Proof.
  revert e. induction ops as [|o ops IH]; intros e; [done|]. simpl.
  by rewrite IH, step_rows_loaded.
Qed.

Lemma inv_rows_eq (e : embedding F) : inv e → rows e = length (subforms e).
Proof.
  intros He. unfold rows. rewrite (inv_weights e He).
  apply Nat.div_mul. apply (inv_dimension e He).
Qed.

(** The assertions of lines 61 and 62: when [lookup_word] composes an id,
    the number of rows and the number of cache slots are that id. *)
Lemma compose_asserts (e : embedding F) (word : string) (back : list Z) :
  inv e →
  Z.of_nat (rows e) = fst (compose e word back)
  ∧ Z.of_nat (length (previous_weights e)) = fst (compose e word back).
Proof.
  intros He. simpl. by rewrite (inv_rows_eq e He), (inv_previous e He).
Qed.

Lemma loaded_rows (e : embedding F) : loaded e → rows e = rows_loaded e.
Proof.
  intros (data & data' & Hload & Hdim). unfold load in Hload.
  destruct (next_4B data) as [[dim data1]|]; [|done].
  destruct (next_4B data1) as [[count data2]|]; [|done].
  destruct (load_dictionary _ _ data2) as [[dict data3]|] eqn:Hdict; [|done].
  destruct (next_1B data3) as [[unknown data4]|]; [|done].
  destruct (next_1B data4) as [[sub data5]|]; [|done].
  destruct (next_floats _ data5) as [[ws data6]|] eqn:Hws; [|done].
  destruct (Nat.eqb _ 0) eqn:Hnz; [done|].
  apply next_floats_length in Hws. simplify_eq. simpl in *.
  unfold rows, rows_loaded. simpl. rewrite Hws, Nat.mul_comm. by apply Nat.div_mul.
Qed.

(** C10: in every state [run ops e0] that a loaded object [e0] reaches,
    every id in a subform list is the id of a row read by [load] (it is
    below the size of the dictionary plus one for the unknown row, which
    is the number of rows of [e0]); such an id is not composed, it has
    neither subforms nor a cache slot, and fetching its row changes
    nothing. *)
Theorem subforms_are_loaded_rows (e0 : embedding F) (ops : list (op F))
    (id : nat) (l : list Z) (c : Z) :
  loaded e0 →
  subforms (run ops e0) !! id = Some l → c ∈ l →
  0 ≤ c < Z.of_nat (rows e0)
  ∧ rows e0 = rows_loaded (run ops e0)
  ∧ ¬ composed (run ops e0) (Z.to_nat c)
  ∧ subforms (run ops e0) !! Z.to_nat c = Some []
  ∧ previous_weights (run ops e0) !! Z.to_nat c = Some []
  ∧ snd (weight (run ops e0) c) = run ops e0.
Proof.
  intros Hload Hl Hc.
  pose proof (loaded_rows e0 Hload) as Hrows.
  assert (He : inv (run ops e0)) by by apply run_inv, loaded_inv.
  rewrite Hrows, <- (run_rows_loaded ops e0).
  set (e := run ops e0) in *.
  assert (Hrange : 0 ≤ c < Z.of_nat (rows_loaded e)).
  { destruct (decide (id < rows_loaded e)%nat) as [Hlt|Hge].
    - destruct (inv_plain e He id Hlt) as [Hs _]. rewrite Hs in Hl.
      simplify_eq. by apply elem_of_nil in Hc.
    - destruct (inv_composed e He id) as (l' & p & Hl' & _ & _ & _ & Hf & _).
      { split; [lia|]. by eapply lookup_lt_Some. }
      rewrite Hl in Hl'. simplify_eq.
      by eapply Forall_forall in Hf. }
  destruct (inv_plain e He (Z.to_nat c)) as [Hs Hp]; [lia|].
  repeat split; try done; try lia.
  - unfold composed. lia.
  - unfold weight. destruct (_ || _); [done|]. simpl.
    destruct (subform e); [|done].
    unfold stale. rewrite (list_lookup_total_correct _ _ _ Hp). done.
Qed.
End Invariant.

(** ** The memo of decomposed forms *)

Section MemoFacts.
Context {F : Type} `{Scalar F} `{Unilib}.






(** In subform mode a lookup returns the negative unknown index or an id
    that is not the id of a loaded row. *)
Lemma lookup_subform_id (e : embedding F) (word : string) :
  inv e →
  fst (lookup_subform e word) = unknown_index e ∧ unknown_index e < 0
  ∨ Z.of_nat (rows_loaded e) ≤ fst (lookup_subform e word).
Proof.
  intros He. unfold lookup_subform.
  destruct (decomposed_forms e !! word) as [id|] eqn:Hmemo.
  - apply (inv_memo e He) in Hmemo as [[-> ?]|[? [? _]]]; [by left|right].
    simpl. lia.
  - pose proof (inv_rows e He) as Hrows.
    case_decide; [destruct (unknown_index e <? 0) eqn:Hneg|].
    + apply Z.ltb_lt in Hneg. by left.
    + right. simpl. lia.
    + right. simpl. lia.
Qed.

(** C1, as amended: a word that is a key of the dictionary resolves to its
    dictionary id when the object is not in subform mode, whatever the
    heuristics would do, and the object is left as it was.  In subform
    mode (of an object that satisfies the invariant of loaded objects) it
    does not: the lookup returns the negative unknown index or the id of
    a composed row. *)
Theorem lookup_word_verbatim (e : embedding F) (word : string) (id : Z) :
  dictionary e !! word = Some id →
  (subform e = false → lookup_word e word = (id, e))
  ∧ (subform e = true → inv e →
     fst (lookup_word e word) ≠ id
     ∧ (fst (lookup_word e word) = unknown_index e ∧ unknown_index e < 0
        ∨ Z.of_nat (rows_loaded e) ≤ fst (lookup_word e word))).
Proof.
  intros Hdict. split.
  - intros Hsub. unfold lookup_word, lookup_heuristic.
    rewrite Hsub, Hdict. reflexivity.
  - intros Hsub He. unfold lookup_word. rewrite Hsub.
    pose proof (lookup_subform_id e word He) as Hid.
    split; [|exact Hid].
    apply (inv_dictionary e He) in Hdict. unfold rows_loaded in Hid.
    destruct Hid as [[Hu Hneg]|Hge]; lia.
Qed.

End MemoFacts.

(** ** The loader *)

Section LoadFacts.
Context {F : Type}.

Lemma next_floats_spec (n : nat) (data data' : list (field F)) (ws : list F) :
  next_floats n data = Some (ws, data')
  ↔ length ws = n ∧ data = (FieldFloat <$> ws) ++ data'.
Proof.
  revert data ws. induction n as [|n IH]; intros data ws; simpl.
  - split.
    + intros [= <- <-]. done.
    + intros [Hl ->]. by destruct ws.
  - split.
    + destruct data as [|[| | |x] data]; try done.
      destruct (next_floats n data) as [[xs data1]|] eqn:Hxs; [|done].
      intros [= <- <-]. apply IH in Hxs as [<- ->]. done.
    + intros [Hl ->]. destruct ws as [|x ws]; [done|]. simpl.
      rewrite (proj2 (IH _ ws)); [done|]. split; [|done]. simpl in Hl. lia.
Qed.

Lemma load_dictionary_spec (n : nat) (m m' : gmap string Z)
    (data data' : list (field F)) :
  load_dictionary n m data = Some (m', data')
  ↔ ∃ words, length words = n ∧ data = (FieldStr <$> words) ++ data'
             ∧ m' = fold_left (fun m word => emplace word (Z.of_nat (size m)) m) words m.
Proof.
  revert m data. induction n as [|n IH]; intros m data; simpl.
  - split.
    + intros [= <- <-]. by exists [].
    + intros (words & Hl & -> & ->). by destruct words.
  - split.
    + destruct data as [|[| |word|] data]; try done. simpl.
      intros (words & <- & -> & ->)%IH. by exists (word :: words).
    + intros (words & Hl & -> & ->). destruct words as [|word words]; [done|].
      simpl. apply IH. exists words. split; [|done]. simpl in Hl. lia.
Qed.

Lemma dom_emplace (k : string) (v : Z) (m : gmap string Z) :
  dom (emplace k v m) = {[k]} ∪ dom m.
Proof.
  unfold emplace. destruct (m !! k) eqn:Hk.
  - apply elem_of_dom_2 in Hk. symmetry. apply subseteq_union_1_L.
    by apply singleton_subseteq_l.
  - by rewrite dom_insert_L.
Qed.

Lemma dictionary_from_dom (words : list string) (m : gmap string Z) :
  dom (fold_left (fun m word => emplace word (Z.of_nat (size m)) m) words m)
  = list_to_set words ∪ dom m.
Proof.
  revert m. induction words as [|word words IH]; intros m; simpl.
  - by rewrite (left_id_L ∅ (∪)).
  - rewrite IH, dom_emplace.
    by rewrite (assoc_L (∪)), (comm_L (∪) (list_to_set words)).
Qed.

Lemma dictionary_of_dom (words : list string) :
  dom (dictionary_of words) = list_to_set words.
Proof.
  unfold dictionary_of. rewrite dictionary_from_dom, dom_empty_L.
  by rewrite (right_id_L ∅ (∪)).
Qed.

Lemma dictionary_of_size (words : list string) :
  size (dictionary_of words) = distinct words.
Proof. unfold distinct. by rewrite <- dictionary_of_dom, size_dom. Qed.

Lemma dictionary_from_keeps (words : list string) (m : gmap string Z) word id :
  m !! word = Some id →
  fold_left (fun m word => emplace word (Z.of_nat (size m)) m) words m !! word = Some id.
Proof.
  revert m. induction words as [|w words IH]; intros m Hm; [done|].
  simpl. apply IH. by apply emplace_lookup_keeps.
Qed.

Lemma dictionary_of_app (pre post : list string) :
  dictionary_of (pre ++ post)
  = fold_left (fun m word => emplace word (Z.of_nat (size m)) m) post (dictionary_of pre).
Proof. unfold dictionary_of. by rewrite fold_left_app. Qed.

(** A word gets, where it first occurs, the number of distinct words read
    before it. *)
Lemma dictionary_of_first (pre post : list string) (word : string) :
  word ∉ pre →
  dictionary_of (pre ++ word :: post) !! word = Some (Z.of_nat (distinct pre)).
Proof.
  intros Hpre. rewrite dictionary_of_app. simpl.
  apply dictionary_from_keeps. rewrite dictionary_of_size.
  apply emplace_lookup_same. apply not_elem_of_dom.
  rewrite dictionary_of_dom. by rewrite elem_of_list_to_set.
Qed.

Lemma distinct_NoDup (words : list string) : NoDup words → distinct words = length words.
Proof. intros Hnd. unfold distinct. by apply size_list_to_set. Qed.

Lemma dictionary_of_NoDup (words : list string) (i : nat) (word : string) :
  NoDup words → words !! i = Some word →
  dictionary_of words !! word = Some (Z.of_nat i).
Proof.
  intros Hnd Hi.
  pose proof (take_drop_middle words i word Hi) as Hsplit.
  rewrite <- Hsplit in Hnd |- *.
  apply NoDup_app in Hnd as (Hpre & Hnot & _).
  rewrite dictionary_of_first.
  - rewrite distinct_NoDup by done. rewrite length_take.
    apply lookup_lt_Some in Hi. do 2 f_equal. lia.
  - intros Hin. apply (Hnot word Hin). left.
Qed.

Lemma unknown_row (unknown : N) (n : nat) :
  (if 0 <=? (if (unknown =? 0)%N then -1 else Z.of_nat n) then 1%nat else 0%nat)
  = (if (unknown =? 0)%N then 0%nat else 1%nat).
Proof.
  destruct (unknown =? 0)%N; [done|].
  by rewrite (proj2 (Z.leb_le 0 (Z.of_nat n))) by lia.
Qed.

(** C5, as amended.  [load] on a new object succeeds exactly on the
    streams made of a non-zero 4-byte dimension, a 4-byte count, that
    many strings, a 1-byte unknown flag, a 1-byte subform flag and
    [dimension * (D + has_unknown)] floats, where [D] is the number of
    distinct words; it reads nothing after them ([data'] is what is left)
    and stores the floats as the weights in read order.  On a stream whose
    dimension is zero it does not return (line 187 divides by zero).  A
    word gets, where it first occurs, the number of distinct words read
    before it as its id, so the ids are the positions [0 .. count - 1]
    when the words are pairwise distinct, and then [D] is the count.  The
    unknown index is [D] when the flag is set.  The subform lists and the
    cache slots are [D + has_unknown] empty vectors. *)
Theorem load_consumes (data data' : list (field F)) (e : embedding F) :
  (load embedding_new data = Some (e, data')
   ↔ ∃ dim count words unknown sub ws,
       data = stream dim count words unknown sub ws data'
       ∧ N.to_nat dim ≠ 0%nat
       ∧ length words = N.to_nat count
       ∧ length ws = (N.to_nat dim
                      * (distinct words + (if (unknown =? 0)%N then 0 else 1)))%nat
       ∧ e = loaded_from dim words unknown sub ws)
  ∧ (∀ count words unknown sub (ws : list F) rest,
       load embedding_new (stream 0 count words unknown sub ws rest) = None)
  ∧ ∀ dim words unknown sub (ws : list F),
      let e := loaded_from dim words unknown sub ws in
      let rows := (distinct words + (if (unknown =? 0)%N then 0 else 1))%nat in
      N.to_nat dim ≠ 0%nat →
      length ws = (N.to_nat dim * rows)%nat →
      dimension e = N.to_nat dim
      ∧ subform e = negb (sub =? 0)%N
      ∧ weights e = ws
      ∧ unknown_index e = (if (unknown =? 0)%N then -1 else Z.of_nat (distinct words))
      ∧ (∀ pre word post, words = pre ++ word :: post → word ∉ pre →
           dictionary e !! word = Some (Z.of_nat (distinct pre)))
      ∧ (NoDup words →
           distinct words = length words
           ∧ ∀ i word, words !! i = Some word → dictionary e !! word = Some (Z.of_nat i))
      ∧ subforms e = replicate rows [] ∧ previous_weights e = replicate rows [].
Proof.
  assert (Hforward : ∀ (data data' : list (field F)) (e : embedding F),
    load embedding_new data = Some (e, data') →
    ∃ dim count words unknown sub (ws : list F),
      data = stream dim count words unknown sub ws data'
      ∧ N.to_nat dim ≠ 0%nat
      ∧ length words = N.to_nat count
      ∧ length ws = (N.to_nat dim
                     * (distinct words + (if (unknown =? 0)%N then 0 else 1)))%nat
      ∧ e = loaded_from dim words unknown sub ws).
  { clear data data' e. intros data data' e. unfold load, stream.
    destruct data as [|[dim| | |] data]; try done. simpl.
    destruct data as [|[count| | |] data]; try done. simpl.
    destruct (load_dictionary _ _ data) as [[dict data3]|] eqn:Hdict; [|done].
    apply load_dictionary_spec in Hdict as (words & Hwords & -> & ->).
    destruct data3 as [|[|unknown| |] data3]; try done. simpl.
    destruct data3 as [|[|sub| |] data3]; try done. simpl.
    destruct (next_floats _ data3) as [[ws data6]|] eqn:Hws; [|done].
    destruct (Nat.eqb_spec (N.to_nat dim) 0) as [|Hnz]; [done|].
    apply next_floats_spec in Hws as (Hlen & ->).
    intros [= <- <-].
    exists dim, count, words, unknown, sub, ws.
    fold (dictionary_of words) in *.
    rewrite unknown_row, dictionary_of_size in Hlen.
    split; [done|]. split; [done|]. split; [done|]. split; [done|].
    unfold loaded_from. by rewrite !resize_nil. }
  split; [|split].
  - split; [apply Hforward|].
    intros (dim & count & words & unknown & sub & ws & -> & Hnz & Hwords & Hlen & ->).
    unfold load, stream. simpl.
    rewrite (proj2 (load_dictionary_spec _ ∅ (dictionary_of words) _
                      (Field1B unknown :: Field1B sub :: (FieldFloat <$> ws) ++ data'))).
    2:{ exists words. done. }
    simpl. rewrite unknown_row, dictionary_of_size.
    rewrite (proj2 (next_floats_spec _ _ data' ws)) by done.
    destruct (Nat.eqb_spec (N.to_nat dim) 0) as [|_]; [done|].
    unfold loaded_from. by rewrite !resize_nil, !dictionary_of_size.
  - intros count words unknown sub ws rest.
    destruct (load embedding_new _) as [[e0 rest0]|] eqn:Hload; [|done].
    apply Hforward in Hload as (dim & ? & ? & ? & ? & ? & Heq & Hnz & _).
    unfold stream in Heq. injection Heq as <-. done.
  - intros dim words unknown sub ws e0 rows Hnz Hlen. unfold e0, loaded_from. simpl.
    rewrite dictionary_of_size.
    repeat split.
    + intros pre word post -> Hpre. by apply dictionary_of_first.
    + by apply distinct_NoDup.
    + intros i word Hi. by apply dictionary_of_NoDup.
    + rewrite Hlen, Nat.mul_comm, Nat.div_mul by done. done.
    + rewrite Hlen, Nat.mul_comm, Nat.div_mul by done. done.
Qed.
End LoadFacts.

(** ** Materialisation *)

Section WeightFacts.
Context {F : Type} `{Scalar F} `{Unilib}.

(** *** Loops over a row *)

Lemma for_j_S (dim : nat) (body : nat → list F → list F) (w : list F) :
  for_j (S dim) body w = body dim (for_j dim body w).
Proof. unfold for_j. by rewrite seq_S, fold_left_app. Qed.

Lemma for_j_ext (dim : nat) (body1 body2 : nat → list F → list F) (w : list F) :
  (∀ j w, (j < dim)%nat → body1 j w = body2 j w) →
  for_j dim body1 w = for_j dim body2 w.
Proof.
  intros Hext. induction dim as [|dim IH]; [done|].
  rewrite !for_j_S, IH by (intros; apply Hext; lia). apply Hext. lia.
Qed.

(** A loop that writes the cells [t .. t + dim) in order, the value
    written to [t + j] not depending on the cells written before. *)
Lemma for_j_lookup (dim t : nat) (g : nat → list F → F) (w : list F) :
  (t + dim ≤ length w)%nat →
  (∀ j w', (j < dim)%nat → length w' = length w →
     (∀ k, (k < t ∨ t + j ≤ k)%nat → w' !!! k = w !!! k) → g j w' = g j w) →
  length (for_j dim (fun j w => <[(t + j)%nat := g j w]> w) w) = length w
  ∧ ∀ k, for_j dim (fun j w => <[(t + j)%nat := g j w]> w) w !!! k
         = if decide (t ≤ k < t + dim)%nat then g (k - t)%nat w else w !!! k.
Proof.
  intros Hlen Hg. induction dim as [|dim IH].
  - split; [done|]. intros k. by rewrite decide_False by lia.
  - destruct IH as [IHlen IHk]; [lia|intros; apply Hg; [lia|done..]|].
    rewrite for_j_S. set (w' := for_j dim _ w) in *.
    assert (Hgd : g dim w' = g dim w).
    { apply Hg; [lia|done|]. intros k Hk. rewrite IHk.
      by rewrite decide_False by lia. }
    split; [by rewrite length_insert|].
    intros k. destruct (decide (k = t + dim)%nat) as [->|Hne].
    + rewrite list_lookup_total_insert_eq by lia.
      rewrite decide_True by lia. rewrite Hgd. f_equal. lia.
    + rewrite list_lookup_total_insert_ne by lia. rewrite IHk.
      repeat case_decide; try lia; done.
Qed.

Lemma fill_n_lookup (w : list F) (pos n : nat) (x : F) (k : nat) :
  (pos + n ≤ length w)%nat →
  fill_n w pos n x !!! k = if decide (pos ≤ k < pos + n)%nat then x else w !!! k.
Proof.
  intros Hlen.
  by destruct (for_j_lookup n pos (fun _ _ => x) w Hlen) as [_ ->].
Qed.

Lemma copy_n_lookup (src dst : list F) (pos n : nat) (k : nat) :
  (n ≤ length dst)%nat →
  copy_n src pos n dst !!! k
  = if decide (k < n)%nat then src !!! (pos + k)%nat else dst !!! k.
Proof.
  intros Hlen.
  destruct (for_j_lookup n 0 (fun j _ => src !!! (pos + j)%nat) dst) as [_ Hk];
    [done|done|].
  unfold copy_n. unfold for_j in Hk. simpl in Hk. rewrite Hk.
  repeat case_decide; try lia; [|done]. by rewrite Nat.sub_0_r.
Qed.

(** *** Indices without wrap-around *)

Lemma idx_small (dim : nat) (id : Z) (j : nat) :
  0 ≤ id → id * Z.of_nat dim + Z.of_nat j < 2 ^ 32 →
  idx dim id j = (Z.to_nat id * dim + j)%nat.
Proof.
  intros Hid Hlt. unfold idx, uint32. rewrite Z.mod_small by lia. lia.
Qed.

Lemma offset_small (dim : nat) (id : Z) :
  0 ≤ id → id * Z.of_nat dim < 2 ^ 32 →
  Z.to_nat (offset dim id) = (Z.to_nat id * dim)%nat.
Proof.
  intros Hid Hlt. unfold offset, uint32. rewrite Z.mod_small by lia. lia.
Qed.

Lemma idx_row (dim : nat) (id : Z) (j n : nat) :
  0 ≤ id → (Z.to_nat id * dim + dim ≤ n)%nat → Z.of_nat n ≤ 2 ^ 32 →
  (j < dim)%nat → idx dim id j = (Z.to_nat id * dim + j)%nat.
Proof. intros Hid Hrow Hn Hj. apply idx_small; [done|]. nia. Qed.

Lemma cell_in_row (dim r r' j : nat) :
  (j < dim)%nat → (r * dim ≤ r' * dim + j < r * dim + dim)%nat ↔ r' = r.
Proof. intros Hj. split; [|intros ->; lia]. intros [H1 H2]. nia. Qed.

Lemma fold_left_ext_in {A B} (f g : A → B → A) (l : list B) (a : A) :
  (∀ x acc, x ∈ l → f acc x = g acc x) → fold_left f l a = fold_left g l a.
Proof.
  revert a. induction l as [|x l IH]; intros a Hfg; [done|]. simpl.
  rewrite Hfg by left. apply IH. intros y acc Hy. apply Hfg. by right.
Qed.

(** [weights[t * dim + j] = h (weights[t * dim + j]) (weights[s * dim + j])]
    for every [j], the rows [t] and [s] being different rows of [w]. *)
Lemma row_update_lookup (dim : nat) (idt ids : Z) (h : nat → F → F → F) (w : list F) :
  0 ≤ idt → 0 ≤ ids → Z.to_nat idt ≠ Z.to_nat ids →
  (Z.to_nat idt * dim + dim ≤ length w)%nat →
  (Z.to_nat ids * dim + dim ≤ length w)%nat →
  Z.of_nat (length w) ≤ 2 ^ 32 →
  let w' := for_j dim (fun j w =>
              <[idx dim idt j := h j (w !!! idx dim idt j) (w !!! idx dim ids j)]> w) w in
  length w' = length w
  ∧ ∀ r j, (j < dim)%nat →
      w' !!! (r * dim + j)%nat
      = if decide (r = Z.to_nat idt)
        then h j (w !!! (r * dim + j)%nat) (w !!! (Z.to_nat ids * dim + j)%nat)
        else w !!! (r * dim + j)%nat.
Proof.
  intros Ht Hs Hts Hrt Hrs Hn w'.
  set (t := (Z.to_nat idt * dim)%nat). set (s := (Z.to_nat ids * dim)%nat).
  assert (Hw' : w' = for_j dim (fun j w =>
            <[(t + j)%nat := h j (w !!! (t + j)%nat) (w !!! (s + j)%nat)]> w) w).
  { apply for_j_ext. intros j w0 Hj.
    by rewrite (idx_row dim idt j (length w)), (idx_row dim ids j (length w)). }
  destruct (for_j_lookup dim t
              (fun j w => h j (w !!! (t + j)%nat) (w !!! (s + j)%nat)) w)
    as [Hlen Hk].
  { unfold t. lia. }
  { intros j w0 Hj _ Hsame.
    rewrite (Hsame (t + j)%nat) by lia. rewrite (Hsame (s + j)%nat); [done|].
    unfold t, s.
    destruct (decide (Z.to_nat ids < Z.to_nat idt)%nat); [left|right]; nia. }
  rewrite Hw'. split; [done|]. intros r j Hj. rewrite Hk.
  destruct (decide (r = Z.to_nat idt)) as [->|Hr].
  - rewrite decide_True by (unfold t; lia).
    replace (Z.to_nat idt * dim + j - t)%nat with j by (unfold t; lia). done.
  - rewrite decide_False; [done|]. unfold t. intros Hin.
    apply cell_in_row in Hin; done.
Qed.

(** The same for a loop that reads only the cell it writes. *)
Lemma row_map_lookup (dim : nat) (idt : Z) (h : nat → F → F) (w : list F) :
  0 ≤ idt →
  (Z.to_nat idt * dim + dim ≤ length w)%nat →
  Z.of_nat (length w) ≤ 2 ^ 32 →
  let w' := for_j dim (fun j w => <[idx dim idt j := h j (w !!! idx dim idt j)]> w) w in
  length w' = length w
  ∧ ∀ r j, (j < dim)%nat →
      w' !!! (r * dim + j)%nat
      = if decide (r = Z.to_nat idt)
        then h j (w !!! (r * dim + j)%nat)
        else w !!! (r * dim + j)%nat.
Proof.
  intros Ht Hrt Hn w'.
  set (t := (Z.to_nat idt * dim)%nat).
  assert (Hw' : w' = for_j dim (fun j w =>
            <[(t + j)%nat := h j (w !!! (t + j)%nat)]> w) w).
  { apply for_j_ext. intros j w0 Hj.
    by rewrite (idx_row dim idt j (length w)). }
  destruct (for_j_lookup dim t (fun j w => h j (w !!! (t + j)%nat)) w)
    as [Hlen Hk].
  { unfold t. lia. }
  { intros j w0 Hj _ Hsame. rewrite (Hsame (t + j)%nat) by lia. done. }
  rewrite Hw'. split; [done|]. intros r j Hj. rewrite Hk.
  destruct (decide (r = Z.to_nat idt)) as [->|Hr].
  - rewrite decide_True by (unfold t; lia).
    replace (Z.to_nat idt * dim + j - t)%nat with j by (unfold t; lia). done.
  - rewrite decide_False; [done|]. unfold t. intros Hin.
    apply cell_in_row in Hin; done.
Qed.

Lemma add_subforms_cons (dim : nat) (id c : Z) (subs : list Z) (w : list F) :
  add_subforms dim id (c :: subs) w
  = add_subforms dim id subs
      (for_j dim (fun j w =>
         <[idx dim id j := fadd (w !!! idx dim id j) (w !!! idx dim c j)]> w) w).
Proof. reflexivity. Qed.

(** Lines 132-134: the rows of the subforms are added to the row of
    [id], which is none of them. *)
Lemma add_subforms_lookup (dim : nat) (id : Z) (subs : list Z) (w : list F) :
  0 ≤ id →
  (Z.to_nat id * dim + dim ≤ length w)%nat →
  Z.of_nat (length w) ≤ 2 ^ 32 →
  Forall (fun c => 0 ≤ c ∧ Z.to_nat c ≠ Z.to_nat id
                   ∧ (Z.to_nat c * dim + dim ≤ length w)%nat) subs →
  ∀ r j, (j < dim)%nat →
    add_subforms dim id subs w !!! (r * dim + j)%nat
    = if decide (r = Z.to_nat id)
      then fold_left (fun acc c => fadd acc (w !!! (Z.to_nat c * dim + j)%nat))
             subs (w !!! (r * dim + j)%nat)
      else w !!! (r * dim + j)%nat.
Proof.
  intros Hid Hrow Hn Hsubs. revert w Hrow Hn Hsubs.
  induction subs as [|c subs IH]; intros w Hrow Hn Hsubs r j Hj.
  - simpl. by case_decide.
  - apply Forall_cons in Hsubs as [(Hc & Hne & Hcrow) Hsubs].
    rewrite add_subforms_cons.
    destruct (row_update_lookup dim id c (fun _ => fadd) w) as [Hlen Hk];
      [done..|lia|done|done|done|].
    rewrite IH; [|lia|lia| |done].
    2:{ eapply Forall_impl; [exact Hsubs|]. simpl. intros c' ?. lia. }
    destruct (decide (r = Z.to_nat id)) as [->|Hr].
    + rewrite Hk by done. rewrite decide_True by done. simpl.
      apply fold_left_ext_in. intros c' acc Hc'.
      eapply Forall_forall in Hsubs as (? & ? & ?); [|exact Hc'].
      rewrite Hk by done. by rewrite decide_False by done.
    + rewrite Hk by done. by rewrite decide_False by done.
Qed.

(** *** Rows *)

Lemma list_eq_total (l1 l2 : list F) :
  length l1 = length l2 →
  (∀ i, (i < length l1)%nat → l1 !!! i = l2 !!! i) → l1 = l2.
Proof.
  intros Hlen Hi. apply (list_eq_same_length _ _ (length l1)); [done..|].
  intros i x y Hlt Hx Hy. specialize (Hi i Hlt).
  by rewrite (list_lookup_total_correct _ _ _ Hx),
    (list_lookup_total_correct _ _ _ Hy) in Hi.
Qed.

Lemma row_at_length (e : embedding F) (pos : nat) :
  (pos + dimension e ≤ length (weights e))%nat →
  length (row_at e pos) = dimension e.
Proof. intros Hpos. unfold row_at. rewrite length_take, length_drop. lia. Qed.

Lemma row_at_lookup (e : embedding F) (pos j : nat) :
  (j < dimension e)%nat → row_at e pos !!! j = weights e !!! (pos + j)%nat.
Proof.
  intros Hj. unfold row_at. by rewrite lookup_total_take_lt, lookup_total_drop.
Qed.

Lemma sum_rows_from (dim : nat) (rs : list (list F)) (acc : list F) :
  length acc = dim → Forall (fun r => length r = dim) rs →
  length (fold_left (zip_with fadd) rs acc) = dim
  ∧ ∀ j, (j < dim)%nat →
      fold_left (zip_with fadd) rs acc !!! j
      = fold_left (fun a r => fadd a (r !!! j)) rs (acc !!! j).
Proof.
  intros Hacc Hrs. revert acc Hacc.
  induction Hrs as [|r rs Hr Hrs IH]; intros acc Hacc; [done|]. simpl.
  destruct (IH (zip_with fadd acc r)) as [Hlen Hj].
  { rewrite length_zip_with. lia. }
  split; [done|]. intros j Hlt. rewrite Hj by done.
  by rewrite (@lookup_total_zip_with _ _ _ fadd _ _ _) by lia.
Qed.

Lemma normalized_exact (n : nat) (r : list F) :
  exact_division → normalized n r = (fun s => fdiv s (of_size n)) <$> r.
Proof. intros Hdiv. unfold normalized. apply list_fmap_ext. intros _ s _. apply Hdiv. Qed.

Lemma mean_computed_exact (dim : nat) (rs : list (list F)) :
  exact_division → mean_computed dim rs = mean_rows dim rs.
Proof. intros Hdiv. unfold mean_computed, mean_rows. by apply normalized_exact. Qed.

Lemma delta_computed_exact (e : embedding F) (id : nat) :
  exact_division → delta_computed e id = delta e id.
Proof. intros Hdiv. unfold delta_computed, delta. by apply normalized_exact. Qed.

Lemma mean_computed_length (dim : nat) (rs : list (list F)) :
  Forall (fun r => length r = dim) rs → length (mean_computed dim rs) = dim.
Proof.
  intros Hrs. unfold mean_computed, normalized, sum_rows. rewrite length_fmap.
  apply sum_rows_from; [apply length_replicate|done].
Qed.

Lemma mean_computed_lookup (dim : nat) (rs : list (list F)) (j : nat) :
  Forall (fun r => length r = dim) rs → (j < dim)%nat →
  mean_computed dim rs !!! j
  = fmul (fold_left (fun a r => fadd a (r !!! j)) rs f0)
      (fdiv f1 (of_size (length rs))).
Proof.
  intros Hrs Hj. unfold mean_computed, normalized, sum_rows.
  destruct (sum_rows_from dim rs (replicate dim f0)) as [Hlen Hsum];
    [apply length_replicate|done|].
  rewrite (@list_lookup_total_fmap _ _ _ _ _) by lia. rewrite Hsum by done.
  by rewrite lookup_total_replicate_2.
Qed.

Lemma fold_left_fmap {A B C} (f : A → C → A) (g : B → C) (l : list B) (a : A) :
  fold_left f (g <$> l) a = fold_left (fun a x => f a (g x)) l a.
Proof. revert a. induction l as [|x l IH]; intros a; [done|]. simpl. apply IH. Qed.

(** The cells of the rows after [materialize]. *)
Lemma materialize_lookup (e : embedding F) (id : Z) (r j : nat) :
  inv e → no_overflow e → 0 ≤ id → composed e (Z.to_nat id) →
  (j < dimension e)%nat →
  weights (materialize e id) !!! (r * dimension e + j)%nat
  = if decide (r = Z.to_nat id)
    then fmul (fold_left
                 (fun acc c => fadd acc (weights e !!! (Z.to_nat c * dimension e + j)%nat))
                 (subforms e !!! Z.to_nat id) f0)
           (fdiv f1 (of_size (length (subforms e !!! Z.to_nat id))))
    else weights e !!! (r * dimension e + j)%nat.
Proof.
  intros He Hno Hid Hcomp Hj. unfold no_overflow in Hno.
  destruct (inv_composed e He _ Hcomp) as (l & p & Hl & Hp & Hne & Hsort & Hplain & Hplen).
  rewrite (list_lookup_total_correct _ _ _ Hl).
  pose proof (inv_weights e He) as Hw. pose proof (inv_rows e He) as Hrows.
  destruct Hcomp as [Hge Hlt].
  assert (Hrow : (Z.to_nat id * dimension e + dimension e ≤ length (weights e))%nat)
    by (rewrite Hw; nia).
  unfold materialize. simpl. rewrite (list_lookup_total_correct _ _ _ Hl).
  rewrite offset_small by (try done; nia).
  set (dim := dimension e) in *.
  set (w1 := fill_n (weights e) (Z.to_nat id * dim) dim f0).
  assert (Hw1 : ∀ r j, (j < dim)%nat →
            w1 !!! (r * dim + j)%nat
            = if decide (r = Z.to_nat id) then f0 else weights e !!! (r * dim + j)%nat).
  { intros r' j' Hj'. unfold w1. rewrite fill_n_lookup by done.
    destruct (decide (r' = Z.to_nat id)) as [->|Hr].
    - by rewrite decide_True by lia.
    - rewrite decide_False; [done|]. intros Hin. by apply cell_in_row in Hin. }
  assert (Hlw1 : length w1 = length (weights e)) by apply fill_n_length.
  set (w2 := add_subforms dim id l w1).
  assert (Hlw2 : length w2 = length (weights e)).
  { unfold w2. by rewrite add_subforms_length. }
  destruct (row_map_lookup dim id
              (fun _ x => fmul x (fdiv f1 (of_size (length l)))) w2) as [_ Hw3];
    [done|lia|lia|].
  rewrite Hw3 by done. unfold w2.
  rewrite add_subforms_lookup; [|done|lia|lia| |done].
  2:{ eapply Forall_impl; [exact Hplain|]. simpl. intros c Hc.
      split; [lia|]. split; [lia|]. rewrite Hlw1, Hw. nia. }
  destruct (decide (r = Z.to_nat id)) as [->|Hr].
  - f_equal. rewrite Hw1 by done. rewrite decide_True by done.
    apply fold_left_ext_in. intros c acc Hc.
    eapply Forall_forall in Hplain; [|exact Hc].
    rewrite Hw1 by done. by rewrite decide_False by lia.
  - rewrite Hw1 by done. by rewrite decide_False by done.
Qed.

Lemma materialize_previous (e : embedding F) (id : Z) :
  previous_weights (materialize e id)
  = <[Z.to_nat id :=
        <[dimension e := f1]>
          (copy_n (weights (materialize e id)) (Z.to_nat (offset (dimension e) id))
             (dimension e) (previous_weights e !!! Z.to_nat id))]>
      (previous_weights e).
Proof. reflexivity. Qed.

Lemma weight_in_range (e : embedding F) (id : Z) :
  inv e → no_overflow e → 0 ≤ id → (Z.to_nat id < length (subforms e))%nat →
  weight e id
  = (Some (Z.to_nat id * dimension e)%nat,
     if subform e then if stale e id then materialize e id else e else e).
Proof.
  intros He Hno Hid Hlt. unfold no_overflow in Hno.
  pose proof (inv_weights e He) as Hw. pose proof (inv_dimension e He) as Hdim.
  unfold weight. rewrite (proj2 (Z.ltb_ge id 0)) by done. simpl.
  assert (Hoff : offset (dimension e) id = id * Z.of_nat (dimension e)).
  { unfold offset, uint32. apply Z.mod_small. nia. }
  rewrite Hoff. rewrite (proj2 (Z.leb_gt _ _)) by nia.
  do 2 f_equal. nia.
Qed.

(** C3, as amended.  In subform mode, fetching the row of an id whose
    cache slot is stale (such an id is composed) returns the row of that
    id, which has become the element-wise sum of the rows that its
    subforms had at the call, times the reciprocal [1.f / float(n)] of
    their number.  In [float] arithmetic this can differ by a rounding
    from their arithmetic mean; it is the mean when multiplying by the
    reciprocal is dividing.  The other rows are as before; the cache slot
    holds a copy of the row and the flag 1; the id is appended to the
    active ids.  Stated for the invariant of loaded objects and for rows
    within the reach of the 32-bit index arithmetic. *)
Theorem weight_materializes (e : embedding F) (id : Z) :
  inv e → no_overflow e →
  subform e = true → 0 ≤ id → stale e id = true →
  let e' := snd (weight e id) in
  let n := Z.to_nat id in
  composed e n
  ∧ fst (weight e id) = Some (n * dimension e)%nat
  ∧ row e' n
    = mean_computed (dimension e) ((fun c => row e (Z.to_nat c)) <$> subforms e !!! n)
  ∧ (exact_division →
     row e' n
     = mean_rows (dimension e) ((fun c => row e (Z.to_nat c)) <$> subforms e !!! n))
  ∧ (∀ r, r ≠ n → (r < rows e)%nat → row e' r = row e r)
  ∧ take (dimension e) (previous_weights e' !!! n) = row e' n
  ∧ (previous_weights e' !!! n) !!! dimension e = f1
  ∧ active_subforms e' = active_subforms e ++ [id].
Proof.
  intros He Hno Hsub Hid Hstale e' n.
  pose proof (stale_composed e id He Hid Hstale) as Hcomp. fold n in Hcomp.
  destruct (inv_composed e He _ Hcomp) as (l & p & Hl & Hp & Hne & Hsort & Hplain & Hplen).
  pose proof (inv_weights e He) as Hw. pose proof (inv_rows e He) as Hrows.
  pose proof (inv_previous e He) as Hprev.
  pose proof (inv_rows_eq e He) as Hrowse.
  assert (Hlt : (n < length (subforms e))%nat) by apply Hcomp.
  assert (He' : weight e id = (Some (n * dimension e)%nat, materialize e id)).
  { rewrite weight_in_range by done. by rewrite Hsub, Hstale. }
  unfold e'. rewrite He'. cbn [fst snd]. clear e' He'.
  assert (Hlen' : length (weights (materialize e id)) = length (weights e))
    by apply materialize_weights_length.
  assert (Hdim' : dimension (materialize e id) = dimension e) by done.
  assert (Hcells : ∀ r j, (j < dimension e)%nat → (r < length (subforms e))%nat →
            row (materialize e id) r !!! j
            = weights (materialize e id) !!! (r * dimension e + j)%nat).
  { intros r j Hj Hr. unfold row. rewrite row_at_lookup by done. by rewrite Hdim'. }
  assert (Hrowlen : ∀ r, (r < length (subforms e))%nat →
            length (row (materialize e id) r) = dimension e
            ∧ length (row e r) = dimension e).
  { intros r Hr. unfold row. rewrite !row_at_length; [done| |].
    - rewrite Hw. nia.
    - rewrite Hlen', Hdim', Hw. nia. }
  assert (Hsubrows : Forall (fun r => length r = dimension e)
                       ((fun c => row e (Z.to_nat c)) <$> l)).
  { apply Forall_fmap. eapply Forall_impl; [exact Hplain|]. simpl.
    intros c Hc. apply Hrowlen. unfold n in *. lia. }
  rewrite (list_lookup_total_correct _ _ _ Hl).
  assert (Hmean : row (materialize e id) n
                  = mean_computed (dimension e) ((fun c => row e (Z.to_nat c)) <$> l)).
  { apply list_eq_total.
    - rewrite mean_computed_length by done. by apply Hrowlen.
    - intros j Hj. rewrite (proj1 (Hrowlen n Hlt)) in Hj.
      rewrite Hcells by done.
      rewrite materialize_lookup, decide_True by done.
      rewrite (list_lookup_total_correct _ _ _ Hl).
      rewrite mean_computed_lookup by done.
      rewrite length_fmap, fold_left_fmap. f_equal.
      apply fold_left_ext_in. intros c acc Hc. f_equal.
      unfold row. by rewrite row_at_lookup. }
  split; [done|]. split; [done|]. split; [exact Hmean|].
  split; [|split; [|split; [|split]]].
  - intros Hdiv. rewrite Hmean. by apply mean_computed_exact.
  - intros r Hr Hrlt. rewrite Hrowse in Hrlt. apply list_eq_total.
    + destruct (Hrowlen r Hrlt) as [-> ->]. done.
    + intros j Hj. rewrite (proj1 (Hrowlen r Hrlt)) in Hj.
      rewrite Hcells by done.
      rewrite materialize_lookup, decide_False by done.
      unfold row. by rewrite row_at_lookup.
  - rewrite materialize_previous.
    rewrite list_lookup_total_insert_eq by lia.
    rewrite (list_lookup_total_correct _ _ _ Hp).
    apply list_eq_total.
    + rewrite length_take, length_insert, copy_n_length.
      rewrite (proj1 (Hrowlen n Hlt)). lia.
    + intros j Hj.
      rewrite length_take, length_insert, copy_n_length in Hj.
      rewrite lookup_total_take_lt by lia.
      rewrite list_lookup_total_insert_ne by lia.
      rewrite copy_n_lookup, decide_True by lia.
      rewrite Hcells by lia.
      rewrite offset_small; [done|done|]. unfold no_overflow in Hno. nia.
  - rewrite materialize_previous.
    rewrite list_lookup_total_insert_eq by lia.
    rewrite list_lookup_total_insert_eq; [done|].
    rewrite copy_n_length, (list_lookup_total_correct _ _ _ Hp). lia.
  - done.
Qed.
End WeightFacts.

(** ** Redistribution *)

Section UpdateFacts.
Context {F : Type} `{Scalar F} `{Unilib}.

Lemma add_to_subforms_cons (dim : nat) (id c : Z) (subs : list Z) (w : list F) :
  add_to_subforms dim id (c :: subs) w
  = add_to_subforms dim id subs
      (for_j dim (fun j w =>
         <[idx dim c j := fadd (w !!! idx dim c j) (w !!! idx dim id j)]> w) w).
Proof. reflexivity. Qed.

(** Lines 156-158: the row of [id] is added to the row of each of its
    subforms, once each. *)
Lemma add_to_subforms_lookup (dim : nat) (id : Z) (subs : list Z) (w : list F) :
  0 ≤ id →
  (Z.to_nat id * dim + dim ≤ length w)%nat →
  Z.of_nat (length w) ≤ 2 ^ 32 →
  Forall (fun c => 0 ≤ c ∧ Z.to_nat c ≠ Z.to_nat id
                   ∧ (Z.to_nat c * dim + dim ≤ length w)%nat) subs →
  NoDup subs →
  ∀ r j, (j < dim)%nat →
    add_to_subforms dim id subs w !!! (r * dim + j)%nat
    = if decide (Z.of_nat r ∈ subs)
      then fadd (w !!! (r * dim + j)%nat) (w !!! (Z.to_nat id * dim + j)%nat)
      else w !!! (r * dim + j)%nat.
Proof.
  intros Hid Hrow Hn Hsubs Hnd. revert w Hrow Hn Hsubs.
  induction Hnd as [|c subs Hc Hnd IH]; intros w Hrow Hn Hsubs r j Hj.
  { unfold add_to_subforms. cbn [fold_left].
    case_decide as Hin; [by apply elem_of_nil in Hin|done]. }
  apply Forall_cons in Hsubs as [(Hc0 & Hne & Hcrow) Hsubs].
    rewrite add_to_subforms_cons.
    destruct (row_update_lookup dim c id (fun _ => fadd) w) as [Hlen Hk];
      [done|done|lia|done|done|done|].
    rewrite IH; [|lia|lia| |done].
    2:{ eapply Forall_impl; [exact Hsubs|]. simpl. intros c' ?. lia. }
    rewrite !Hk by done.
    rewrite (decide_False (P := Z.to_nat id = Z.to_nat c)) by lia.
    assert (Hrc : r = Z.to_nat c ↔ Z.of_nat r = c) by lia.
    destruct (decide (Z.of_nat r ∈ subs)) as [Hin|Hnin];
      destruct (decide (r = Z.to_nat c)) as [Heq|Hneq];
      destruct (decide (Z.of_nat r ∈ c :: subs)) as [Hin'|Hnin']; try done.
    - apply Hrc in Heq. by subst c.
    - apply Hrc in Heq. by subst c.
    - exfalso. apply Hnin'. by apply list_elem_of_further.
    - exfalso. apply Hnin'. apply Hrc in Heq. subst c. apply list_elem_of_here.
    - exfalso. apply elem_of_cons in Hin' as [Heq|Hin]; [|done].
      apply Hneq. lia.
Qed.

Lemma add_to_subforms_length (dim : nat) (id : Z) (subs : list Z) (w : list F) :
  length (add_to_subforms dim id subs w) = length w.
Proof.
  unfold add_to_subforms. apply fold_left_length. intros.
  apply for_j_length. intros. apply length_insert.
Qed.

(** The cells after the body of the loop for one active id. *)
Lemma update_one_lookup (e : embedding F) (id : Z) (r j : nat) :
  inv e → no_overflow e → 0 ≤ id → composed e (Z.to_nat id) →
  (j < dimension e)%nat →
  weights (update_one e id) !!! (r * dimension e + j)%nat
  = if decide (r = Z.to_nat id) then delta_cell e id j
    else if decide (Z.of_nat r ∈ subforms e !!! Z.to_nat id)
         then fadd (weights e !!! (r * dimension e + j)%nat) (delta_cell e id j)
         else weights e !!! (r * dimension e + j)%nat.
Proof.
  intros He Hno Hid Hcomp Hj. unfold no_overflow in Hno.
  destruct (inv_composed e He _ Hcomp) as (l & p & Hl & Hp & Hne & Hsort & Hplain & Hplen).
  pose proof (inv_weights e He) as Hw. pose proof (inv_rows e He) as Hrows.
  destruct Hcomp as [Hge Hlt].
  assert (Hrow : (Z.to_nat id * dimension e + dimension e ≤ length (weights e))%nat)
    by (rewrite Hw; nia).
  unfold delta_cell, update_one. simpl.
  rewrite (list_lookup_total_correct _ _ _ Hl).
  set (dim := dimension e) in *.
  set (pw := previous_weights e !!! Z.to_nat id).
  set (normalize := fdiv f1 (of_size (length l))).
  destruct (row_map_lookup dim id
              (fun j x => fmul (fsub x (pw !!! j)) normalize) (weights e))
    as [Hlw1 Hw1]; [done|lia|lia|].
  set (w1 := for_j dim _ (weights e)) in *.
  rewrite add_to_subforms_lookup; [|done|lia|lia| |by apply sorted_lt_NoDup|done].
  2:{ eapply Forall_impl; [exact Hplain|]. simpl. intros c Hc.
      split; [lia|]. split; [lia|]. rewrite Hlw1, Hw. nia. }
  rewrite !Hw1 by done. rewrite (decide_True (P := Z.to_nat id = Z.to_nat id)) by done.
  destruct (decide (r = Z.to_nat id)) as [->|Hr].
  - rewrite decide_False; [done|]. intros Hin.
    eapply Forall_forall in Hplain; [|exact Hin]. lia.
  - done.
Qed.

Lemma update_one_previous_ne (e : embedding F) (id : Z) (n : nat) :
  n ≠ Z.to_nat id →
  previous_weights (update_one e id) !!! n = previous_weights e !!! n.
Proof. intros Hn. unfold update_one. simpl. by rewrite list_lookup_total_insert_ne. Qed.

Lemma update_one_previous_eq (e : embedding F) (id : Z) :
  inv e → composed e (Z.to_nat id) →
  (previous_weights (update_one e id) !!! Z.to_nat id) !!! dimension e = f0.
Proof.
  intros He Hcomp.
  destruct (inv_composed e He _ Hcomp) as (l & p & Hl & Hp & _ & _ & _ & Hplen).
  unfold update_one. simpl.
  rewrite list_lookup_total_insert_eq by (eapply lookup_lt_Some; eauto).
  rewrite list_lookup_total_insert_eq; [done|].
  rewrite (list_lookup_total_correct _ _ _ Hp). lia.
Qed.

Lemma update_one_composed (e : embedding F) (id : Z) (n : nat) :
  composed (update_one e id) n ↔ composed e n.
Proof. done. Qed.

Lemma update_one_no_overflow (e : embedding F) (id : Z) :
  no_overflow e → no_overflow (update_one e id).
Proof. unfold no_overflow. by rewrite update_one_weights_length. Qed.

Lemma delta_cell_update_one (e : embedding F) (id id' : Z) (j : nat) :
  inv e → no_overflow e → 0 ≤ id → composed e (Z.to_nat id) →
  0 ≤ id' → composed e (Z.to_nat id') → id' ≠ id → (j < dimension e)%nat →
  delta_cell (update_one e id) id' j = delta_cell e id' j.
Proof.
  intros He Hno Hid Hcomp Hid' Hcomp' Hne Hj. unfold delta_cell.
  rewrite update_one_previous_ne by lia.
  change (dimension (update_one e id)) with (dimension e).
  change (subforms (update_one e id)) with (subforms e).
  rewrite update_one_lookup by done.
  rewrite decide_False by lia. rewrite decide_False; [done|].
  destruct (inv_composed e He _ Hcomp) as (l & p & Hl & _ & _ & _ & Hplain & _).
  rewrite (list_lookup_total_correct _ _ _ Hl). intros Hin.
  eapply Forall_forall in Hplain; [|exact Hin]. destruct Hcomp'. lia.
Qed.

(** The loop over the active ids. *)
Lemma update_all_lookup (l : list Z) (e : embedding F) :
  inv e → no_overflow e → NoDup l →
  Forall (fun id => 0 ≤ id ∧ composed e (Z.to_nat id)) l →
  (∀ c j, (c < rows_loaded e)%nat → (j < dimension e)%nat →
     weights (fold_left update_one l e) !!! (c * dimension e + j)%nat
     = fold_left
         (fun acc id =>
            if decide (Z.of_nat c ∈ subforms e !!! Z.to_nat id)
            then fadd acc (delta_cell e id j) else acc)
         l (weights e !!! (c * dimension e + j)%nat))
  ∧ (∀ id, id ∈ l →
       (previous_weights (fold_left update_one l e) !!! Z.to_nat id) !!! dimension e = f0)
  ∧ (∀ n, (∀ id, id ∈ l → Z.to_nat id ≠ n) →
       previous_weights (fold_left update_one l e) !!! n = previous_weights e !!! n).
Proof.
  intros He Hno Hnd. revert e He Hno.
  induction Hnd as [|id l Hid Hnd IH]; intros e He Hno Hl.
  - split; [done|]. split; [|done]. intros id Hin. by apply elem_of_nil in Hin.
  - apply Forall_cons in Hl as [[Hid0 Hcomp] Hl]. simpl.
    destruct (IH (update_one e id)) as (IHw & IHf & IHp);
      [by apply update_one_inv|by apply update_one_no_overflow|done|].
    change (dimension (update_one e id)) with (dimension e) in *.
    change (subforms (update_one e id)) with (subforms e) in *.
    change (rows_loaded (update_one e id)) with (rows_loaded e) in *.
    split; [|split].
    + intros c j Hc Hj. rewrite IHw by done.
      rewrite update_one_lookup by done.
      rewrite decide_False by (destruct Hcomp; lia).
      apply fold_left_ext_in. intros id' acc Hin.
      eapply Forall_forall in Hl as [? ?]; [|exact Hin].
      rewrite delta_cell_update_one; [done..| |done]. by intros ->.
    + intros id' [->|Hin]%elem_of_cons.
      * rewrite IHp.
        -- by apply update_one_previous_eq.
        -- intros id' Hin Heq.
           eapply Forall_forall in Hl as [? ?]; [|exact Hin].
           assert (id' = id) as -> by lia. done.
      * by apply IHf.
    + intros n Hn. rewrite IHp.
      * apply update_one_previous_ne. intros ->. eapply Hn; [left|done].
      * intros id' Hin. apply Hn. by right.
Qed.

Lemma fold_rows_lookup (dim : nat) (l : list Z) (P : Z → Prop)
    `{!∀ id, Decision (P id)} (d : Z → list F) (acc : list F) :
  length acc = dim → (∀ id, id ∈ l → length (d id) = dim) →
  length (fold_left (fun acc id =>
                       if decide (P id) then zip_with fadd acc (d id) else acc) l acc)
  = dim
  ∧ ∀ j, (j < dim)%nat →
      fold_left (fun acc id =>
                   if decide (P id) then zip_with fadd acc (d id) else acc) l acc !!! j
      = fold_left (fun a id => if decide (P id) then fadd a (d id !!! j) else a)
          l (acc !!! j).
Proof.
  revert acc. induction l as [|id l IH]; intros acc Hacc Hd; [done|]. simpl.
  assert (Hdid : length (d id) = dim) by (apply Hd; left).
  destruct (IH (if decide (P id) then zip_with fadd acc (d id) else acc)) as [Hlen Hj].
  { case_decide; [|done]. rewrite length_zip_with. lia. }
  { intros id' Hin. apply Hd. by right. }
  split; [done|]. intros j Hlt. rewrite Hj by done. f_equal.
  case_decide; [|done].
  by rewrite (@lookup_total_zip_with _ _ _ fadd _ _ _) by lia.
Qed.

Lemma delta_lookup (e : embedding F) (id : Z) (j : nat) :
  inv e → 0 ≤ id → composed e (Z.to_nat id) →
  (j < dimension e)%nat →
  length (delta_computed e (Z.to_nat id)) = dimension e
  ∧ delta_computed e (Z.to_nat id) !!! j = delta_cell e id j.
Proof.
  intros He Hid Hcomp Hj.
  destruct (inv_composed e He _ Hcomp) as (l & p & Hl & Hp & _ & _ & _ & Hplen).
  pose proof (inv_weights e He) as Hw. destruct Hcomp as [_ Hlt].
  assert (Hrow : length (row e (Z.to_nat id)) = dimension e).
  { unfold row. apply row_at_length. rewrite Hw. nia. }
  assert (Htake : length (take (dimension e) (previous_weights e !!! Z.to_nat id))
                  = dimension e).
  { rewrite (list_lookup_total_correct _ _ _ Hp), length_take. lia. }
  unfold delta_computed, normalized, delta_cell. rewrite length_fmap, length_zip_with.
  split; [lia|].
  rewrite (@list_lookup_total_fmap _ _ _ _ _) by (rewrite length_zip_with; lia).
  rewrite (@lookup_total_zip_with _ _ _ fsub _ _ _) by lia.
  unfold row. rewrite row_at_lookup by done.
  by rewrite lookup_total_take_lt by done.
Qed.

Lemma update_all_active (l : list Z) (e : embedding F) :
  active_subforms (fold_left update_one l e) = active_subforms e
  ∧ dimension (fold_left update_one l e) = dimension e
  ∧ length (weights (fold_left update_one l e)) = length (weights e).
Proof.
  revert e. induction l as [|id l IH]; intros e; [done|]. simpl.
  destruct (IH (update_one e id)) as (-> & -> & ->).
  by rewrite update_one_weights_length.
Qed.

(** C2, as amended.  In subform mode, [update_weights] empties the
    active ids, sets the flag of the cache slot of every id that was
    active to 0, and leaves every loaded row [c] increased, for each id
    that was active and has [c] among its subforms, by that id's delta:
    the difference between its row and its snapshot at the call, times
    the reciprocal [1.f / float(n)] of the number of its subforms.  In
    [float] arithmetic this can differ by a rounding from the difference
    divided by the number; it is that quotient when multiplying by the
    reciprocal is dividing.  Stated for the invariant of loaded objects,
    for rows within the reach of the 32-bit index arithmetic and for
    pairwise distinct active ids (as they are in every reachable state,
    [reachable_active_NoDup]). *)
Theorem update_weights_redistributes (e : embedding F) :
  inv e → no_overflow e →
  subform e = true → NoDup (active_subforms e) →
  let e' := update_weights e in
  active_subforms e' = []
  ∧ (∀ id, id ∈ active_subforms e →
       (previous_weights e' !!! Z.to_nat id) !!! dimension e = f0)
  ∧ (∀ c, (c < rows_loaded e)%nat →
       row e' c = redistributed (delta_computed e) e c)
  ∧ (exact_division →
     ∀ c, (c < rows_loaded e)%nat → row e' c = redistributed (delta e) e c).
Proof.
  intros He Hno Hsub Hnd e'. unfold e', update_weights. rewrite Hsub.
  destruct (update_all_lookup (active_subforms e) e He Hno Hnd (inv_active e He))
    as (Hcells & Hflags & _).
  destruct (update_all_active (active_subforms e) e) as (_ & Hdim & Hlen).
  pose proof (inv_weights e He) as Hw. pose proof (inv_rows e He) as Hrows.
  assert (Hcomputed : ∀ c, (c < rows_loaded e)%nat →
            row (set_active_subforms (fold_left update_one (active_subforms e) e) []) c
            = redistributed (delta_computed e) e c).
  { intros c Hc. unfold redistributed, row, row_at. simpl. rewrite Hdim.
    set (w' := weights (fold_left update_one (active_subforms e) e)) in *.
    assert (Hrowc : length (take (dimension e) (drop (c * dimension e) (weights e)))
                    = dimension e).
    { rewrite length_take, length_drop, Hw. nia. }
    destruct (fold_rows_lookup (dimension e) (active_subforms e)
                (fun id => Z.of_nat c ∈ subforms e !!! Z.to_nat id)
                (fun id => delta_computed e (Z.to_nat id))
                (take (dimension e) (drop (c * dimension e) (weights e))))
      as [Hfl Hfj]; [done| |].
    { intros id Hin. pose proof (inv_active e He) as Hact.
      eapply Forall_forall in Hact as [? ?]; [|exact Hin].
      pose proof (inv_dimension e He).
      eapply (delta_lookup e id 0); [done..|lia]. }
    apply list_eq_total.
    - rewrite Hfl, length_take, length_drop, Hlen, Hw. nia.
    - intros j Hj. rewrite length_take, length_drop, Hlen, Hw in Hj.
      assert (Hjd : (j < dimension e)%nat) by nia.
      rewrite Hfj by done.
      rewrite !lookup_total_take_lt, !lookup_total_drop by done.
      rewrite Hcells by done.
      apply fold_left_ext_in. intros id acc Hin.
      pose proof (inv_active e He) as Hact.
      eapply Forall_forall in Hact as [? ?]; [|exact Hin].
      case_decide; [|done]. f_equal. symmetry. by apply delta_lookup. }
  split; [done|]. split; [exact Hflags|]. split; [exact Hcomputed|].
  intros Hdiv c Hc. rewrite Hcomputed by done. unfold redistributed.
  apply fold_left_ext_in. intros id acc _.
  by rewrite delta_computed_exact.
Qed.
End UpdateFacts.

(** ** Termination of the loops, the active ids, the range check *)

Section RunFacts.
Context {F : Type} `{Scalar F} `{Unilib}.

Lemma string_empty_length (s : string) :
  string_empty s = true ↔ String.length s = 0%nat.
Proof. by destruct s. Qed.

(** The length of the string is fuel enough for the loops over it: more
    fuel gives the same result. *)
Lemma subforms_from_fuel (dict : gmap string Z) (fuel1 fuel2 : nat)
    (form : string) (back : list Z) :
  decode_shrinks →
  (String.length form ≤ fuel1)%nat → (String.length form ≤ fuel2)%nat →
  subforms_from dict fuel1 form back = subforms_from dict fuel2 form back.
Proof.
  intros Hshrink. revert fuel2 form back.
  induction fuel1 as [|fuel1 IH]; intros fuel2 form back H1 H2.
  - assert (Hempty : string_empty form = true) by (apply string_empty_length; lia).
    destruct fuel2; cbn [subforms_from]; by rewrite ?Hempty.
  - destruct fuel2 as [|fuel2]; cbn [subforms_from].
    + assert (Hempty : string_empty form = true) by (apply string_empty_length; lia).
      by rewrite Hempty.
    + destruct (string_empty form) eqn:Hempty; [done|].
      specialize (Hshrink form Hempty). apply IH; lia.
Qed.

Lemma decoder_from_fuel (fuel1 fuel2 : nat) (s : string) :
  decode_shrinks →
  (String.length s ≤ fuel1)%nat → (String.length s ≤ fuel2)%nat →
  decoder_from fuel1 s = decoder_from fuel2 s.
Proof.
  intros Hshrink. revert fuel2 s.
  induction fuel1 as [|fuel1 IH]; intros fuel2 s H1 H2.
  - assert (Hempty : string_empty s = true) by (apply string_empty_length; lia).
    destruct fuel2; cbn [decoder_from]; by rewrite ?Hempty.
  - destruct fuel2 as [|fuel2]; cbn [decoder_from].
    + assert (Hempty : string_empty s = true) by (apply string_empty_length; lia).
      by rewrite Hempty.
    + destruct (string_empty s) eqn:Hempty; [done|].
      specialize (Hshrink s Hempty). f_equal. apply IH; lia.
Qed.

(** *** The active ids *)

Lemma lookup_word_stale (e : embedding F) (word : string) (id : Z) :
  (Z.to_nat id < length (previous_weights e))%nat →
  stale (snd (lookup_word e word)) id = stale e id.
Proof.
  intros Hlt. unfold lookup_word. destruct (subform e); [|done].
  unfold lookup_subform. destruct (decomposed_forms e !! word); [done|].
  repeat case_decide; repeat case_match; try done;
    unfold stale; simpl; by rewrite lookup_total_app_l.
Qed.

Lemma step_active_fresh (e : embedding F) (o : op F) :
  is_zero f1 = false → inv e → active_fresh e → active_fresh (step e o).
Proof.
  intros Hone He [Hnd Hfresh]. destruct o as [word|id| |pos x]; simpl.
  - assert (Hact : active_subforms (snd (lookup_word e word)) = active_subforms e).
    { unfold lookup_word. destruct (subform e); [|done].
      unfold lookup_subform. repeat case_match; done. }
    split; rewrite Hact; [done|].
    pose proof (inv_active e He) as Hin.
    apply Forall_forall. intros id Hid.
    eapply Forall_forall in Hin as [? [? ?]]; [|exact Hid].
    eapply Forall_forall in Hfresh; [|exact Hid].
    rewrite lookup_word_stale; [done|]. rewrite (inv_previous e He). lia.
  - unfold weight. destruct (_ || _) eqn:Hguard; [done|]. simpl.
    apply orb_false_iff in Hguard as [Hneg _]. apply Z.ltb_ge in Hneg.
    destruct (subform e); [|done].
    destruct (stale e id) eqn:Hstale; [|done].
    pose proof (stale_composed e id He Hneg Hstale) as Hcomp.
    destruct (inv_composed e He _ Hcomp) as (l & p & Hl & Hp & _ & _ & _ & Hplen).
    assert (Hnotin : id ∉ active_subforms e).
    { intros Hin. eapply Forall_forall in Hfresh; [|exact Hin]. congruence. }
    split; simpl.
    + apply NoDup_app. split; [done|]. split; [|apply NoDup_singleton].
      intros id' Hin ->%list_elem_of_singleton. done.
    + apply Forall_app. split.
      * apply Forall_forall. intros id' Hin.
        pose proof (inv_active e He) as Hact.
        eapply Forall_forall in Hact as [? ?]; [|exact Hin].
        eapply Forall_forall in Hfresh; [|exact Hin].
        unfold stale in *. rewrite materialize_previous.
        rewrite list_lookup_total_insert_ne; [done|].
        intros Heq. apply Hnotin. assert (id = id') as -> by lia. done.
      * constructor; [|done]. unfold stale. rewrite materialize_previous.
        rewrite list_lookup_total_insert_eq by (eapply lookup_lt_Some; eauto).
        change (dimension (materialize e id)) with (dimension e).
        rewrite list_lookup_total_insert_eq.
        -- rewrite Hone. apply andb_false_r.
        -- rewrite copy_n_length, (list_lookup_total_correct _ _ _ Hp). lia.
  - unfold update_weights. destruct (subform e); [|done]. split; simpl; constructor.
  - done.
Qed.

(** In every reachable state the active ids are pairwise distinct. *)
Lemma reachable_active_NoDup (e : embedding F) :
  is_zero f1 = false → reachable e → NoDup (active_subforms e).
Proof.
  intros Hone (e0 & ops & Hload & ->).
  assert (Hgen : ∀ e, inv e → active_fresh e → active_fresh (run ops e)).
  { induction ops as [|o ops IH]; intros e He Hf; [done|]. simpl.
    apply IH; [by apply step_inv|by apply step_active_fresh]. }
  apply Hgen; [by apply loaded_inv|].
  destruct Hload as (data & data' & Hload & _). unfold load in Hload.
  destruct (next_4B data) as [[dim data1]|]; [|done].
  destruct (next_4B data1) as [[count data2]|]; [|done].
  destruct (load_dictionary _ _ data2) as [[dict data3]|]; [|done].
  destruct (next_1B data3) as [[unknown data4]|]; [|done].
  destruct (next_1B data4) as [[sub data5]|]; [|done].
  destruct (next_floats _ data5) as [[ws data6]|]; [|done].
  destruct (Nat.eqb _ 0) eqn:Hnz; [done|].
  injection Hload as <- _. split; simpl; constructor.
Qed.

(** *** The range check of [weight] *)

(** X9: where the product [id * dimension] does not wrap, [weight] gives
    [nullptr] exactly for the ids that are negative or not below the
    number of rows, and then leaves the object as it is; for the other
    ids it gives the row. *)
Lemma weight_null_no_wrap (e : embedding F) (id : Z) :
  inv e → id * Z.of_nat (dimension e) < 2 ^ 32 →
  (fst (weight e id) = None ↔ id < 0 ∨ Z.of_nat (rows e) ≤ id)
  ∧ (fst (weight e id) = None → snd (weight e id) = e)
  ∧ (0 ≤ id < Z.of_nat (rows e) →
     fst (weight e id) = Some (Z.to_nat id * dimension e)%nat).
Proof.
  intros He Hsmall. rewrite (inv_rows_eq e He).
  pose proof (inv_weights e He) as Hw. pose proof (inv_dimension e He) as Hdim.
  unfold weight.
  destruct (id <? 0) eqn:Hneg; simpl.
  { apply Z.ltb_lt in Hneg. repeat split; try done; auto; lia. }
  apply Z.ltb_ge in Hneg.
  assert (Hoff : offset (dimension e) id = id * Z.of_nat (dimension e)).
  { unfold offset, uint32. apply Z.mod_small. nia. }
  rewrite Hoff.
  destruct (_ <=? _) eqn:Hle; simpl.
  - apply Z.leb_le in Hle. repeat split; try done; [right|]; nia.
  - apply Z.leb_gt in Hle. repeat split; try done.
    + intros [?|?]; [lia|nia].
    + intros _. do 2 f_equal. nia.
Qed.
End RunFacts.

(** ** The theorems at concrete objects *)

Section Concrete.
Import Examples.

Lemma Q_exact_division : @exact_division Q Q_scalar.
Proof.
  intros x n. change (Qmult x (Qmult 1 (Qinv n)) = Qmult x (Qinv n)).
  destruct (Qinv n) as [[|a|a] b]; reflexivity.
Qed.

(** In binary32 the law fails by a unit in the last place: [5 * (1 / 3)]
    is [13981014 * 2^-23] and [5 / 3] is [13981013 * 2^-23]. *)
Lemma binary32_division_rounds :
  fmul (Scalar := Binary32.scalar) (Binary32.of_Z 5)
       (fdiv (Scalar := Binary32.scalar) (Binary32.of_Z 1) (Binary32.of_Z 3))
  = S754_finite false 13981014 (-23)
  ∧ fdiv (Scalar := Binary32.scalar) (Binary32.of_Z 5) (Binary32.of_Z 3)
    = S754_finite false 13981013 (-23)
  ∧ ¬ @exact_division spec_float Binary32.scalar.
Proof.
  split; [vm_compute; reflexivity|]. split; [vm_compute; reflexivity|].
  intros Hdiv. specialize (Hdiv (Binary32.of_Z 5) (Binary32.of_Z 3)).
  vm_compute in Hdiv. discriminate Hdiv.
Qed.

(** The scenario of section 8 of the specification, in binary32: with the
    dictionary {cat: 0, dog: 1} and the rows [1 0] and [0 1], "cats" gets
    the composed id 2 with the subform 0, and its row is [1 0]. *)
Lemma binary32_scenario :
  @lookup_word _ Binary32.scalar _ cat_dog_binary32 "cats"
  = (2, with_cats_binary32)
  ∧ subforms with_cats_binary32 = [[]; []; [0]]
  ∧ fst (@weight _ Binary32.scalar with_cats_binary32 2) = Some 4%nat
  ∧ row (snd (@weight _ Binary32.scalar with_cats_binary32 2)) 2
    = [Binary32.of_Z 1; Binary32.of_Z 0].
Proof. repeat split; vm_compute; reflexivity. Qed.

Lemma ascii_decode_shrinks : decode_shrinks.
Proof. intros [|a s]; simpl; [done|lia]. Qed.

Lemma loaded_cat_dog : loaded cat_dog.
Proof. exists cat_dog_stream, []. split; [vm_compute; reflexivity|vm_compute; lia]. Qed.

Lemma loaded_cat_dog_unknown : loaded cat_dog_unknown.
Proof.
  exists cat_dog_unknown_stream, []. split; [vm_compute; reflexivity|vm_compute; lia].
Qed.

Lemma reachable_with_cats : reachable with_cats.
Proof.
  exists cat_dog_unknown, [OpLookup "cats"].
  split; [apply loaded_cat_dog_unknown|vm_compute; reflexivity].
Qed.

Lemma reachable_trained : reachable trained.
Proof.
  exists cat_dog_unknown, [OpLookup "cats"; OpLookup "xyz"; OpWeight 3; OpWeight 4;
       OpStore 6%nat 2%Q; OpStore 9%nat (1 # 2)%Q].
  split; [apply loaded_cat_dog_unknown|vm_compute; reflexivity].
Qed.

(** A verbatim hit does not win in every mode: in subform mode "cat", the
    key of id 0, resolves to the composed id 2. *)
Lemma lookup_word_subform_misses_verbatim :
  subform cat_dog = true
  ∧ dictionary cat_dog !! "cat" = Some 0
  ∧ fst (lookup_word cat_dog "cat") = 2
  ∧ ¬ verbatim_hit_wins cat_dog.
Proof.
  split; [vm_compute; reflexivity|]. split; [vm_compute; reflexivity|].
  split; [vm_compute; reflexivity|].
  intros Hclaim.
  assert (Hkey : dictionary cat_dog !! "cat" = Some 0) by (vm_compute; reflexivity).
  assert (Hid : fst (lookup_word cat_dog "cat") = 2) by (vm_compute; reflexivity).
  specialize (Hclaim "cat" 0 Hkey). rewrite Hid in Hclaim. discriminate Hclaim.
Qed.

Lemma lookup_word_verbatim_witness :
  (dictionary the !! "the" = Some 0 ∧ subform the = false
   ∧ lookup_word the "the" = (0, the))
  ∧ (dictionary cat_dog !! "cat" = Some 0 ∧ subform cat_dog = true ∧ inv cat_dog
     ∧ fst (lookup_word cat_dog "cat") ≠ 0
     ∧ (fst (lookup_word cat_dog "cat") = unknown_index cat_dog
        ∧ unknown_index cat_dog < 0
        ∨ Z.of_nat (rows_loaded cat_dog) ≤ fst (lookup_word cat_dog "cat"))).
Proof.
  split.
  - assert (Hkey : dictionary the !! "the" = Some 0) by (vm_compute; reflexivity).
    assert (Hsub : subform the = false) by (vm_compute; reflexivity).
    pose proof (lookup_word_verbatim the "the" 0 Hkey) as [Hthm _].
    split; [exact Hkey|]. split; [exact Hsub|]. exact (Hthm Hsub).
  - assert (Hkey : dictionary cat_dog !! "cat" = Some 0) by (vm_compute; reflexivity).
    assert (Hsub : subform cat_dog = true) by (vm_compute; reflexivity).
    assert (Hinv : inv cat_dog) by apply loaded_inv, loaded_cat_dog.
    pose proof (lookup_word_verbatim cat_dog "cat" 0 Hkey) as [_ Hthm].
    split; [exact Hkey|]. split; [exact Hsub|]. split; [exact Hinv|].
    exact (Hthm Hsub Hinv).
Defined.


(** The count field does not give the number of rows: of the stream with
    the count 2 and the word "a" twice, one float is read, not two, and
    one is left. *)
Lemma load_rows_by_count_fails :
  (∃ e, load embedding_new twice_stream = Some (e, [FieldFloat 5%Q])
        ∧ length (weights e) = 1%nat ∧ dictionary e !! "a" = Some 0)
  ∧ ¬ @load_rows_by_count Q.
Proof.
  split.
  - eexists. split; [vm_compute; reflexivity|].
    split; vm_compute; reflexivity.
  - intros Hclaim.
    destruct (Hclaim 1%N 2%N ["a"; "a"] 0%N 0%N [1%Q; 5%Q] []
                (load_new twice_stream) [FieldFloat 5%Q]) as [Hlen _].
    + reflexivity.
    + vm_compute. reflexivity.
    + assert (Hone : length (weights (load_new twice_stream)) = 1%nat)
        by (vm_compute; reflexivity).
      rewrite Hone in Hlen. discriminate Hlen.
Qed.

Lemma load_consumes_witness :
  load embedding_new cat_dog_unknown_stream = Some (cat_dog_unknown, [])
  ∧ load embedding_new (stream 0 2 ["cat"; "dog"] 1 1 ([] : list Q) []) = None
  ∧ N.to_nat 2 ≠ 0%nat
  ∧ length [1%Q; 0%Q; 0%Q; 1%Q; 3%Q; 5%Q]
    = (N.to_nat 2 * (distinct ["cat"; "dog"] + 1))%nat
  ∧ let e := loaded_from 2 ["cat"; "dog"] 1 1 [1%Q; 0%Q; 0%Q; 1%Q; 3%Q; 5%Q] in
    dimension e = 2%nat
    ∧ subform e = true
    ∧ weights e = [1%Q; 0%Q; 0%Q; 1%Q; 3%Q; 5%Q]
    ∧ unknown_index e = 2
    ∧ dictionary e !! "cat" = Some 0
    ∧ dictionary e !! "dog" = Some 1
    ∧ subforms e = [[]; []; []]
    ∧ previous_weights e = [[]; []; []].
Proof.
  assert (Hnz : N.to_nat 2 ≠ 0%nat) by (vm_compute; discriminate).
  assert (Hlen : length [1%Q; 0%Q; 0%Q; 1%Q; 3%Q; 5%Q]
                 = (N.to_nat 2 * (distinct ["cat"; "dog"] + 1))%nat)
    by (vm_compute; reflexivity).
  assert (Hnd : NoDup ["cat"; "dog"]).
  { apply NoDup_cons. split; [|apply NoDup_singleton].
    intros [= ]%list_elem_of_singleton. }
  destruct (load_consumes cat_dog_unknown_stream [] cat_dog_unknown)
    as (Hiff & Hzero & Hfields).
  destruct (Hfields 2%N ["cat"; "dog"] 1%N 1%N [1%Q; 0%Q; 0%Q; 1%Q; 3%Q; 5%Q] Hnz Hlen)
    as (Hdim & Hsubf & Hw & Hunk & _ & Hpos & Hs & Hp).
  destruct (Hpos Hnd) as [Hdist Hids].
  split.
  { apply Hiff.
    exists 2%N, 2%N, ["cat"; "dog"], 1%N, 1%N, [1%Q; 0%Q; 0%Q; 1%Q; 3%Q; 5%Q].
    split; [reflexivity|]. split; [exact Hnz|]. split; [reflexivity|].
    split; [exact Hlen|]. vm_compute. reflexivity. }
  split; [exact (Hzero 2%N ["cat"; "dog"] 1%N 1%N [] [])|].
  split; [exact Hnz|]. split; [exact Hlen|].
  split; [exact Hdim|]. split; [exact Hsubf|]. split; [exact Hw|].
  split; [rewrite Hunk, Hdist; reflexivity|].
  split; [exact (Hids 0%nat "cat" eq_refl)|].
  split; [exact (Hids 1%nat "dog" eq_refl)|].
  split; [rewrite Hs, Hdist; reflexivity|rewrite Hp, Hdist; reflexivity].
Defined.

Lemma lookup_word_lowercased_witness :
  subform the = false
  ∧ dictionary the !! "The" = None ∧ decoder "The" = [84; 104; 101]
  ∧ dictionary the !! "AB" = None ∧ decoder "AB" = [65; 66]
  ∧ has (category 84) unicode_Lut = true ∧ has (category 65) unicode_Lut = true
  ∧ lookup_word the "The" = (0, the)
  ∧ lookup_word the "AB" = (2, the).
Proof.
  assert (Hsub : subform the = false) by (vm_compute; reflexivity).
  assert (HThe : dictionary the !! "The" = None) by (vm_compute; reflexivity).
  assert (HdThe : decoder "The" = [84; 104; 101]) by (vm_compute; reflexivity).
  assert (HAB : dictionary the !! "AB" = None) by (vm_compute; reflexivity).
  assert (HdAB : decoder "AB" = [65; 66]) by (vm_compute; reflexivity).
  assert (HT : has (category 84) unicode_Lut = true) by (vm_compute; reflexivity).
  assert (HA : has (category 65) unicode_Lut = true) by (vm_compute; reflexivity).
  pose proof (lookup_word_lowercased the "The" 84 [104; 101] Hsub HThe HdThe HT)
    as [_ Hfirst].
  pose proof (lookup_word_lowercased the "AB" 65 [66] Hsub HAB HdAB HA)
    as [Hlater _].
  split; [exact Hsub|]. split; [exact HThe|]. split; [exact HdThe|].
  split; [exact HAB|]. split; [exact HdAB|]. split; [exact HT|]. split; [exact HA|].
  split.
  - apply Hfirst; [|vm_compute; reflexivity].
    intros c' Hin. apply list_elem_of_In in Hin.
    destruct Hin as [<-|[<-|[]]]; vm_compute; reflexivity.
  - destruct Hlater as [Hid _].
    + exists 66. split; [apply list_elem_of_here|vm_compute; reflexivity].
    + apply Hid. vm_compute. reflexivity.
Defined.



Lemma subforms_are_loaded_rows_witness :
  loaded cat_dog_unknown
  ∧ subforms (run [OpLookup "cats"] cat_dog_unknown) !! 3%nat = Some [0]
  ∧ 0 ∈ [0]
  ∧ 0 ≤ 0 < Z.of_nat (rows cat_dog_unknown)
  ∧ rows cat_dog_unknown = rows_loaded (run [OpLookup "cats"] cat_dog_unknown)
  ∧ ¬ composed (run [OpLookup "cats"] cat_dog_unknown) (Z.to_nat 0)
  ∧ subforms (run [OpLookup "cats"] cat_dog_unknown) !! Z.to_nat 0 = Some []
  ∧ previous_weights (run [OpLookup "cats"] cat_dog_unknown) !! Z.to_nat 0 = Some []
  ∧ snd (weight (run [OpLookup "cats"] cat_dog_unknown) 0)
    = run [OpLookup "cats"] cat_dog_unknown.
Proof.
  assert (Hl : subforms (run [OpLookup "cats"] cat_dog_unknown) !! 3%nat = Some [0])
    by (vm_compute; reflexivity).
  assert (Hc : 0 ∈ [0]) by apply list_elem_of_here.
  pose proof (subforms_are_loaded_rows cat_dog_unknown [OpLookup "cats"] 3 [0] 0
                loaded_cat_dog_unknown Hl Hc) as Hthm.
  split; [apply loaded_cat_dog_unknown|]. split; [exact Hl|]. split; [exact Hc|].
  exact Hthm.
Defined.

(** C9, the range check fails under wrap-around: the object [wide] has
    one row of four floats; for the id 2^30 the [unsigned] product
    [id * dimension] is 0, so [weight] returns not [nullptr] but the
    pointer to row 0. *)
Theorem weight_wraps_around :
  rows wide = 1%nat
  ∧ dimension wide = 4%nat
  ∧ offset (dimension wide) (2 ^ 30) = 0
  ∧ weight wide (2 ^ 30) = (Some 0%nat, wide)
  ∧ ¬ (∀ id, Z.of_nat (rows wide) ≤ id → fst (weight wide id) = None).
Proof.
  assert (Hrows : rows wide = 1%nat) by (vm_compute; reflexivity).
  assert (Hptr : weight wide (2 ^ 30) = (Some 0%nat, wide)) by (vm_compute; reflexivity).
  split; [exact Hrows|]. split; [vm_compute; reflexivity|].
  split; [vm_compute; reflexivity|]. split; [exact Hptr|].
  intros Hclaim. specialize (Hclaim (2 ^ 30)). rewrite Hrows, Hptr in Hclaim.
  assert (Hnone : Some 0%nat = None) by (apply Hclaim; lia).
  discriminate Hnone.
Qed.
End Concrete.

(** ** Further properties *)

Section NgramFacts.
Context `{Unilib}.

Lemma length_append (s1 s2 : string) :
  String.length (String.append s1 s2) = (String.length s1 + String.length s2)%nat.
Proof. induction s1 as [|a s1 IH]; [done|]. 
  change (S (String.length (String.append s1 s2)) = S (String.length s1 + String.length s2)). by rewrite IH. Qed.

Lemma substring_prefix (s1 s2 : string) :
  String.substring 0 (String.length s1) (String.append s1 s2) = s1.
Proof.
  induction s1 as [|a s1 IH].
  - simpl. destruct s2; done.
  - change (String a (String.substring 0 (String.length s1) (String.append s1 s2)) = String a s1).
    by rewrite IH.
Qed.

Lemma assign_append (pre s : string) : assign (String.append pre s) s = pre.
Proof.
  unfold assign. rewrite length_append.
  replace (String.length pre + String.length s - String.length s)%nat
    with (String.length pre) by lia.
  apply substring_prefix.
Qed.

Lemma chunks_from_chunked (fuel : nat) (s : string) :
  decode_splits → (String.length s ≤ fuel)%nat → chunked s (chunks_from fuel s).
Proof.
  intros Hd. revert s. induction fuel as [|fuel IH]; intros s Hlen.
  - destruct s; [constructor|simpl in Hlen; lia].
  - cbn [chunks_from]. destruct (string_empty s) eqn:Hs.
    + destruct s; [constructor|done].
    + destruct (Hd s Hs) as (a & p & Hsp).
      assert (Hc : first_chunk s = String a p).
      { unfold first_chunk. rewrite Hsp at 1. apply assign_append. }
      rewrite Hc. constructor; [done|done|done|].
      apply IH. apply (f_equal String.length) in Hsp.
      rewrite length_append in Hsp. simpl in Hsp. lia.
Qed.

Lemma chunked_join (s : string) (cs : list string) : chunked s cs → join cs = s.
Proof.
  induction 1 as [|s c cs Hs Hc Hsp _ IH]; [done|].
  simpl. rewrite IH. done.
Qed.

Lemma chunked_length (s : string) (cs : list string) :
  chunked s cs → (length cs ≤ String.length s)%nat.
Proof.
  induction 1 as [|s c cs Hs Hc Hsp _ IH]; [done|].
  apply (f_equal String.length) in Hsp. rewrite length_append in Hsp.
  destruct c; [done|]. simpl in *. lia.
Qed.

(** The inner loop after its first step: every further step looks up the
    prefix made of one more code point. *)
Lemma subforms_at_chunked (dict : gmap string Z) (k len : nat)
    (pre substr : string) (cs : list string) (back : list Z) :
  len ≠ 0%nat → chunked substr cs →
  subforms_at dict k len (String.append pre substr) substr back
  = back ++ omap (fun g => dict !! g)
              ((fun n => String.append pre (join (take n cs)))
                 <$> seq 1 (Nat.min k (length cs))).
Proof.
  intros Hlen. revert len pre substr cs back Hlen.
  induction k as [|k IH]; intros len pre substr cs back Hlen Hcs.
  - simpl. by rewrite app_nil_r.
  - cbn [subforms_at]. destruct Hcs as [|s c cs Hs Hc Hsp Hcs].
    + simpl. by rewrite app_nil_r.
    + rewrite Hs. destruct (Nat.eqb_spec len 0) as [|_]; [done|].
      assert (Hform : String.append pre s
                      = String.append (String.append pre c) (snd (utf8_decode s))).
      { rewrite Hsp at 1. by rewrite append_assoc. }
      rewrite Hform. rewrite assign_append.
      rewrite (IH (S len) (String.append pre c) _ cs _ (Nat.neq_succ_0 len) Hcs).
      cbn [length]. rewrite <- Nat.succ_min_distr. cbn [seq fmap list_fmap omap list_omap].
      change (take 1 (c :: cs)) with (c :: take 0 cs). rewrite take_0.
      cbn [join fold_right]. rewrite append_nil_r.
      rewrite <- (fmap_S_seq 1), <- list_fmap_compose.
      assert (Hext : ((fun n => String.append (String.append pre c) (join (take n cs)))
                        <$> seq 1 (Nat.min k (length cs)))
                     = ((fun n => String.append pre (join (take n (c :: cs)))) ∘ S
                          <$> seq 1 (Nat.min k (length cs)))).
      { apply list_fmap_ext. intros i n _. simpl. by rewrite append_assoc. }
      rewrite Hext.
      destruct (dict !! String.append pre c); simpl; by rewrite <- ?app_assoc.
Qed.

(** Lines 36-45 at one start position: the n-grams of 2 to 4 code points
    are looked up, the single code point is not. *)
Lemma subforms_at_ngrams (dict : gmap string Z) (form : string)
    (cs : list string) (back : list Z) :
  chunked form cs →
  subforms_at dict 4 0 form form back
  = back ++ omap (fun g => dict !! g) (ngrams_at cs).
Proof.
  intros Hcs. destruct Hcs as [|s c cs Hs Hc Hsp Hcs].
  - simpl. by rewrite app_nil_r.
  - cbn [subforms_at]. rewrite Hs. cbn [Nat.eqb].
    transitivity (subforms_at dict 3 1 (String.append c (snd (utf8_decode s)))
                    (snd (utf8_decode s)) back); [by rewrite <- Hsp|].
    rewrite (subforms_at_chunked dict 3 1 c _ cs back (Nat.neq_succ_0 0) Hcs).
    f_equal. f_equal. unfold ngrams_at. cbn [length].
    replace (S (length cs) - 1)%nat with (length cs) by lia.
    rewrite (Nat.min_comm 3). rewrite <- (fmap_S_seq 1), <- list_fmap_compose.
    rewrite (Nat.min_comm _ 3). apply list_fmap_ext. intros i n _. done.
Qed.

Lemma subforms_from_ngrams (dict : gmap string Z) (fuel : nat) (form : string)
    (cs : list string) (back : list Z) :
  chunked form cs → (length cs ≤ fuel)%nat →
  subforms_from dict fuel form back
  = back ++ omap (fun g => dict !! g) (ngrams cs).
Proof.
  intros Hcs. revert fuel back.
  induction Hcs as [|s c cs Hs Hc Hsp Hcs IH]; intros fuel back Hfuel.
  - destruct fuel; simpl; by rewrite app_nil_r.
  - destruct fuel as [|fuel]; [simpl in Hfuel; lia|].
    cbn [subforms_from]. rewrite Hs.
    rewrite (subforms_at_ngrams dict s (c :: cs) back)
      by (by constructor).
    rewrite IH by (simpl in Hfuel; lia).
    cbn [ngrams]. by rewrite omap_app, app_assoc.
Qed.

Lemma chunked_nonempty (s : string) (cs : list string) :
  chunked s cs → Forall (fun c => string_empty c = false) cs.
Proof. induction 1; by constructor. Qed.

Lemma subforms_of_chunks (dict : gmap string Z) (word : string) :
  decode_splits →
  chunked (word_bow_eow word) (chunks (word_bow_eow word))
  ∧ subforms_of dict word
    = omap (fun g => dict !! g) (ngrams (chunks (word_bow_eow word))).
Proof.
  intros Hd.
  pose proof (chunks_from_chunked _ (word_bow_eow word) Hd (Nat.le_refl _)) as Hcs.
  fold (chunks (word_bow_eow word)) in Hcs. split; [done|].
  unfold subforms_of.
  by rewrite (subforms_from_ngrams dict _ _ _ [] Hcs (chunked_length _ _ Hcs)).
Qed.

(** X1: the ids that lines 31-46 collect for a word are the dictionary
    ids of the n-grams of 2, 3 and 4 code points of the word in angle
    brackets, taken at every start position in turn and by increasing
    length; a single code point is never looked up.  [chunks] cuts the
    bracketed word into its code points. *)
Theorem subforms_of_ngrams (dict : gmap string Z) (word : string) :
  decode_splits →
  join (chunks (word_bow_eow word)) = word_bow_eow word
  ∧ Forall (fun c => string_empty c = false) (chunks (word_bow_eow word))
  ∧ subforms_of dict word
    = omap (fun g => dict !! g) (ngrams (chunks (word_bow_eow word))).
Proof.
  intros Hd. destruct (subforms_of_chunks dict word Hd) as [Hcs Hsub].
  split; [by apply chunked_join|]. split; [|done].
  by eapply chunked_nonempty.
Qed.
End NgramFacts.

Section ComposeFacts.
Context {F : Type} `{Scalar F} `{Unilib}.



End ComposeFacts.

Section HeuristicFacts.
Context {F : Type} `{Scalar F} `{Unilib}.

Lemma categories_nil (word : string) :
  decoder word = [] → first_category word = 0 ∧ other_categories word = 0.
Proof. intros Hdec. unfold first_category, other_categories. by rewrite Hdec. Qed.

Lemma categories_cons (word : string) (c : Z) (cs : list Z) (m : Z) :
  decoder word = c :: cs →
  first_category word = category c
  ∧ has (other_categories word) m = existsb (fun chr => has (category chr) m) cs.
Proof.
  intros Hdec. unfold first_category, other_categories.
  rewrite Hdec, scan_categories_cons. split; [done|]. simpl. by rewrite has_others.
Qed.

Lemma existsb_none (f : Z → bool) (cs : list Z) :
  (∀ c, c ∈ cs → f c = false) → existsb f cs = false.
Proof.
  intros Hno. apply not_true_is_false. intros (c & Hin & Hc)%existsb_exists.
  apply list_elem_of_In in Hin. rewrite (Hno c Hin) in Hc. done.
Qed.

Lemma existsb_some (f : Z → bool) (cs : list Z) (c : Z) :
  c ∈ cs → f c = true → existsb f cs = true.
Proof.
  intros Hin Hc. apply existsb_exists. exists c. split; [by apply list_elem_of_In|done].
Qed.

(** The chain returns a dictionary id or the unknown index. *)
Lemma lookup_heuristic_values (e : embedding F) (word : string) :
  (∃ key, dictionary e !! key = Some (lookup_heuristic e word))
  ∨ lookup_heuristic e word = unknown_index e.
Proof.
  unfold lookup_heuristic.
  destruct (dictionary e !! word) eqn:E0; [left; eauto|].
  destruct (_ && _);
    [destruct (dictionary e !! lowercase_but_first word) eqn:E1; [left; eauto|]|];
    (destruct (_ || _);
       [destruct (dictionary e !! lowercase_all word) eqn:E2; [left; eauto|]|]);
    (destruct (_ && _);
       [destruct (dictionary e !! utf8_encode (utf8_first word)) eqn:E3; [left; eauto|]|]);
    by right.
Qed.

(** X4: outside subform mode, a word that is no key, has no uppercase
    or titlecase code point, and does not both start with a number and
    lack letters after it, resolves to [unknown_word()] without any further
    dictionary hit; the object is unchanged.  The empty word is such a
    word. *)
Theorem lookup_word_unknown (e : embedding F) (word : string) :
  subform e = false →
  dictionary e !! word = None →
  (∀ c, c ∈ decoder word → has (category c) unicode_Lut = false) →
  (∀ c cs, decoder word = c :: cs → has (category c) unicode_N = true →
           ∃ c', c' ∈ cs ∧ has (category c') unicode_L = true) →
  lookup_word e word = (unknown_word e, e).
Proof.
  intros Hsub Hdict Hlow Hnum. unfold lookup_word, lookup_heuristic, unknown_word.
  rewrite Hsub, Hdict. f_equal.
  destruct (decoder word) as [|c cs] eqn:Hdec.
  - destruct (categories_nil word Hdec) as [-> ->]. by rewrite !has_zero.
  - destruct (categories_cons word c cs unicode_Lut Hdec) as [Hfc HoLut].
    destruct (categories_cons word c cs unicode_L Hdec) as [_ HoL].
    rewrite Hfc, HoLut, HoL.
    rewrite (Hlow c) by apply list_elem_of_here.
    rewrite existsb_none
      by (intros c' Hin; apply Hlow; by apply list_elem_of_further).
    simpl. destruct (has (category c) unicode_N) eqn:HN; [|done].
    destruct (Hnum c cs eq_refl HN) as (c' & Hin & Hc').
    by rewrite (existsb_some _ cs c' Hin Hc').
Qed.

(** X5: outside subform mode, a word that is no key, starts with a
    number, has no letter after it and no uppercase code point resolves
    to the entry of its first code point alone, and to [unknown_word()]
    when that is no key. *)
Theorem lookup_word_number (e : embedding F) (word : string) (c : Z) (cs : list Z) :
  subform e = false →
  dictionary e !! word = None →
  decoder word = c :: cs →
  has (category c) unicode_N = true →
  has (category c) unicode_Lut = false →
  (∀ c', c' ∈ cs → has (category c') unicode_L = false
                   ∧ has (category c') unicode_Lut = false) →
  lookup_word e word
  = (match dictionary e !! utf8_encode (utf8_first word) with
     | Some id => id
     | None => unknown_word e
     end, e).
Proof.
  intros Hsub Hdict Hdec HN HLut Hrest. unfold lookup_word, lookup_heuristic, unknown_word.
  rewrite Hsub, Hdict. f_equal.
  destruct (categories_cons word c cs unicode_Lut Hdec) as [Hfc HoLut].
  destruct (categories_cons word c cs unicode_L Hdec) as [_ HoL].
  rewrite Hfc, HoLut, HoL, HN, HLut.
  rewrite !existsb_none by (intros c' Hin; by apply Hrest).
  done.
Qed.

(** X6: outside subform mode, a word that is no key and has an
    uppercase code point only after the first resolves to the entry of
    the all-lowercase form when that is a key. *)
Theorem lookup_word_inner_capital (e : embedding F) (word : string)
    (c c' : Z) (cs : list Z) (id : Z) :
  subform e = false →
  dictionary e !! word = None →
  decoder word = c :: cs →
  has (category c) unicode_Lut = false →
  c' ∈ cs → has (category c') unicode_Lut = true →
  dictionary e !! utf8_string (lowercase <$> (c :: cs)) = Some id →
  lookup_word e word = (id, e).
Proof.
  intros Hsub Hdict Hdec HLut Hin Hc' Hid. unfold lookup_word, lookup_heuristic.
  rewrite Hsub, Hdict. f_equal.
  destruct (categories_cons word c cs unicode_Lut Hdec) as [Hfc HoLut].
  pose proof (lowercase_all_string word) as Hla. rewrite Hdec in Hla.
  rewrite Hfc, HoLut, HLut, (existsb_some _ cs c' Hin Hc'), Hla, Hid. done.
Qed.
End HeuristicFacts.

Section RowFacts.
Context {F : Type} `{Scalar F} `{Unilib}.


Lemma weight_negative (e : embedding F) (id : Z) : id < 0 → weight e id = (None, e).
Proof.
  intros Hneg. unfold weight. apply Z.ltb_lt in Hneg. by rewrite Hneg.
Qed.

Lemma unknown_index_rows (e : embedding F) :
  inv e →
  unknown_index e = -1 ∧ rows_loaded e = size (dictionary e)
  ∨ unknown_index e = Z.of_nat (size (dictionary e))
    ∧ rows_loaded e = S (size (dictionary e)).
Proof.
  intros He. unfold rows_loaded.
  destruct (inv_unknown e He) as [Hu|Hu]; rewrite Hu; [left|right].
  - split; [done|]. simpl. lia.
  - split; [done|]. destruct (Z.leb_spec 0 (Z.of_nat (size (dictionary e)))); lia.
Qed.

(** X7: the result of a lookup in a reachable object is either negative,
    and then it is -1, no unknown row was loaded and [weight] gives
    [nullptr] for it, or it is the id of a row of the resulting object,
    for which [weight] gives the row: a loaded row outside subform mode, a
    composed row in subform mode. *)
Theorem lookup_word_row (e : embedding F) (word : string) :
  reachable e → no_overflow (snd (lookup_word e word)) →
  let '(id, e1) := lookup_word e word in
  (id < 0 → id = -1 ∧ unknown_word e = -1 ∧ weight e1 id = (None, e1))
  ∧ (0 ≤ id →
     (Z.to_nat id < rows e1)%nat
     ∧ fst (weight e1 id) = Some (Z.to_nat id * dimension e)%nat
     ∧ (subform e = false → (Z.to_nat id < rows_loaded e)%nat ∧ e1 = e)
     ∧ (subform e = true → composed e1 (Z.to_nat id))).
Proof.
  intros Hreach Hno. pose proof (reachable_inv e Hreach) as He.
  pose proof (lookup_word_inv e word He) as He1.
  pose proof (step_keeps_dictionary e (OpLookup word)) as (Hdict & Hunk & Hdim).
  simpl in Hdict, Hunk, Hdim.
  assert (Hrange : ∀ id, 0 ≤ id →
            (Z.to_nat id < length (subforms (snd (lookup_word e word))))%nat →
            (Z.to_nat id < rows (snd (lookup_word e word)))%nat
            ∧ fst (weight (snd (lookup_word e word)) id)
              = Some (Z.to_nat id * dimension e)%nat).
  { intros id Hpos Hlt. rewrite (inv_rows_eq _ He1). split; [done|].
    rewrite (weight_in_range _ id He1 Hno Hpos Hlt). simpl. by rewrite Hdim. }
  unfold unknown_word.
  destruct (subform e) eqn:Hsub.
  - pose proof (lookup_subform_memoises e word) as Hmemo.
    assert (Hlk : lookup_word e word = lookup_subform e word)
      by (unfold lookup_word; by rewrite Hsub).
    rewrite Hlk in *. destruct (lookup_subform e word) as [id e1]. simpl in *.
    pose proof (inv_memo e1 He1 word id Hmemo) as Hid. simpl in Hid.
    rewrite Hunk in Hid. split.
    + intros Hneg. destruct Hid as [[-> _]|[? _]]; [|lia].
      destruct (inv_unknown e He) as [Hu|Hu]; [|lia].
      rewrite Hu. split; [done|]. split; [done|]. by apply weight_negative.
    + intros Hpos. destruct Hid as [[_ ?]|[_ Hcomp]]; [lia|].
      destruct (Hrange id Hpos) as [? ?]; [apply Hcomp|]. done.
  - assert (Hlk : lookup_word e word = (lookup_heuristic e word, e))
      by (unfold lookup_word; by rewrite Hsub).
    rewrite Hlk in *. simpl in *.
    pose proof (inv_rows e He) as Hrows.
    destruct (unknown_index_rows e He) as [[Hu Hr]|[Hu Hr]];
      (destruct (lookup_heuristic_values e word) as [[key Hkey]|Hid];
         [pose proof (inv_dictionary e He key _ Hkey) as Hb; simpl in Hb|rewrite Hid, Hu]).
    + split; [lia|]. intros Hpos. destruct (Hrange _ Hpos) as [? ?]; [lia|].
      repeat split; try done. lia.
    + split; [intros _; split; [done|]; split; [done|]; by apply weight_negative|lia].
    + split; [lia|]. intros Hpos. destruct (Hrange _ Hpos) as [? ?]; [lia|].
      repeat split; try done. lia.
    + split; [lia|]. intros Hpos. destruct (Hrange _ Hpos) as [? ?]; [lia|].
      repeat split; try done. lia.
Qed.



End RowFacts.

Section CacheFacts.
Context {F : Type} `{Scalar F} `{Unilib}.

(** The slot of a composed id has the flag cell, so it is stale exactly
    when the flag is zero. *)
Lemma stale_flag (e : embedding F) (n : nat) :
  inv e → composed e n →
  stale e (Z.of_nat n) = is_zero ((previous_weights e !!! n) !!! dimension e).
Proof.
  intros He Hcomp.
  destruct (inv_composed e He _ Hcomp) as (l & p & _ & Hp & _ & _ & _ & Hplen).
  unfold stale. rewrite Nat2Z.id, (list_lookup_total_correct _ _ _ Hp).
  rewrite bool_decide_eq_false_2 by lia. done.
Qed.

Lemma materialize_stale (e : embedding F) (id : Z) :
  is_zero f1 = false → inv e → 0 ≤ id → stale e id = true →
  composed e (Z.to_nat id)
  ∧ stale (materialize e id) id = false
  ∧ ∀ id', 0 ≤ id' → id' ≠ id → stale (materialize e id) id' = stale e id'.
Proof.
  intros Hone He Hpos Hstale.
  pose proof (stale_composed e id He Hpos Hstale) as Hcomp.
  destruct (inv_composed e He _ Hcomp) as (l & p & Hl & Hp & _ & _ & _ & Hplen).
  split; [done|]. split.
  - unfold stale. rewrite materialize_previous.
    rewrite list_lookup_total_insert_eq by (eapply lookup_lt_Some; eauto).
    change (dimension (materialize e id)) with (dimension e).
    rewrite list_lookup_total_insert_eq.
    + rewrite Hone. apply andb_false_r.
    + rewrite copy_n_length, (list_lookup_total_correct _ _ _ Hp). lia.
  - intros id' Hpos' Hne. unfold stale. rewrite materialize_previous.
    rewrite list_lookup_total_insert_ne by lia. done.
Qed.

(** X10: fetching a row twice in a row, for an id whose product
    [id * dimension] does not wrap: the second call gives the same
    pointer and changes nothing, whether the first call returned
    [nullptr], gave a loaded row or materialised a composed one.  When the
    first call gives a row, [id] is within [subforms] and
    [previous_weights], so no access of lines 130-142 is out of range. *)
Theorem weight_twice (e : embedding F) (id : Z) :
  is_zero f1 = false → inv e → id * Z.of_nat (dimension e) < 2 ^ 32 →
  weight (snd (weight e id)) id = (fst (weight e id), snd (weight e id))
  ∧ (fst (weight e id) ≠ None →
     0 ≤ id
     ∧ (Z.to_nat id < length (subforms e))%nat
     ∧ (Z.to_nat id < length (previous_weights e))%nat).
Proof.
  intros Hone He Hsmall. split.
  - destruct (weight e id) as [p e1] eqn:Hw. simpl.
    unfold weight in Hw. destruct (_ || _) eqn:Hguard.
    { injection Hw as <- <-. unfold weight. by rewrite Hguard. }
    destruct (subform e) eqn:Hsub; [destruct (stale e id) eqn:Hstale|];
      injection Hw as <- <-.
    + apply orb_false_iff in Hguard as [Hneg Hlen]. pose proof Hneg as Hpos.
      apply Z.ltb_ge in Hpos.
      destruct (materialize_stale e id Hone He Hpos Hstale) as (_ & Hfresh & _).
      unfold weight. rewrite materialize_weights_length.
      change (dimension (materialize e id)) with (dimension e).
      change (subform (materialize e id)) with (subform e).
      rewrite Hneg, Hlen, Hsub, Hfresh. done.
    + unfold weight. by rewrite Hguard, Hsub, Hstale.
    + unfold weight. by rewrite Hguard, Hsub.
  - unfold weight. destruct (_ || _) eqn:Hguard; [done|]. intros _.
    apply orb_false_iff in Hguard as [Hneg Hlen].
    apply Z.ltb_ge in Hneg. apply Z.leb_gt in Hlen.
    pose proof (inv_weights e He) as Hw. pose proof (inv_previous e He) as Hp.
    assert (Hoff : offset (dimension e) id = id * Z.of_nat (dimension e)).
    { unfold offset, uint32. apply Z.mod_small. nia. }
    rewrite Hoff, Hw in Hlen. rewrite Hp. split; [done|]. split; nia.
Qed.

Lemma update_all_previous (l : list Z) (e : embedding F) :
  inv e →
  Forall (fun id => 0 ≤ id ∧ composed e (Z.to_nat id)) l →
  (∀ id, id ∈ l →
     (previous_weights (fold_left update_one l e) !!! Z.to_nat id) !!! dimension e = f0)
  ∧ (∀ n, (∀ id, id ∈ l → Z.to_nat id ≠ n) →
       previous_weights (fold_left update_one l e) !!! n = previous_weights e !!! n).
Proof.
  revert e. induction l as [|a l IH]; intros e He Hl.
  - split; [|done]. intros id Hin. by apply elem_of_nil in Hin.
  - apply Forall_cons in Hl as [[Ha Hcomp] Hl]. simpl.
    destruct (IH (update_one e a)) as (IHf & IHp); [by apply update_one_inv|done|].
    change (dimension (update_one e a)) with (dimension e) in *.
    split.
    + intros id [->|Hin]%elem_of_cons; [|by apply IHf].
      destruct (decide (a ∈ l)) as [Hin|Hnotin]; [by apply IHf|].
      rewrite IHp; [by apply update_one_previous_eq|].
      intros id' Hin Heq. eapply Forall_forall in Hl as [? ?]; [|exact Hin].
      assert (id' = a) as -> by lia. done.
    + intros n Hn. rewrite IHp.
      * apply update_one_previous_ne. intros ->. eapply Hn; [left|done].
      * intros id' Hin. apply Hn. by right.
Qed.

Lemma update_all_composed (l : list Z) (e : embedding F) (n : nat) :
  composed (fold_left update_one l e) n ↔ composed e n.
Proof.
  revert e. induction l as [|a l IH]; intros e; [done|]. simpl.
  rewrite IH. apply update_one_composed.
Qed.

Lemma update_weights_composed (e : embedding F) (n : nat) :
  composed (update_weights e) n ↔ composed e n.
Proof.
  unfold update_weights. destruct (subform e); [|done].
  apply (update_all_composed (active_subforms e) e n).
Qed.

(** After the flush every composed id is stale. *)
Lemma update_weights_stale (e : embedding F) (n : nat) :
  is_zero f0 = true → inv e → fresh_active e → subform e = true →
  composed e n → stale (update_weights e) (Z.of_nat n) = true.
Proof.
  intros Hzero He Hfa Hsub Hcomp.
  pose proof (update_weights_inv e He) as He'.
  rewrite stale_flag; [|done|].
  2:{ by apply update_weights_composed. }
  destruct (update_all_previous (active_subforms e) e He (inv_active e He)) as [Hf Hp].
  destruct (update_all_active (active_subforms e) e) as (_ & Hdim & _).
  unfold update_weights. rewrite Hsub. simpl. rewrite Hdim.
  destruct (decide (Z.of_nat n ∈ active_subforms e)) as [Hin|Hnotin].
  - specialize (Hf _ Hin). rewrite Nat2Z.id in Hf. by rewrite Hf.
  - rewrite Hp.
    + rewrite <- stale_flag by done.
      destruct (stale e (Z.of_nat n)) eqn:Hst; [done|]. by apply Hfa in Hst.
    + intros id Hin <-.
      pose proof (inv_active e He) as Hact.
      eapply Forall_forall in Hact as [? ?]; [|exact Hin].
      rewrite Z2Nat.id in Hnotin by done. done.
Qed.

Lemma compose_stale (e : embedding F) (word : string) (back : list Z) :
  stale (snd (compose e word back)) (Z.of_nat (length (previous_weights e)))
  = is_zero f0.
Proof.
  unfold stale, compose. simpl. rewrite Nat2Z.id.
  rewrite (list_lookup_total_middle (previous_weights e) []) by done.
  rewrite length_replicate, lookup_total_replicate_2 by lia.
  rewrite bool_decide_eq_false_2 by lia. done.
Qed.

Lemma compose_fresh_active (e : embedding F) (word : string) (back : list Z) :
  is_zero f0 = true → inv e → fresh_active e →
  fresh_active (snd (compose e word back)).
Proof.
  intros Hzero He Hfa n [Hge Hlt] Hst.
  pose proof (inv_previous e He) as Hp.
  change (rows_loaded (snd (compose e word back))) with (rows_loaded e) in Hge.
  change (active_subforms (snd (compose e word back))) with (active_subforms e).
  assert (Hlen : (n < S (length (subforms e)))%nat).
  { unfold compose in Hlt. simpl in Hlt. rewrite length_app in Hlt. simpl in Hlt. lia. }
  destruct (decide (n = length (subforms e))) as [->|Hn].
  - rewrite <- Hp, compose_stale, Hzero in Hst. done.
  - apply Hfa; [split; lia|]. rewrite <- Hst. unfold stale, compose. simpl.
    rewrite Nat2Z.id. rewrite lookup_total_app_l by lia. done.
Qed.

Lemma step_fresh_active (e : embedding F) (o : op F) :
  is_zero f0 = true → is_zero f1 = false →
  inv e → fresh_active e → fresh_active (step e o).
Proof.
  intros Hzero Hone He Hfa. destruct o as [word|id| |pos x]; simpl.
  - unfold lookup_word. destruct (subform e); [|done].
    unfold lookup_subform. destruct (decomposed_forms e !! word); [done|].
    destruct (decide _); [destruct (_ <? _); [done|]|];
      by apply compose_fresh_active.
  - unfold weight. destruct (_ || _) eqn:Hguard; [done|]. simpl.
    apply orb_false_iff in Hguard as [Hneg _]. apply Z.ltb_ge in Hneg.
    destruct (subform e); [|done].
    destruct (stale e id) eqn:Hstale; [|done].
    destruct (materialize_stale e id Hone He Hneg Hstale) as (Hcomp & _ & Hother).
    intros n Hn Hst.
    change (active_subforms (materialize e id)) with (active_subforms e ++ [id]).
    apply elem_of_app. destruct (decide (Z.of_nat n = id)) as [<-|Hne].
    + right. apply list_elem_of_here.
    + left. apply Hfa; [done|]. rewrite <- Hst. symmetry. apply Hother; [lia|done].
  - intros n Hn Hst. destruct (subform e) eqn:Hsub.
    + apply (proj1 (update_weights_composed e n)) in Hn.
      rewrite (update_weights_stale e n Hzero He Hfa Hsub Hn) in Hst. done.
    + unfold update_weights in *. rewrite Hsub in *. by apply Hfa.
  - done.
Qed.

Lemma loaded_no_composed (e : embedding F) (n : nat) : loaded e → ¬ composed e n.
Proof.
  intros Hload [Hge Hlt]. pose proof (loaded_inv e Hload) as He.
  rewrite <- (inv_rows_eq e He), (loaded_rows e Hload) in Hlt. lia.
Qed.

Lemma loaded_no_active (e : embedding F) : loaded e → active_subforms e = [].
Proof.
  intros (data & data' & Hload & _). unfold load in Hload.
  destruct (next_4B data) as [[dim data1]|]; [|done].
  destruct (next_4B data1) as [[count data2]|]; [|done].
  destruct (load_dictionary _ _ data2) as [[dict data3]|]; [|done].
  destruct (next_1B data3) as [[unknown data4]|]; [|done].
  destruct (next_1B data4) as [[sub data5]|]; [|done].
  destruct (next_floats _ data5) as [[ws data6]|]; [|done].
  destruct (Nat.eqb _ 0) eqn:Hnz; [done|].
  by injection Hload as <- _.
Qed.

Lemma reachable_cache (e : embedding F) :
  is_zero f0 = true → is_zero f1 = false → reachable e →
  active_fresh e ∧ fresh_active e.
Proof.
  intros Hzero Hone (e0 & ops & Hload & ->).
  assert (Hgen : ∀ e, inv e → active_fresh e → fresh_active e →
                      active_fresh (run ops e) ∧ fresh_active (run ops e)).
  { induction ops as [|o ops IH]; intros e He Hf Hfa; [done|]. simpl.
    apply IH; [by apply step_inv|by apply step_active_fresh
              |by apply step_fresh_active]. }
  apply Hgen; [by apply loaded_inv| |].
  - unfold active_fresh. rewrite (loaded_no_active e0 Hload). split; constructor.
  - intros n Hn. by apply loaded_no_composed in Hn.
Qed.


(** The loop over the active ids, on the composed rows: the row of an
    updated id holds its delta, the others are as they were. *)
Lemma update_all_rows (l : list Z) (e : embedding F) :
  inv e → no_overflow e → NoDup l →
  Forall (fun id => 0 ≤ id ∧ composed e (Z.to_nat id)) l →
  ∀ r j, composed e r → (j < dimension e)%nat →
    weights (fold_left update_one l e) !!! (r * dimension e + j)%nat
    = if decide (Z.of_nat r ∈ l) then delta_cell e (Z.of_nat r) j
      else weights e !!! (r * dimension e + j)%nat.
Proof.
  intros He Hno Hnd. revert e He Hno.
  induction Hnd as [|id l Hid Hnd IH]; intros e He Hno Hl r j Hr Hj.
  - cbn [fold_left]. destruct (decide _) as [Hin|_]; [by apply elem_of_nil in Hin|done].
  - apply Forall_cons in Hl as [[Hid0 Hcomp] Hl]. simpl.
    rewrite (IH (update_one e id)); [|by apply update_one_inv
      |by apply update_one_no_overflow|done|done|done].
    change (dimension (update_one e id)) with (dimension e).
    destruct (decide (Z.of_nat r ∈ l)) as [Hin|Hnotin].
    + rewrite decide_True by (by right).
      apply delta_cell_update_one; try done; [lia|by rewrite Nat2Z.id|].
      intros Heq. by rewrite Heq in Hin.
    + rewrite update_one_lookup by done.
      destruct (decide (r = Z.to_nat id)) as [->|Hne].
      * rewrite Z2Nat.id by done. rewrite decide_True by (by left). done.
      * rewrite (decide_False (P := Z.of_nat r ∈ id :: l)).
        2:{ intros [Heq|Hin]%elem_of_cons; [|done]. apply Hne.
            by rewrite <- Heq, Nat2Z.id. }
        rewrite decide_False; [done|].
        destruct (inv_composed e He _ Hcomp) as (l0 & p & Hl0 & _ & _ & _ & Hplain & _).
        rewrite (list_lookup_total_correct _ _ _ Hl0). intros Hin.
        eapply Forall_forall in Hplain; [|exact Hin]. destruct Hr. lia.
Qed.

(** X13: after [update_weights] on a reachable object in subform mode,
    every composed id is stale again, the row of every id that was active
    holds its delta (not its value) until it is fetched again, the other
    composed rows are untouched, and a second [update_weights] changes
    nothing. *)
Theorem update_weights_resets (e : embedding F) :
  is_zero f0 = true → is_zero f1 = false →
  reachable e → no_overflow e → subform e = true →
  let e' := update_weights e in
  (∀ n, composed e n → composed e' n ∧ stale e' (Z.of_nat n) = true)
  ∧ (∀ id, id ∈ active_subforms e →
       row e' (Z.to_nat id) = delta_computed e (Z.to_nat id))
  ∧ (∀ n, composed e n → Z.of_nat n ∉ active_subforms e → row e' n = row e n)
  ∧ update_weights e' = e'.
Proof.
  intros Hzero Hone Hreach Hno Hsub e'. pose proof (reachable_inv e Hreach) as He.
  destruct (reachable_cache e Hzero Hone Hreach) as [[Hnd _] Hfa].
  pose proof (inv_active e He) as Hact.
  pose proof (update_all_rows (active_subforms e) e He Hno Hnd Hact) as Hrows.
  destruct (update_all_active (active_subforms e) e) as (_ & Hdim & Hlen).
  pose proof (inv_weights e He) as Hw.
  assert (He' : weights e' = weights (fold_left update_one (active_subforms e) e)
                ∧ dimension e' = dimension e).
  { unfold e', update_weights. rewrite Hsub. simpl. by rewrite Hdim. }
  destruct He' as [Hwe' Hde'].
  assert (Hrow : ∀ n, composed e n →
            length (row e' n) = dimension e
            ∧ ∀ j, (j < dimension e)%nat →
                row e' n !!! j
                = if decide (Z.of_nat n ∈ active_subforms e)
                  then delta_cell e (Z.of_nat n) j
                  else row e n !!! j).
  { intros n Hn. split.
    - unfold row. rewrite <- Hde'. apply row_at_length.
      rewrite Hwe', Hlen, Hde', Hw. destruct Hn. nia.
    - intros j Hj. unfold row. rewrite !row_at_lookup by (rewrite ?Hde'; done).
      rewrite Hwe', Hde'. by apply Hrows. }
  split; [|split; [|split]].
  - intros n Hn. split; [by apply update_weights_composed|].
    by apply update_weights_stale.
  - intros id Hin. eapply Forall_forall in Hact as [Hpos Hcomp]; [|exact Hin].
    destruct (Hrow _ Hcomp) as [Hl Hc].
    apply list_eq_total.
    + rewrite Hl. symmetry. apply (delta_lookup e id 0 He Hpos Hcomp).
      pose proof (inv_dimension e He). lia.
    + intros j Hj. rewrite Hl in Hj. rewrite Hc by done.
      rewrite Z2Nat.id by done. rewrite decide_True by done.
      symmetry. by apply delta_lookup.
  - intros n Hn Hnotin. destruct (Hrow _ Hn) as [Hl Hc].
    apply list_eq_total.
    + rewrite Hl. symmetry. apply row_at_length. rewrite Hw. destruct Hn. nia.
    + intros j Hj. rewrite Hl in Hj. rewrite Hc by done. by rewrite decide_False.
  - assert (Hs : subform e' = true)
      by (unfold e'; rewrite <- Hsub; apply (step_keeps_subform e OpUpdate)).
    assert (Hact' : active_subforms e' = [])
      by (unfold e', update_weights; by rewrite Hsub).
    unfold update_weights at 1. rewrite Hs, Hact'. simpl.
    unfold e', update_weights. rewrite Hsub. done.
Qed.
End CacheFacts.

Section ReloadFacts.
Context {F : Type} `{Scalar F} `{Unilib}.

(** [load] on a stream of the accepted shape, on any object. *)
Lemma load_stream (e0 : embedding F) (dim : N) (words : list string)
    (unknown sub : N) (ws : list F) (rest : list (field F)) :
  N.to_nat dim ≠ 0%nat →
  length ws = (N.to_nat dim
               * (distinct words + (if (unknown =? 0)%N then 0 else 1)))%nat →
  load e0 (stream dim (N.of_nat (length words)) words unknown sub ws rest)
  = Some (Embedding (N.to_nat dim) int_max
            (if (unknown =? 0)%N then -1 else Z.of_nat (distinct words))
            (dictionary_of words) (negb (sub =? 0)%N) ws
            (resize (length ws / N.to_nat dim) (subforms e0))
            (resize (length ws / N.to_nat dim) (previous_weights e0))
            (active_subforms e0) (decomposed_forms e0),
          rest).
Proof.
  intros Hnz Hlen. unfold load, stream. simpl.
  rewrite (proj2 (load_dictionary_spec _ ∅ (dictionary_of words) _
                    (Field1B unknown :: Field1B sub :: (FieldFloat <$> ws) ++ rest))).
  2:{ exists words. split; [by rewrite Nat2N.id|done]. }
  simpl. rewrite unknown_row, dictionary_of_size.
  rewrite (proj2 (next_floats_spec _ _ rest ws)) by done.
  by destruct (Nat.eqb_spec (N.to_nat dim) 0).
Qed.

(** X17: loading and looking up.  From a stream of pairwise distinct
    words without the subform flag, [load] builds an object in which the
    word at position [i] resolves to the id [i], and [weight] gives for
    that id the [i]-th group of [dimension] floats of the stream, without
    changing the object. *)
Theorem load_lookup_weight (dim : N) (words : list string) (unknown : N)
    (ws : list F) (rest : list (field F)) (i : nat) (word : string) :
  NoDup words → words !! i = Some word →
  length ws = (N.to_nat dim
               * (length words + (if (unknown =? 0)%N then 0 else 1)))%nat →
  Z.of_nat (length ws) ≤ 2 ^ 32 →
  N.to_nat dim ≠ 0%nat →
  ∃ e, load embedding_new
         (stream dim (N.of_nat (length words)) words unknown 0%N ws rest)
       = Some (e, rest)
       ∧ lookup_word e word = (Z.of_nat i, e)
       ∧ weight e (Z.of_nat i) = (Some (i * N.to_nat dim)%nat, e)
       ∧ row e i = take (N.to_nat dim) (drop (i * N.to_nat dim) ws).
Proof.
  intros Hnd Hi Hlen Hno Hdim.
  pose proof (distinct_NoDup words Hnd) as Hdist.
  eexists. split; [apply load_stream; [done|by rewrite Hdist]|].
  pose proof (lookup_lt_Some _ _ _ Hi) as Hlt.
  split; [|split].
  - unfold lookup_word, lookup_heuristic. simpl.
    by rewrite (dictionary_of_NoDup words i word Hnd Hi).
  - unfold weight. simpl.
    assert (Hoff : offset (N.to_nat dim) (Z.of_nat i)
                   = Z.of_nat (i * N.to_nat dim)).
    { unfold offset, uint32. rewrite Z.mod_small; nia. }
    rewrite Hoff, Nat2Z.id.
    rewrite (proj2 (Z.ltb_ge _ _)) by lia.
    rewrite (proj2 (Z.leb_gt _ _)) by nia. done.
  - done.
Qed.

(** X18: [load] on an object that was already used.  The memo of
    resolved words and the active ids are not cleared, and the subform
    lists of the ids below the new number of rows are kept, so in subform
    mode a word memoised before the call still resolves to its old id,
    whatever the new dictionary holds. *)
Theorem load_keeps_memo (e e' : embedding F) (data data' : list (field F)) :
  load e data = Some (e', data') →
  decomposed_forms e' = decomposed_forms e
  ∧ active_subforms e' = active_subforms e
  ∧ (∀ n l, (n < length (weights e') / dimension e')%nat →
            subforms e !! n = Some l → subforms e' !! n = Some l)
  ∧ (subform e' = true →
     ∀ word id, decomposed_forms e !! word = Some id →
                lookup_word e' word = (id, e')).
Proof.
  unfold load.
  destruct (next_4B data) as [[dim data1]|]; [|done].
  destruct (next_4B data1) as [[count data2]|]; [|done].
  destruct (load_dictionary _ _ data2) as [[dict data3]|]; [|done].
  destruct (next_1B data3) as [[unknown data4]|]; [|done].
  destruct (next_1B data4) as [[sub data5]|]; [|done].
  destruct (next_floats _ data5) as [[ws data6]|]; [|done].
  destruct (Nat.eqb _ 0) eqn:Hnz; [done|].
  intros [= <- <-]. simpl. split; [done|]. split; [done|]. split.
  - intros n l Hn Hl. unfold resize.
    pose proof (lookup_lt_Some _ _ _ Hl) as Hlt.
    rewrite lookup_app_l by (rewrite length_take; lia).
    by rewrite lookup_take_lt.
  - intros Hsub word id Hmemo. unfold lookup_word, lookup_subform. simpl.
    by rewrite Hsub, Hmemo.
Qed.
End ReloadFacts.

Section StreamFacts.
Context {F : Type}.

(** The shape of a stream that [load] accepts, on any object. *)
Lemma load_shape (e0 e : embedding F) (data data' : list (field F)) :
  load e0 data = Some (e, data') →
  ∃ dim words unknown sub ws,
    data = stream dim (N.of_nat (length words)) words unknown sub ws data'
    ∧ N.to_nat dim ≠ 0%nat
    ∧ length ws = (N.to_nat dim
                   * (distinct words + (if (unknown =? 0)%N then 0 else 1)))%nat.
Proof.
  unfold load, stream.
  destruct data as [|[dim| | |] data]; try done. simpl.
  destruct data as [|[count| | |] data]; try done. simpl.
  destruct (load_dictionary _ _ data) as [[dict data3]|] eqn:Hdict; [|done].
  apply load_dictionary_spec in Hdict as (words & Hwords & -> & ->).
  destruct data3 as [|[|unknown| |] data3]; try done. simpl.
  destruct data3 as [|[|sub| |] data3]; try done. simpl.
  destruct (next_floats _ data3) as [[ws data6]|] eqn:Hws; [|done].
  destruct (Nat.eqb_spec (N.to_nat dim) 0) as [|Hnz]; [done|].
  apply next_floats_spec in Hws as (Hlen & ->).
  intros [= <- <-].
  exists dim, words, unknown, sub, ws.
  fold (dictionary_of words) in *.
  rewrite unknown_row, dictionary_of_size in Hlen.
  split; [by rewrite Hwords, N2Nat.id|done].
Qed.

Lemma stream_app (dim count : N) (words : list string) (unknown sub : N)
    (ws : list F) (rest : list (field F)) :
  stream dim count words unknown sub ws rest
  = stream dim count words unknown sub ws [] ++ rest.
Proof.
  unfold stream. simpl. do 2 f_equal. rewrite <- app_assoc. simpl.
  do 3 f_equal. by rewrite app_nil_r.
Qed.

(** Two accepted shapes that start the same stream are the same. *)
Lemma stream_inj (dim1 dim2 : N) (words1 words2 : list string)
    (unknown1 unknown2 sub1 sub2 : N) (ws1 ws2 : list F)
    (rest1 rest2 : list (field F)) :
  stream dim1 (N.of_nat (length words1)) words1 unknown1 sub1 ws1 rest1
  = stream dim2 (N.of_nat (length words2)) words2 unknown2 sub2 ws2 rest2 →
  length ws1 = (N.to_nat dim1
                * (distinct words1 + (if (unknown1 =? 0)%N then 0 else 1)))%nat →
  length ws2 = (N.to_nat dim2
                * (distinct words2 + (if (unknown2 =? 0)%N then 0 else 1)))%nat →
  dim1 = dim2 ∧ words1 = words2 ∧ unknown1 = unknown2 ∧ sub1 = sub2
  ∧ ws1 = ws2 ∧ rest1 = rest2.
Proof.
  unfold stream. intros Heq Hl1 Hl2.
  assert (Hstr : Inj (=) (=) (@FieldStr F)) by (intros ?? [=]; done).
  assert (Hfloat : Inj (=) (=) (@FieldFloat F)) by (intros ?? [=]; done).
  injection Heq as -> Hcount Heq. apply Nat2N.inj in Hcount.
  apply app_inj_1 in Heq as [Hw Heq]; [|by rewrite !length_fmap].
  apply (list_fmap_eq_inj FieldStr Hstr) in Hw as ->.
  injection Heq as -> -> Heq.
  apply app_inj_1 in Heq as [Hws ->]; [|rewrite !length_fmap; congruence].
  apply (list_fmap_eq_inj FieldFloat Hfloat) in Hws as ->. done.
Qed.

(** X16: [load] reads exactly the fields of its section.  When it
    succeeds on [used ++ data'] and leaves [data'], it gives the same
    object whatever follows [used], and it fails on every stream cut
    short inside [used]. *)
Theorem load_prefix_free (e0 e : embedding F) (used data' : list (field F)) :
  load e0 (used ++ data') = Some (e, data') →
  (∀ rest, load e0 (used ++ rest) = Some (e, rest))
  ∧ (∀ p q, used = p ++ q → q ≠ [] → load e0 p = None).
Proof.
  intros Hload.
  destruct (load_shape _ _ _ _ Hload)
    as (dim & words & unknown & sub & ws & Hdata & Hnz & Hlen).
  rewrite stream_app in Hdata. apply app_inv_tail in Hdata as ->.
  pose proof (load_stream e0 dim words unknown sub ws data' Hnz Hlen) as Hforward.
  rewrite <- stream_app, Hforward in Hload. injection Hload as <-.
  split.
  - intros rest. rewrite <- stream_app. by apply load_stream.
  - intros p q Hused Hq.
    destruct (load e0 p) as [[e2 rest2]|] eqn:Hp; [|done].
    destruct (load_shape _ _ _ _ Hp)
      as (dim2 & words2 & unknown2 & sub2 & ws2 & -> & _ & Hlen2).
    rewrite (stream_app _ _ _ _ _ _ rest2), <- app_assoc, <- stream_app in Hused.
    apply stream_inj in Hused as (_ & _ & _ & _ & _ & Hnil); [|done|done].
    symmetry in Hnil. apply app_eq_nil in Hnil as [_ ->]. done.
Qed.
End StreamFacts.

Section FlushFacts.
Context {F : Type} `{Scalar F} `{Unilib}.

(** X14: a flush that finds every delta zero leaves unchanged every
    loaded row whose cells are not changed by the addition of zero (in
    binary32 these are all cells but the negative zero,
    [binary32_add_zero]). *)
Theorem update_weights_zero_delta (e : embedding F) (c : nat) :
  is_zero f1 = false →
  reachable e → no_overflow e → subform e = true →
  (∀ id, id ∈ active_subforms e →
         delta_computed e (Z.to_nat id) = replicate (dimension e) f0) →
  (c < rows_loaded e)%nat →
  (∀ x, x ∈ row e c → fadd x f0 = x) →
  row (update_weights e) c = row e c.
Proof.
  intros Hone Hreach Hno Hsub Hzero Hc Hadd.
  pose proof (reachable_inv e Hreach) as He.
  pose proof (reachable_active_NoDup e Hone Hreach) as Hnd.
  pose proof (inv_active e He) as Hact.
  destruct (update_all_lookup (active_subforms e) e He Hno Hnd Hact) as (Hcell & _ & _).
  destruct (update_all_active (active_subforms e) e) as (_ & Hdim & Hlen).
  pose proof (inv_weights e He) as Hw. pose proof (inv_rows e He) as Hrows.
  assert (He' : weights (update_weights e)
                = weights (fold_left update_one (active_subforms e) e)
                ∧ dimension (update_weights e) = dimension e).
  { unfold update_weights. rewrite Hsub. simpl. by rewrite Hdim. }
  destruct He' as [Hwe' Hde'].
  assert (Hrl : length (row e c) = dimension e).
  { apply row_at_length. rewrite Hw. nia. }
  apply list_eq_total.
  - rewrite Hrl, <- Hde'. apply row_at_length. rewrite Hwe', Hlen, Hde', Hw. nia.
  - intros j Hj.
    assert (Hjd : (j < dimension e)%nat).
    { unfold row in Hj. rewrite row_at_length in Hj; [by rewrite <- Hde'|].
      rewrite Hwe', Hlen, Hde', Hw. nia. }
    assert (Hx : fadd (weights e !!! (c * dimension e + j)%nat) f0
                 = weights e !!! (c * dimension e + j)%nat).
    { apply Hadd. rewrite <- (row_at_lookup e (c * dimension e) j Hjd).
      apply list_elem_of_lookup_total_2. by rewrite Hrl. }
    unfold row. rewrite !row_at_lookup by (rewrite ?Hde'; done).
    rewrite Hwe', Hde', Hcell by done.
    assert (Hfold : ∀ l,
              (∀ id, id ∈ l → id ∈ active_subforms e) →
              fold_left
                (fun acc id =>
                   if decide (Z.of_nat c ∈ subforms e !!! Z.to_nat id)
                   then fadd acc (delta_cell e id j) else acc)
                l (weights e !!! (c * dimension e + j)%nat)
              = weights e !!! (c * dimension e + j)%nat).
    { induction l as [|id l IH]; intros Hin; [done|]. cbn [fold_left].
      assert (Hid : id ∈ active_subforms e) by (apply Hin; by left).
      pose proof (proj1 (Forall_forall _ _) Hact id Hid) as [Hpos Hcomp].
      destruct (delta_lookup e id j He Hpos Hcomp Hjd) as [_ Hd].
      rewrite (Hzero id Hid), lookup_total_replicate_2 in Hd by done.
      rewrite <- Hd, Hx.
      destruct (decide _); apply IH; intros id' Hid'; apply Hin; by right. }
    by apply Hfold.
Qed.
End FlushFacts.

Section PointerFacts.
Context {F : Type} `{Scalar F} `{Unilib}.

(** X11: the pointer that the non-const [weight] returns for an id in
    range gives access to the row of that id and to nothing else: a store
    at offset [j < dimension] from it replaces cell [j] of that row and
    leaves every other row as it is. *)
Theorem weight_pointer_row (e : embedding F) (id : Z) (j : nat) (x : F) :
  inv e → no_overflow e → 0 ≤ id < Z.of_nat (rows e) → (j < dimension e)%nat →
  ∃ p, fst (weight e id) = Some p
       ∧ let e1 := snd (weight e id) in
         let e2 := step e1 (OpStore (p + j) x) in
         row e2 (Z.to_nat id) = <[j := x]> (row e1 (Z.to_nat id))
         ∧ ∀ r, r ≠ Z.to_nat id → (r < rows e)%nat → row e2 r = row e1 r.
Proof.
  intros He Hno [Hpos Hlt] Hj. rewrite (inv_rows_eq e He) in *.
  assert (Hn : (Z.to_nat id < length (subforms e))%nat) by lia.
  pose proof (weight_in_range e id He Hno Hpos Hn) as Hw.
  pose proof (weight_inv e id He) as He1.
  pose proof (step_keeps_dictionary e (OpWeight id)) as (_ & _ & Hdim).
  pose proof (step_subforms_prefix e (OpWeight id)) as Hpre.
  simpl in Hdim, Hpre. apply prefix_length in Hpre.
  pose proof (inv_weights _ He1) as Hlen. rewrite Hdim in Hlen.
  exists (Z.to_nat id * dimension e)%nat. split; [by rewrite Hw|].
  set (e1 := snd (weight e id)) in *. simpl.
  set (n := Z.to_nat id) in *.
  assert (Hrow : ∀ r, (r < length (subforms e))%nat →
            length (row e1 r) = dimension e
            ∧ length (row (set_weights e1 (<[(n * dimension e + j)%nat := x]> (weights e1))) r)
              = dimension e
            ∧ ∀ k, (k < dimension e)%nat →
                row (set_weights e1 (<[(n * dimension e + j)%nat := x]> (weights e1))) r !!! k
                = if decide (r = n ∧ k = j) then x else row e1 r !!! k).
  { intros r Hr. split; [|split].
    - rewrite <- Hdim. apply row_at_length. rewrite Hdim, Hlen. nia.
    - rewrite <- Hdim. apply (row_at_length (set_weights e1 _)). simpl.
      rewrite length_insert, Hdim, Hlen. nia.
    - intros k Hk. unfold row. rewrite !row_at_lookup by (simpl; rewrite ?Hdim; done).
      simpl. rewrite Hdim.
      destruct (decide (r = n ∧ k = j)) as [[-> ->]|Hne].
      + apply list_lookup_total_insert_eq. rewrite Hlen. nia.
      + apply list_lookup_total_insert_ne. intros Heq.
        apply Hne. assert (r = n) by nia. split; [done|]. subst r. lia. }
  split.
  - destruct (Hrow n Hn) as (Hl1 & Hl2 & Hc).
    apply list_eq_total; [by rewrite length_insert, Hl1, Hl2|].
    intros k Hk. rewrite Hl2 in Hk. rewrite Hc by done.
    destruct (decide (k = j)) as [->|Hkj].
    + rewrite decide_True by done. symmetry.
      apply list_lookup_total_insert_eq. by rewrite Hl1.
    + rewrite decide_False by (intros [_ ?]; done).
      symmetry. by apply list_lookup_total_insert_ne.
  - intros r Hne Hr. destruct (Hrow r Hr) as (Hl1 & Hl2 & Hc).
    apply list_eq_total; [by rewrite Hl1, Hl2|].
    intros k Hk. rewrite Hl2 in Hk. rewrite Hc by done.
    by rewrite decide_False by (intros [? _]; done).
Qed.
End PointerFacts.

Section PlainFacts.
Context {F : Type} `{Scalar F} `{Unilib}.

(** X15: outside subform mode the member functions are really
    [const]: no sequence of calls of [lookup_word], [weight] and
    [update_weights] changes the object. *)
Theorem plain_mode_const (e : embedding F) (ops : list (op F)) :
  subform e = false → Forall (fun o => is_store o = false) ops →
  run ops e = e.
Proof.
  intros Hsub Hops. induction Hops as [|o ops Ho _ IH]; [done|]. simpl.
  assert (Hstep : step e o = e).
  { destruct o as [word|id| |pos x]; simpl.
    - unfold lookup_word. by rewrite Hsub.
    - unfold weight. rewrite Hsub. by destruct (_ || _).
    - unfold update_weights. by rewrite Hsub.
    - done. }
  by rewrite Hstep.
Qed.
End PlainFacts.

Section ConcreteFurther.
Import Examples.

Lemma ascii_decode_splits : decode_splits.
Proof. intros [|a s] Hs; [done|]. by exists a, EmptyString. Qed.

Lemma reachable_loaded {F} `{Scalar F} `{Unilib} (e : embedding F) :
  loaded e → reachable e.
Proof. intros Hload. by exists e, []. Qed.

Lemma loaded_the : loaded the.
Proof. exists the_stream, []. split; [vm_compute; reflexivity|vm_compute; lia]. Qed.

Lemma loaded_wide : loaded wide.
Proof. exists wide_stream, []. split; [vm_compute; reflexivity|vm_compute; lia]. Qed.

Lemma subforms_of_ngrams_witness :
  decode_splits
  ∧ join (chunks (word_bow_eow "cats")) = word_bow_eow "cats"
  ∧ Forall (fun c => string_empty c = false) (chunks (word_bow_eow "cats"))
  ∧ subforms_of (dictionary cat_dog) "cats"
    = omap (fun g => dictionary cat_dog !! g) (ngrams (chunks (word_bow_eow "cats")))
  ∧ ngrams (chunks (word_bow_eow "cats"))
    = ["<c"; "<ca"; "<cat"; "ca"; "cat"; "cats"; "at"; "ats"; "ats>";
       "ts"; "ts>"; "s>"]
  ∧ subforms_of (dictionary cat_dog) "cats" = [0].
Proof.
  pose proof (subforms_of_ngrams (dictionary cat_dog) "cats" ascii_decode_splits)
    as (Hjoin & Hne & Hsub).
  split; [exact ascii_decode_splits|]. split; [exact Hjoin|]. split; [exact Hne|].
  split; [exact Hsub|].
  split; vm_compute; reflexivity.
Defined.


Lemma lookup_word_row_witness :
  reachable cat_dog_unknown
  ∧ no_overflow (snd (lookup_word cat_dog_unknown "cats"))
  ∧ let '(id, e1) := lookup_word cat_dog_unknown "cats" in
    (id < 0 → id = -1 ∧ unknown_word cat_dog_unknown = -1
              ∧ weight e1 id = (None, e1))
    ∧ (0 ≤ id →
       (Z.to_nat id < rows e1)%nat
       ∧ fst (weight e1 id) = Some (Z.to_nat id * dimension cat_dog_unknown)%nat
       ∧ (subform cat_dog_unknown = false →
          (Z.to_nat id < rows_loaded cat_dog_unknown)%nat ∧ e1 = cat_dog_unknown)
       ∧ (subform cat_dog_unknown = true → composed e1 (Z.to_nat id))).
Proof.
  assert (Hreach : reachable cat_dog_unknown)
    by apply reachable_loaded, loaded_cat_dog_unknown.
  assert (Hno : no_overflow (snd (lookup_word cat_dog_unknown "cats")))
    by (vm_compute; discriminate).
  pose proof (lookup_word_row cat_dog_unknown "cats" Hreach Hno) as Hthm.
  split; [exact Hreach|]. split; [exact Hno|]. exact Hthm.
Defined.

Lemma lookup_word_unknown_witness :
  subform the = false
  ∧ dictionary the !! "xyz" = None
  ∧ (∀ c, c ∈ decoder "xyz" → has (category c) unicode_Lut = false)
  ∧ (∀ c cs, decoder "xyz" = c :: cs → has (category c) unicode_N = true →
             ∃ c', c' ∈ cs ∧ has (category c') unicode_L = true)
  ∧ lookup_word the "xyz" = (unknown_word the, the)
  ∧ unknown_word the = 3.
Proof.
  assert (Hsub : subform the = false) by (vm_compute; reflexivity).
  assert (Hdict : dictionary the !! "xyz" = None) by (vm_compute; reflexivity).
  assert (Hdec : decoder "xyz" = [120; 121; 122]) by (vm_compute; reflexivity).
  assert (Hlow : ∀ c, c ∈ decoder "xyz" → has (category c) unicode_Lut = false).
  { intros c Hc. rewrite Hdec in Hc.
    repeat (apply elem_of_cons in Hc as [->|Hc]; [vm_compute; reflexivity|]).
    destruct (not_elem_of_nil _ Hc). }
  assert (Hnum : ∀ c cs, decoder "xyz" = c :: cs → has (category c) unicode_N = true →
                         ∃ c', c' ∈ cs ∧ has (category c') unicode_L = true).
  { intros c cs Hcs HN. rewrite Hdec in Hcs. injection Hcs as <- <-.
    assert (Hf : has (category 120) unicode_N = false) by (vm_compute; reflexivity).
    rewrite Hf in HN. discriminate HN. }
  pose proof (lookup_word_unknown the "xyz" Hsub Hdict Hlow Hnum) as Hthm.
  split; [exact Hsub|]. split; [exact Hdict|]. split; [exact Hlow|].
  split; [exact Hnum|]. split; [exact Hthm|]. vm_compute. reflexivity.
Defined.

Lemma lookup_word_number_witness :
  subform numbers = false
  ∧ dictionary numbers !! "2024" = None
  ∧ decoder "2024" = [50; 48; 50; 52]
  ∧ has (category 50) unicode_N = true
  ∧ has (category 50) unicode_Lut = false
  ∧ (∀ c', c' ∈ [48; 50; 52] → has (category c') unicode_L = false
                                ∧ has (category c') unicode_Lut = false)
  ∧ lookup_word numbers "2024"
    = (match dictionary numbers !! utf8_encode (utf8_first "2024") with
       | Some id => id
       | None => unknown_word numbers
       end, numbers)
  ∧ dictionary numbers !! utf8_encode (utf8_first "2024") = Some 0.
Proof.
  assert (Hsub : subform numbers = false) by (vm_compute; reflexivity).
  assert (Hdict : dictionary numbers !! "2024" = None) by (vm_compute; reflexivity).
  assert (Hdec : decoder "2024" = [50; 48; 50; 52]) by (vm_compute; reflexivity).
  assert (HN : has (category 50) unicode_N = true) by (vm_compute; reflexivity).
  assert (HLut : has (category 50) unicode_Lut = false) by (vm_compute; reflexivity).
  assert (Hrest : ∀ c', c' ∈ [48; 50; 52] → has (category c') unicode_L = false
                                            ∧ has (category c') unicode_Lut = false).
  { intros c' Hc.
    repeat (apply elem_of_cons in Hc as [->|Hc];
            [split; vm_compute; reflexivity|]).
    destruct (not_elem_of_nil _ Hc). }
  pose proof (lookup_word_number numbers "2024" 50 [48; 50; 52]
                Hsub Hdict Hdec HN HLut Hrest) as Hthm.
  split; [exact Hsub|]. split; [exact Hdict|]. split; [exact Hdec|].
  split; [exact HN|]. split; [exact HLut|]. split; [exact Hrest|].
  split; [exact Hthm|]. vm_compute. reflexivity.
Defined.

Lemma lookup_word_inner_capital_witness :
  subform the = false
  ∧ dictionary the !! "tHe" = None
  ∧ decoder "tHe" = [116; 72; 101]
  ∧ has (category 116) unicode_Lut = false
  ∧ 72 ∈ [72; 101] ∧ has (category 72) unicode_Lut = true
  ∧ dictionary the !! utf8_string (lowercase <$> [116; 72; 101]) = Some 0
  ∧ lookup_word the "tHe" = (0, the).
Proof.
  assert (Hsub : subform the = false) by (vm_compute; reflexivity).
  assert (Hdict : dictionary the !! "tHe" = None) by (vm_compute; reflexivity).
  assert (Hdec : decoder "tHe" = [116; 72; 101]) by (vm_compute; reflexivity).
  assert (HLut : has (category 116) unicode_Lut = false) by (vm_compute; reflexivity).
  assert (Hin : 72 ∈ [72; 101]) by apply list_elem_of_here.
  assert (Hc' : has (category 72) unicode_Lut = true) by (vm_compute; reflexivity).
  assert (Hid : dictionary the !! utf8_string (lowercase <$> [116; 72; 101]) = Some 0)
    by (vm_compute; reflexivity).
  pose proof (lookup_word_inner_capital the "tHe" 116 72 [72; 101] 0
                Hsub Hdict Hdec HLut Hin Hc' Hid) as Hthm.
  split; [exact Hsub|]. split; [exact Hdict|]. split; [exact Hdec|].
  split; [exact HLut|]. split; [exact Hin|]. split; [exact Hc'|].
  split; [exact Hid|]. exact Hthm.
Defined.



Lemma weight_twice_witness :
  is_zero (f1 : Q) = false ∧ inv with_cats
  ∧ 3 * Z.of_nat (dimension with_cats) < 2 ^ 32
  ∧ weight (snd (weight with_cats 3)) 3
    = (fst (weight with_cats 3), snd (weight with_cats 3))
  ∧ (fst (weight with_cats 3) ≠ None →
     0 ≤ 3
     ∧ (Z.to_nat 3 < length (subforms with_cats))%nat
     ∧ (Z.to_nat 3 < length (previous_weights with_cats))%nat)
  ∧ snd (weight with_cats 3) ≠ with_cats.
Proof.
  assert (Hone : is_zero (f1 : Q) = false) by reflexivity.
  assert (Hinv : inv with_cats) by apply reachable_inv, reachable_with_cats.
  assert (Hsmall : 3 * Z.of_nat (dimension with_cats) < 2 ^ 32)
    by (vm_compute; reflexivity).
  pose proof (weight_twice with_cats 3 Hone Hinv Hsmall) as [Hthm Hrange].
  split; [exact Hone|]. split; [exact Hinv|]. split; [exact Hsmall|].
  split; [exact Hthm|]. split; [exact Hrange|].
  intros Heq. apply (f_equal active_subforms) in Heq.
  assert (Hl : active_subforms (snd (weight with_cats 3)) = [3])
    by (vm_compute; reflexivity).
  assert (Hr : active_subforms with_cats = []) by (vm_compute; reflexivity).
  rewrite Hl, Hr in Heq. discriminate Heq.
Defined.


Lemma update_weights_resets_witness :
  is_zero (f0 : Q) = true ∧ is_zero (f1 : Q) = false
  ∧ reachable trained ∧ no_overflow trained ∧ subform trained = true
  ∧ let e' := update_weights trained in
    (∀ n, composed trained n → composed e' n ∧ stale e' (Z.of_nat n) = true)
    ∧ (∀ id, id ∈ active_subforms trained →
         row e' (Z.to_nat id) = delta_computed trained (Z.to_nat id))
    ∧ (∀ n, composed trained n → Z.of_nat n ∉ active_subforms trained →
         row e' n = row trained n)
    ∧ update_weights e' = e'.
Proof.
  assert (Hzero : is_zero (f0 : Q) = true) by reflexivity.
  assert (Hone : is_zero (f1 : Q) = false) by reflexivity.
  assert (Hno : no_overflow trained) by (vm_compute; discriminate).
  assert (Hsub : subform trained = true) by (vm_compute; reflexivity).
  pose proof (update_weights_resets trained Hzero Hone reachable_trained Hno Hsub)
    as Hthm.
  split; [exact Hzero|]. split; [exact Hone|]. split; [exact reachable_trained|].
  split; [exact Hno|]. split; [exact Hsub|]. exact Hthm.
Defined.

Lemma load_prefix_free_witness :
  load embedding_new (cat_dog_stream ++ []) = Some (cat_dog, [])
  ∧ (∀ rest, load embedding_new (cat_dog_stream ++ rest) = Some (cat_dog, rest))
  ∧ (∀ p q, cat_dog_stream = p ++ q → q ≠ [] → load embedding_new p = None).
Proof.
  assert (Hload : load embedding_new (cat_dog_stream ++ []) = Some (cat_dog, []))
    by (vm_compute; reflexivity).
  pose proof (load_prefix_free embedding_new cat_dog cat_dog_stream [] Hload)
    as [Hrest Hcut].
  split; [exact Hload|]. split; [exact Hrest|exact Hcut].
Defined.

Lemma load_lookup_weight_witness :
  NoDup ["cat"; "dog"] ∧ ["cat"; "dog"] !! 1%nat = Some "dog"
  ∧ length [1%Q; 0%Q; 0%Q; 1%Q; 3%Q; 5%Q]
    = (N.to_nat 2 * (length ["cat"; "dog"] + (if (1 =? 0)%N then 0 else 1)))%nat
  ∧ Z.of_nat (length [1%Q; 0%Q; 0%Q; 1%Q; 3%Q; 5%Q]) ≤ 2 ^ 32
  ∧ N.to_nat 2 ≠ 0%nat
  ∧ ∃ e, load embedding_new
           (stream 2 (N.of_nat (length ["cat"; "dog"])) ["cat"; "dog"] 1 0%N
              [1%Q; 0%Q; 0%Q; 1%Q; 3%Q; 5%Q] [])
         = Some (e, [])
         ∧ lookup_word e "dog" = (Z.of_nat 1, e)
         ∧ weight e (Z.of_nat 1) = (Some (1 * N.to_nat 2)%nat, e)
         ∧ row e 1 = take (N.to_nat 2) (drop (1 * N.to_nat 2)
                                            [1%Q; 0%Q; 0%Q; 1%Q; 3%Q; 5%Q]).
Proof.
  assert (Hnd : NoDup ["cat"; "dog"]).
  { apply NoDup_cons. split; [|apply NoDup_singleton].
    intros [= ]%list_elem_of_singleton. }
  assert (Hi : ["cat"; "dog"] !! 1%nat = Some "dog") by reflexivity.
  assert (Hlen : length [1%Q; 0%Q; 0%Q; 1%Q; 3%Q; 5%Q]
                 = (N.to_nat 2 * (length ["cat"; "dog"]
                                  + (if (1 =? 0)%N then 0 else 1)))%nat)
    by reflexivity.
  assert (Hno : Z.of_nat (length [1%Q; 0%Q; 0%Q; 1%Q; 3%Q; 5%Q]) ≤ 2 ^ 32)
    by (vm_compute; discriminate).
  assert (Hdim : N.to_nat 2 ≠ 0%nat) by (vm_compute; discriminate).
  pose proof (load_lookup_weight 2%N ["cat"; "dog"] 1%N
                [1%Q; 0%Q; 0%Q; 1%Q; 3%Q; 5%Q] [] 1 "dog" Hnd Hi Hlen Hno Hdim)
    as Hthm.
  split; [exact Hnd|]. split; [exact Hi|]. split; [exact Hlen|].
  split; [exact Hno|]. split; [exact Hdim|]. exact Hthm.
Defined.

Lemma load_keeps_memo_witness :
  load with_cats cat_dog_stream = Some (reloaded, [])
  ∧ decomposed_forms reloaded = decomposed_forms with_cats
  ∧ active_subforms reloaded = active_subforms with_cats
  ∧ (∀ n l, (n < length (weights reloaded) / dimension reloaded)%nat →
            subforms with_cats !! n = Some l → subforms reloaded !! n = Some l)
  ∧ (subform reloaded = true →
     ∀ word id, decomposed_forms with_cats !! word = Some id →
                lookup_word reloaded word = (id, reloaded))
  ∧ lookup_word reloaded "cats" = (3, reloaded)
  ∧ rows reloaded = 2%nat
  ∧ weight reloaded 3 = (None, reloaded).
Proof.
  assert (Hload : load with_cats cat_dog_stream = Some (reloaded, []))
    by (vm_compute; reflexivity).
  pose proof (load_keeps_memo with_cats reloaded cat_dog_stream [] Hload)
    as (Hmemo & Hact & Hsubs & Hlook).
  assert (Hsub : subform reloaded = true) by (vm_compute; reflexivity).
  assert (Hcats : decomposed_forms with_cats !! "cats" = Some 3)
    by (vm_compute; reflexivity).
  split; [exact Hload|]. split; [exact Hmemo|]. split; [exact Hact|].
  split; [exact Hsubs|]. split; [exact Hlook|].
  split; [exact (Hlook Hsub "cats" 3 Hcats)|].
  split; vm_compute; reflexivity.
Defined.

Lemma weight_null_no_wrap_witness :
  inv wide ∧ 0 * Z.of_nat (dimension wide) < 2 ^ 32
  ∧ (fst (weight wide 0) = None ↔ 0 < 0 ∨ Z.of_nat (rows wide) ≤ 0)
  ∧ (fst (weight wide 0) = None → snd (weight wide 0) = wide)
  ∧ (0 ≤ 0 < Z.of_nat (rows wide) →
     fst (weight wide 0) = Some (Z.to_nat 0 * dimension wide)%nat).
Proof.
  assert (Hinv : inv wide) by apply loaded_inv, loaded_wide.
  assert (Hsmall : 0 * Z.of_nat (dimension wide) < 2 ^ 32) by (vm_compute; reflexivity).
  pose proof (weight_null_no_wrap wide 0 Hinv Hsmall) as Hthm.
  split; [exact Hinv|]. split; [exact Hsmall|]. exact Hthm.
Defined.

Lemma weight_pointer_row_witness :
  inv with_cats ∧ no_overflow with_cats
  ∧ 0 ≤ 3 < Z.of_nat (rows with_cats) ∧ (1 < dimension with_cats)%nat
  ∧ ∃ p, fst (weight with_cats 3) = Some p
         ∧ let e1 := snd (weight with_cats 3) in
           let e2 := step e1 (OpStore (p + 1) 7%Q) in
           row e2 (Z.to_nat 3) = <[1%nat := 7%Q]> (row e1 (Z.to_nat 3))
           ∧ ∀ r, r ≠ Z.to_nat 3 → (r < rows with_cats)%nat → row e2 r = row e1 r.
Proof.
  assert (Hinv : inv with_cats) by apply reachable_inv, reachable_with_cats.
  assert (Hno : no_overflow with_cats) by (vm_compute; discriminate).
  assert (Hid : 0 ≤ 3 < Z.of_nat (rows with_cats)).
  { split; [vm_compute; discriminate|vm_compute; reflexivity]. }
  assert (Hj : (1 < dimension with_cats)%nat) by (vm_compute; lia).
  pose proof (weight_pointer_row with_cats 3 1 7%Q Hinv Hno Hid Hj) as Hthm.
  split; [exact Hinv|]. split; [exact Hno|]. split; [exact Hid|].
  split; [exact Hj|]. exact Hthm.
Defined.

Lemma plain_mode_const_witness :
  subform the = false
  ∧ Forall (fun o : op Q => is_store o = false)
      [OpLookup "The"; OpWeight 0; OpUpdate; OpLookup "xyz"; OpWeight 3]
  ∧ run [OpLookup "The"; OpWeight 0; OpUpdate; OpLookup "xyz"; OpWeight 3] the = the.
Proof.
  assert (Hsub : subform the = false) by (vm_compute; reflexivity).
  assert (Hops : Forall (fun o : op Q => is_store o = false)
                   [OpLookup "The"; OpWeight 0; OpUpdate; OpLookup "xyz"; OpWeight 3])
    by (repeat constructor).
  pose proof (plain_mode_const the _ Hsub Hops) as Hthm.
  split; [exact Hsub|]. split; [exact Hops|]. exact Hthm.
Defined.
End ConcreteFurther.

(** ** The program's arithmetic: binary32 *)

Section ConcreteBinary32.
Import Examples.
#[local] Existing Instance Binary32.scalar.

Lemma loaded_thirds : loaded thirds.
Proof. exists thirds_stream, []. split; [vm_compute; reflexivity|vm_compute; lia]. Qed.

Lemma reachable_thirds_cat : reachable thirds_cat.
Proof.
  exists thirds, [OpLookup "cat"].
  split; [apply loaded_thirds|vm_compute; reflexivity].
Qed.

Lemma reachable_thirds_fetched : reachable thirds_fetched.
Proof.
  exists thirds, [OpLookup "cat"; OpWeight 3].
  split; [apply loaded_thirds|vm_compute; reflexivity].
Qed.

Lemma reachable_thirds_trained : reachable thirds_trained.
Proof.
  exists thirds, [OpLookup "cat"; OpWeight 3; OpStore 7%nat (Binary32.of_Z 8)].
  split; [apply loaded_thirds|vm_compute; reflexivity].
Qed.

(** In binary32 the addition of [0.f] changes no value but the negative
    zero, which becomes the positive zero. *)
Lemma binary32_add_zero :
  (∀ x : spec_float, x ≠ S754_zero true → fadd x f0 = x)
  ∧ fadd (S754_zero true) (f0 : spec_float) = S754_zero false.
Proof.
  split; [|reflexivity]. intros [[|]| | |s m e] Hx; try reflexivity.
  by destruct Hx.
Qed.

(** The mean is not the quotient: in [thirds_cat] the composed id 3 has
    the subforms 0, 1 and 2, whose first cells 1, 2 and 2 have the sum 5.
    [weight] stores 5 times the rounded reciprocal of 3, which is
    13981014 * 2^-23; the quotient of 5 by 3 is 13981013 * 2^-23. *)
Lemma weight_mean_rounds :
  inv thirds_cat ∧ no_overflow thirds_cat
  ∧ subform thirds_cat = true ∧ stale thirds_cat 3 = true
  ∧ subforms thirds_cat !!! Z.to_nat 3 = [0; 1; 2]
  ∧ row (snd (weight thirds_cat 3)) (Z.to_nat 3)
    = [S754_finite false 13981014 (-23); Binary32.of_Z 3]
  ∧ mean_rows (dimension thirds_cat)
      ((fun c => row thirds_cat (Z.to_nat c)) <$> subforms thirds_cat !!! Z.to_nat 3)
    = [S754_finite false 13981013 (-23); Binary32.of_Z 3]
  ∧ ¬ @weight_gives_mean spec_float Binary32.scalar.
Proof.
  assert (Hinv : inv thirds_cat) by apply reachable_inv, reachable_thirds_cat.
  assert (Hno : no_overflow thirds_cat) by (vm_compute; discriminate).
  assert (Hsub : subform thirds_cat = true) by (vm_compute; reflexivity).
  assert (Hstale : stale thirds_cat 3 = true) by (vm_compute; reflexivity).
  assert (Hrow : row (snd (weight thirds_cat 3)) (Z.to_nat 3)
                 = [S754_finite false 13981014 (-23); Binary32.of_Z 3])
    by (vm_compute; reflexivity).
  assert (Hmean : mean_rows (dimension thirds_cat)
                    ((fun c => row thirds_cat (Z.to_nat c))
                       <$> subforms thirds_cat !!! Z.to_nat 3)
                  = [S754_finite false 13981013 (-23); Binary32.of_Z 3])
    by (vm_compute; reflexivity).
  split; [exact Hinv|]. split; [exact Hno|]. split; [exact Hsub|].
  split; [exact Hstale|]. split; [vm_compute; reflexivity|].
  split; [exact Hrow|]. split; [exact Hmean|].
  intros Hclaim.
  assert (Hpos : 0 ≤ 3) by (vm_compute; discriminate).
  pose proof (Hclaim thirds_cat 3 Hinv Hno Hsub Hpos Hstale) as Heq.
  rewrite Hrow, Hmean in Heq. discriminate Heq.
Qed.

(** The delta is not the quotient: in [thirds_trained] the second cell of
    the row of the composed id 3 was materialised as 3 and then set to 8.
    [update_weights] adds to the second cell of row 0, which is 0, the
    change 5 times the rounded reciprocal of 3, 13981014 * 2^-23; the
    quotient of 5 by 3 is 13981013 * 2^-23. *)
Lemma update_weights_quotient_rounds :
  inv thirds_trained ∧ no_overflow thirds_trained
  ∧ subform thirds_trained = true ∧ NoDup (active_subforms thirds_trained)
  ∧ (0 < rows_loaded thirds_trained)%nat
  ∧ row thirds_trained 3 = [S754_finite false 13981014 (-23); Binary32.of_Z 8]
  ∧ previous_weights thirds_trained !!! 3%nat
    = [S754_finite false 13981014 (-23); Binary32.of_Z 3; Binary32.of_Z 1]
  ∧ row (update_weights thirds_trained) 0
    = [Binary32.of_Z 1; S754_finite false 13981014 (-23)]
  ∧ redistributed (delta thirds_trained) thirds_trained 0
    = [Binary32.of_Z 1; S754_finite false 13981013 (-23)]
  ∧ ¬ @update_adds_quotient spec_float Binary32.scalar.
Proof.
  assert (Hinv : inv thirds_trained) by apply reachable_inv, reachable_thirds_trained.
  assert (Hno : no_overflow thirds_trained) by (vm_compute; discriminate).
  assert (Hsub : subform thirds_trained = true) by (vm_compute; reflexivity).
  assert (Hnd : NoDup (active_subforms thirds_trained)).
  { apply reachable_active_NoDup; [reflexivity|apply reachable_thirds_trained]. }
  assert (Hc : (0 < rows_loaded thirds_trained)%nat) by (vm_compute; lia).
  assert (Hrow : row (update_weights thirds_trained) 0
                 = [Binary32.of_Z 1; S754_finite false 13981014 (-23)])
    by (vm_compute; reflexivity).
  assert (Hquot : redistributed (delta thirds_trained) thirds_trained 0
                  = [Binary32.of_Z 1; S754_finite false 13981013 (-23)])
    by (vm_compute; reflexivity).
  split; [exact Hinv|]. split; [exact Hno|]. split; [exact Hsub|].
  split; [exact Hnd|]. split; [exact Hc|].
  split; [vm_compute; reflexivity|]. split; [vm_compute; reflexivity|].
  split; [exact Hrow|]. split; [exact Hquot|].
  intros Hclaim.
  pose proof (Hclaim thirds_trained Hinv Hno Hsub Hnd 0%nat Hc) as Heq.
  rewrite Hrow, Hquot in Heq. discriminate Heq.
Qed.

Lemma weight_materializes_witness :
  (inv with_cats ∧ no_overflow with_cats
   ∧ subform with_cats = true ∧ 0 ≤ 3 ∧ stale with_cats 3 = true
   ∧ let e' := snd (weight with_cats 3) in
     let n := Z.to_nat 3 in
     composed with_cats n
     ∧ fst (weight with_cats 3) = Some (n * dimension with_cats)%nat
     ∧ row e' n
       = mean_computed (dimension with_cats)
           ((fun c => row with_cats (Z.to_nat c)) <$> subforms with_cats !!! n)
     ∧ (@exact_division Q Q_scalar →
        row e' n
        = mean_rows (dimension with_cats)
            ((fun c => row with_cats (Z.to_nat c)) <$> subforms with_cats !!! n))
     ∧ (∀ r, r ≠ n → (r < rows with_cats)%nat → row e' r = row with_cats r)
     ∧ take (dimension with_cats) (previous_weights e' !!! n) = row e' n
     ∧ (previous_weights e' !!! n) !!! dimension with_cats = (f1 : Q)
     ∧ active_subforms e' = active_subforms with_cats ++ [3]
     ∧ row e' n
       = mean_rows (dimension with_cats)
           ((fun c => row with_cats (Z.to_nat c)) <$> subforms with_cats !!! n))
  ∧ (inv thirds_cat ∧ no_overflow thirds_cat
     ∧ subform thirds_cat = true ∧ 0 ≤ 3 ∧ stale thirds_cat 3 = true
     ∧ let e' := snd (weight thirds_cat 3) in
       let n := Z.to_nat 3 in
       composed thirds_cat n
       ∧ fst (weight thirds_cat 3) = Some (n * dimension thirds_cat)%nat
       ∧ row e' n
         = mean_computed (dimension thirds_cat)
             ((fun c => row thirds_cat (Z.to_nat c)) <$> subforms thirds_cat !!! n)
       ∧ (@exact_division spec_float Binary32.scalar →
          row e' n
          = mean_rows (dimension thirds_cat)
              ((fun c => row thirds_cat (Z.to_nat c)) <$> subforms thirds_cat !!! n))
       ∧ (∀ r, r ≠ n → (r < rows thirds_cat)%nat → row e' r = row thirds_cat r)
       ∧ take (dimension thirds_cat) (previous_weights e' !!! n) = row e' n
       ∧ (previous_weights e' !!! n) !!! dimension thirds_cat = (f1 : spec_float)
       ∧ active_subforms e' = active_subforms thirds_cat ++ [3]
       ∧ mean_computed (dimension thirds_cat)
           ((fun c => row thirds_cat (Z.to_nat c)) <$> subforms thirds_cat !!! n)
         = [S754_finite false 13981014 (-23); Binary32.of_Z 3]).
Proof.
  split.
  - assert (Hinv : inv with_cats) by apply reachable_inv, reachable_with_cats.
    assert (Hno : no_overflow with_cats) by (vm_compute; discriminate).
    assert (Hsub : subform with_cats = true) by (vm_compute; reflexivity).
    assert (Hid : 0 ≤ 3) by lia.
    assert (Hstale : stale with_cats 3 = true) by (vm_compute; reflexivity).
    split; [exact Hinv|]. split; [exact Hno|].
    split; [exact Hsub|]. split; [exact Hid|]. split; [exact Hstale|].
    pose proof (weight_materializes with_cats 3 Hinv Hno Hsub Hid Hstale)
      as (Hcomp & Hptr & Hrow & Hexact & Hothers & Hcopy & Hflag & Hactive).
    split; [exact Hcomp|]. split; [exact Hptr|]. split; [exact Hrow|].
    split; [exact Hexact|]. split; [exact Hothers|]. split; [exact Hcopy|].
    split; [exact Hflag|]. split; [exact Hactive|].
    exact (Hexact Q_exact_division).
  - assert (Hinv : inv thirds_cat) by apply reachable_inv, reachable_thirds_cat.
    assert (Hno : no_overflow thirds_cat) by (vm_compute; discriminate).
    assert (Hsub : subform thirds_cat = true) by (vm_compute; reflexivity).
    assert (Hid : 0 ≤ 3) by lia.
    assert (Hstale : stale thirds_cat 3 = true) by (vm_compute; reflexivity).
    assert (Hval : mean_computed (dimension thirds_cat)
                     ((fun c => row thirds_cat (Z.to_nat c))
                        <$> subforms thirds_cat !!! Z.to_nat 3)
                   = [S754_finite false 13981014 (-23); Binary32.of_Z 3])
      by (vm_compute; reflexivity).
    split; [exact Hinv|]. split; [exact Hno|].
    split; [exact Hsub|]. split; [exact Hid|]. split; [exact Hstale|].
    pose proof (weight_materializes thirds_cat 3 Hinv Hno Hsub Hid Hstale)
      as (Hcomp & Hptr & Hrow & Hexact & Hothers & Hcopy & Hflag & Hactive).
    split; [exact Hcomp|]. split; [exact Hptr|]. split; [exact Hrow|].
    split; [exact Hexact|]. split; [exact Hothers|]. split; [exact Hcopy|].
    split; [exact Hflag|]. split; [exact Hactive|]. exact Hval.
Defined.

Lemma update_weights_redistributes_witness :
  (inv trained ∧ no_overflow trained
   ∧ subform trained = true ∧ NoDup (active_subforms trained)
   ∧ let e' := update_weights trained in
     active_subforms e' = []
     ∧ (∀ id, id ∈ active_subforms trained →
          (previous_weights e' !!! Z.to_nat id) !!! dimension trained = (f0 : Q))
     ∧ (∀ c, (c < rows_loaded trained)%nat →
          row e' c = redistributed (delta_computed trained) trained c)
     ∧ (@exact_division Q Q_scalar →
        ∀ c, (c < rows_loaded trained)%nat →
          row e' c = redistributed (delta trained) trained c)
     ∧ row e' 0 = redistributed (delta trained) trained 0)
  ∧ (inv thirds_trained ∧ no_overflow thirds_trained
     ∧ subform thirds_trained = true ∧ NoDup (active_subforms thirds_trained)
     ∧ let e' := update_weights thirds_trained in
       active_subforms e' = []
       ∧ (∀ id, id ∈ active_subforms thirds_trained →
            (previous_weights e' !!! Z.to_nat id) !!! dimension thirds_trained
            = (f0 : spec_float))
       ∧ (∀ c, (c < rows_loaded thirds_trained)%nat →
            row e' c = redistributed (delta_computed thirds_trained) thirds_trained c)
       ∧ (@exact_division spec_float Binary32.scalar →
          ∀ c, (c < rows_loaded thirds_trained)%nat →
            row e' c = redistributed (delta thirds_trained) thirds_trained c)
       ∧ redistributed (delta_computed thirds_trained) thirds_trained 0
         = [Binary32.of_Z 1; S754_finite false 13981014 (-23)]).
Proof.
  split.
  - assert (Hinv : inv trained) by apply reachable_inv, reachable_trained.
    assert (Hno : no_overflow trained) by (vm_compute; discriminate).
    assert (Hsub : subform trained = true) by (vm_compute; reflexivity).
    assert (Hnd : NoDup (active_subforms trained)).
    { apply reachable_active_NoDup; [reflexivity|apply reachable_trained]. }
    split; [exact Hinv|]. split; [exact Hno|].
    split; [exact Hsub|]. split; [exact Hnd|].
    pose proof (update_weights_redistributes trained Hinv Hno Hsub Hnd)
      as (Hactive & Hflags & Hcomputed & Hexact).
    split; [exact Hactive|]. split; [exact Hflags|]. split; [exact Hcomputed|].
    split; [exact Hexact|].
    apply (Hexact Q_exact_division). vm_compute. lia.
  - assert (Hinv : inv thirds_trained)
      by apply reachable_inv, reachable_thirds_trained.
    assert (Hno : no_overflow thirds_trained) by (vm_compute; discriminate).
    assert (Hsub : subform thirds_trained = true) by (vm_compute; reflexivity).
    assert (Hnd : NoDup (active_subforms thirds_trained)).
    { apply reachable_active_NoDup; [reflexivity|apply reachable_thirds_trained]. }
    assert (Hval : redistributed (delta_computed thirds_trained) thirds_trained 0
                   = [Binary32.of_Z 1; S754_finite false 13981014 (-23)])
      by (vm_compute; reflexivity).
    split; [exact Hinv|]. split; [exact Hno|].
    split; [exact Hsub|]. split; [exact Hnd|].
    pose proof (update_weights_redistributes thirds_trained Hinv Hno Hsub Hnd)
      as (Hactive & Hflags & Hcomputed & Hexact).
    split; [exact Hactive|]. split; [exact Hflags|]. split; [exact Hcomputed|].
    split; [exact Hexact|]. exact Hval.
Defined.

Lemma update_weights_zero_delta_witness :
  is_zero (f1 : spec_float) = false
  ∧ reachable thirds_fetched ∧ no_overflow thirds_fetched
  ∧ subform thirds_fetched = true
  ∧ (∀ id, id ∈ active_subforms thirds_fetched →
           delta_computed thirds_fetched (Z.to_nat id)
           = replicate (dimension thirds_fetched) f0)
  ∧ (2 < rows_loaded thirds_fetched)%nat
  ∧ (∀ x, x ∈ row thirds_fetched 2 → fadd x f0 = x)
  ∧ row (update_weights thirds_fetched) 2 = row thirds_fetched 2
  ∧ row thirds_fetched 2 = [Binary32.of_Z 2; Binary32.of_Z 9].
Proof.
  assert (Hone : is_zero (f1 : spec_float) = false) by reflexivity.
  assert (Hno : no_overflow thirds_fetched) by (vm_compute; discriminate).
  assert (Hsub : subform thirds_fetched = true) by (vm_compute; reflexivity).
  assert (Hact : active_subforms thirds_fetched = [3]) by (vm_compute; reflexivity).
  assert (Hdelta : delta_computed thirds_fetched (Z.to_nat 3)
                   = replicate (dimension thirds_fetched) f0)
    by (vm_compute; reflexivity).
  assert (Hzero : ∀ id, id ∈ active_subforms thirds_fetched →
            delta_computed thirds_fetched (Z.to_nat id)
            = replicate (dimension thirds_fetched) f0).
  { intros id Hin. rewrite Hact in Hin. apply list_elem_of_singleton in Hin.
    rewrite Hin. exact Hdelta. }
  assert (Hc : (2 < rows_loaded thirds_fetched)%nat) by (vm_compute; lia).
  assert (Hrow : row thirds_fetched 2 = [Binary32.of_Z 2; Binary32.of_Z 9])
    by (vm_compute; reflexivity).
  assert (Hadd : ∀ x, x ∈ row thirds_fetched 2 → fadd x f0 = x).
  { intros x Hx. apply (proj1 binary32_add_zero). rewrite Hrow in Hx.
    intros ->.
    repeat (apply elem_of_cons in Hx as [Hx|Hx]; [discriminate Hx|]).
    destruct (not_elem_of_nil _ Hx). }
  pose proof (update_weights_zero_delta thirds_fetched 2 Hone reachable_thirds_fetched
                Hno Hsub Hzero Hc Hadd) as Hthm.
  split; [exact Hone|]. split; [exact reachable_thirds_fetched|].
  split; [exact Hno|]. split; [exact Hsub|]. split; [exact Hzero|].
  split; [exact Hc|]. split; [exact Hadd|]. split; [exact Hthm|exact Hrow].
Defined.
End ConcreteBinary32.
